(** * sattle: the angular-proximity check of [calc_sat]

    A shallow embedding of [src/docker/sattle.cpp].

    - The C++ [double] is IEEE 754 binary64 and is modelled by Rocq's
      primitive [float], whose operations are specified by [SpecFloat]
      (round to nearest, ties to even): every expression is evaluated
      in binary64, operation by operation, as the source writes it.
    - The routines of the sat_code library ([norad.h], [observe.h])
      are not part of the repository.  They are the methods of the
      class [SatCode], and every result holds for all its instances.
    - The [while] loop of [calc_sat] runs on fuel: [calc_sat] returns
      [None] when the fuel does not suffice.
    - The [printf] tracing of intermediate values has no effect on the
      value returned; [calc_sat] leaves it out and [calc_sat_io] has
      it.
    - The member functions and accessors that [PYBIND11_MODULE] exposes
      are in [Binding]: an array argument is a view of a buffer of
      doubles, a [std::string] the list of its characters. *)

From Stdlib Require Import ZArith Floats Bool Lia List.
From stdpp Require Import base option gmap.
From Stdlib Require String DecimalString.
Import String.StringSyntax.
Delimit Scope string_scope with string.

#[local] Set Warnings "-inexact-float".
#[local] Open Scope float_scope.

(** ** Constants and libm *)

(** [#define PI 3.141592653589793238462643383279] *)
Definition PI : float := 3.141592653589793238462643383279.

Module Libm.

(** ISO C [fmod] (C11 7.12.10.1 and F.10.7.1), on the specification
    level: the result is [x - n*y] for the integer [n] that truncates
    [x/y]; it carries the sign of [x] and is computed without rounding
    error.  Both magnitudes are aligned to the smaller exponent and the
    remainder is taken on integers. *)
Definition SFfmod (x y : spec_float) : spec_float :=
  match x, y with
  | S754_nan, _ | _, S754_nan => S754_nan
  | S754_infinity _, _ => S754_nan
  | _, S754_zero _ => S754_nan
  | S754_zero _, _ => x
  | S754_finite _ _ _, S754_infinity _ => x
  | S754_finite sx mx ex, S754_finite _ my ey =>
      let ez := Z.min ex ey in
      let ax := Zpos (fst (shl_align mx ex ez)) in
      let ay := Zpos (fst (shl_align my ey ez)) in
      match Z.modulo ax ay with
      | Zpos r => binary_round prec emax sx r ez
      | _ => S754_zero sx
      end
  end.

Definition fmod (x y : float) : float :=
  SF2Prim (SFfmod (Prim2SF x) (Prim2SF y)).

End Libm.
Export Libm.

(** ** Data *)

(** A C array [double a[2]], read and written at index 0 or 1.  The loop
    of [calc_sat] only ever uses these two indices; any other index
    reads slot 1 and writes nothing. *)
Definition arr2 : Type := float * float.

Definition get2 (a : arr2) (i : nat) : float :=
  match i with O => fst a | _ => snd a end.

Definition set2 (a : arr2) (i : nat) (v : float) : arr2 :=
  match i with
  | O => (v, snd a)
  | S O => (fst a, v)
  | _ => a
  end.

Module Inputs.
(** [struct Inputs], with its default member initialisers in [default]
    (zero for the three fields that have none). *)
Record t : Type := mk {
  lat : float;
  lon : float;
  ht_in_meters : float;
  jd : arr2;
  search_radius : float;
  target_ra : float;
  target_dec : float;
  rho_sin_phi : float;
  rho_cos_phi : float;
  i : Z;
  header_line_shown : Z
}.

Definition default : t :=
  mk (-30.244633333333333) (-70.74941666666666) 2662.75
     (2452623.5, 2452623.6) 10 90 30 0 0 0%Z 0%Z.

Definition with_target (a : t) (r d : float) : t :=
  mk (lat a) (lon a) (ht_in_meters a) (jd a) (search_radius a)
     r d (rho_sin_phi a) (rho_cos_phi a) (i a) (header_line_shown a).

Definition with_rho (a : t) (c s : float) : t :=
  mk (lat a) (lon a) (ht_in_meters a) (jd a) (search_radius a)
     (target_ra a) (target_dec a) s c (i a) (header_line_shown a).

Definition with_header_line_shown (a : t) (h : Z) : t :=
  mk (lat a) (lon a) (ht_in_meters a) (jd a) (search_radius a)
     (target_ra a) (target_dec a) (rho_sin_phi a) (rho_cos_phi a) (i a) h.

Definition with_search_radius (a : t) (r : float) : t :=
  mk (lat a) (lon a) (ht_in_meters a) (jd a) r
     (target_ra a) (target_dec a) (rho_sin_phi a) (rho_cos_phi a)
     (i a) (header_line_shown a).

Definition with_jd (a : t) (j : arr2) : t :=
  mk (lat a) (lon a) (ht_in_meters a) j (search_radius a)
     (target_ra a) (target_dec a) (rho_sin_phi a) (rho_cos_phi a)
     (i a) (header_line_shown a).
End Inputs.

Module Outputs.
(** [struct Outputs]: [double ra[2] = {0, 0}; double dec[2] = {0, 0};] *)
Record t : Type := mk { ra : arr2; dec : arr2 }.

Definition default : t := mk (0, 0) (0, 0).

(** The pair reported for epoch [i]. *)
Definition slot (o : t) (i : nat) : float * float :=
  (get2 (ra o) i, get2 (dec o) i).
End Outputs.

(** [tle_t] is declared in [norad.h]; the fields are those the binding
    of [sattle.cpp] exposes.  [calc_sat] itself reads [epoch] only. *)
Record tle_t : Type := mk_tle {
  epoch : float;
  xndt2o : float;
  xndd6o : float;
  bstar : float;
  xincl : float;
  xnodeo : float;
  eo : float;
  omegao : float;
  xmo : float;
  xno : float;
  norad_number : Z;
  bulletin_number : Z;
  revolution_number : Z;
  classification : Z;
  ephemeris_type : Z;
  intl_desig : list Z
}.

Definition vec3 : Type := float * float * float.

(** ** The collaborators

    Each routine is a function of the arguments the call site passes.
    What a call writes through a pointer is returned: the two parallax
    constants, the observer and satellite vectors, the parameter array,
    the apparent position.  The routines that receive [&tle] return the
    element set as they leave it, so that nothing is assumed about
    whether [norad.h] declares the pointer [const].  [SGP4] and [SDP4]
    also return an [int] status. *)
Class SatCode : Type := {
  earth_lat_alt_to_parallax : float -> float -> float * float;
  observer_cartesian_coords : float -> float -> float -> float -> vec3;
  select_ephemeris : tle_t -> Z * tle_t;
  SGP4_init : tle_t -> list float * tle_t;
  SGP4 : float -> tle_t -> list float -> Z * vec3 * tle_t;
  SDP4_init : tle_t -> list float * tle_t;
  SDP4 : float -> tle_t -> list float -> Z * vec3 * tle_t;
  get_satellite_ra_dec_delta : vec3 -> vec3 -> float * float * float;
  epoch_of_date_to_j2000 : float -> float -> float -> float * float
}.

(** ** [calc_sat] *)

(** The working state of the body of [calc_sat]: its two by-value
    parameters, which it updates in place, and the result under
    construction. *)
Record frame : Type := mk_frame {
  inputs : Inputs.t;
  tle : tle_t;
  outputs : Outputs.t
}.

(** [while( d_ra > PI) d_ra -= PI + PI;] with at most [fuel] iterations;
    [None] when the fuel does not suffice. *)
Fixpoint wrap_d_ra (fuel : nat) (d_ra : float) : option float :=
  if PI <? d_ra then
    match fuel with
    | O => None
    | S fuel' => wrap_d_ra fuel' (d_ra - (PI + PI))
    end
  else Some d_ra.

(** [sqrt( d_ra * d_ra + d_dec * d_dec) * 180. / PI] *)
Definition radius_of (d_ra d_dec : float) : float :=
  sqrt (d_ra * d_ra + d_dec * d_dec) * 180 / PI.

(** Lines 148-153: the offset in degrees between the apparent position
    [(ra, dec)] and the target, both in radians. *)
Definition offset_deg (fuel : nat) (ra dec target_ra target_dec : float)
  : option float :=
  d_ra ← wrap_d_ra fuel (ra - target_ra + PI * 4);
  let d_dec := dec - target_dec in
  Some (radius_of d_ra d_dec).

(** Lines 168-175: what a matched epoch stores, RA first. *)
Definition matched_ra (ra : float) : float :=
  fmod (ra + PI * 10) (PI + PI) * 180 / PI.

Definition matched_dec (dec : float) : float := dec * 180 / PI.

Section CalcSat.
Context `{SatCode}.

(** Lines 135-144: the propagation, near-Earth or deep-space, with the
    [int] that [SGP4] or [SDP4] returns. *)
Definition propagate (is_deep : Z) (t_since : float) (tle : tle_t)
  : Z * vec3 * tle_t :=
  if (is_deep =? 0)%Z then
    let '(sat_params, tle) := SGP4_init tle in
    SGP4 t_since tle sat_params
  else
    let '(sat_params, tle) := SDP4_init tle in
    SDP4 t_since tle sat_params.

(** Lines 111-147: the apparent J2000 position at epoch [i], with the
    frame as the calls leave it.  The value of the propagator call is
    discarded, as in the source. *)
Definition apparent (i : nat) (f : frame) : frame * (float * float * float) :=
  let inp := inputs f in
  let '(rho_cos_phi, rho_sin_phi) :=
    earth_lat_alt_to_parallax (Inputs.lat inp * PI / 180)
                              (Inputs.ht_in_meters inp) in
  let inp := Inputs.with_rho inp rho_cos_phi rho_sin_phi in
  let observer_loc :=
    observer_cartesian_coords (get2 (Inputs.jd inp) i)
      (Inputs.lon inp * PI / 180)
      (Inputs.rho_cos_phi inp) (Inputs.rho_sin_phi inp) in
  let '(is_deep, tle) := select_ephemeris (tle f) in
  let t_since := (get2 (Inputs.jd inp) i - epoch tle) * 1440 in
  let '(_, pos, tle) := propagate is_deep t_since tle in
  let '(ra, dec, dist_to_satellite) :=
    get_satellite_ra_dec_delta observer_loc pos in
  let '(ra, dec) := epoch_of_date_to_j2000 (get2 (Inputs.jd inp) i) ra dec in
  (mk_frame inp tle (outputs f), (ra, dec, dist_to_satellite)).

(** Lines 161-177: the radius test and the store into slot [i]. *)
Definition record_match (i : nat) (ra dec radius : float) (f : frame) : frame :=
  if radius <? Inputs.search_radius (inputs f) then
    let inp :=
      if (Inputs.header_line_shown (inputs f) =? 0)%Z
      then Inputs.with_header_line_shown (inputs f) 1
      else inputs f in
    let ra := fmod (ra + PI * 10) (PI + PI) in
    let out := Outputs.mk (set2 (Outputs.ra (outputs f)) i (ra * 180 / PI))
                          (set2 (Outputs.dec (outputs f)) i (dec * 180 / PI)) in
    mk_frame inp (tle f) out
  else f.

(** One iteration of [for (int i = 0; i < 2; ++i)]. *)
Definition epoch_body (fuel : nat) (i : nat) (f : frame) : option frame :=
  let '(f, (ra, dec, _)) := apparent i f in
  radius ← offset_deg fuel ra dec (Inputs.target_ra (inputs f))
                                  (Inputs.target_dec (inputs f));
  let f := mk_frame (Inputs.with_header_line_shown (inputs f) 1)
                    (tle f) (outputs f) in
  Some (record_match i ra dec radius f).

(** The statements before the loop: a fresh [Outputs], and the target
    converted to radians in place ([inputs.target_ra *= PI / 180.]). *)
Definition enter (inp : Inputs.t) (tle : tle_t) : frame :=
  let inp :=
    Inputs.with_target inp (Inputs.target_ra inp * (PI / 180))
                           (Inputs.target_dec inp * (PI / 180)) in
  mk_frame inp tle Outputs.default.

(** The body of [calc_sat], returning the final frame. *)
Definition calc_sat_frame (fuel : nat) (inp : Inputs.t) (tle : tle_t)
  : option frame :=
  f ← epoch_body fuel 0 (enter inp tle);
  epoch_body fuel 1 f.

(** [Outputs calc_sat(Inputs inputs, tle_t tle)] *)
Definition calc_sat (fuel : nat) (inp : Inputs.t) (tle : tle_t)
  : option Outputs.t :=
  outputs <$> calc_sat_frame fuel inp tle.

(** *** Views used to state the properties *)

(** The frame on entry to iteration [i]. *)
Definition entry (fuel : nat) (i : nat) (inp : Inputs.t) (tle : tle_t)
  : option frame :=
  match i with
  | O => Some (enter inp tle)
  | S _ => epoch_body fuel 0 (enter inp tle)
  end.

(** What iteration [i] computes before its radius test: the apparent
    [ra] and [dec] in radians and the offset [radius] in degrees. *)
Definition epoch_view (fuel : nat) (i : nat) (f : frame)
  : option (float * float * float) :=
  let '(f, (ra, dec, _)) := apparent i f in
  radius ← offset_deg fuel ra dec (Inputs.target_ra (inputs f))
                                  (Inputs.target_dec (inputs f));
  Some (ra, dec, radius).

(** The [int] the propagator returns in iteration [i]. *)
Definition epoch_status (i : nat) (f : frame) : Z :=
  let '(is_deep, tle) := select_ephemeris (tle f) in
  let t_since := (get2 (Inputs.jd (inputs f)) i - epoch tle) * 1440 in
  let '(status, _, _) := propagate is_deep t_since tle in
  status.

(** The value of [d_ra] on entry to the [while] loop of iteration [i]. *)
Definition d_ra_entry (i : nat) (f : frame) : float :=
  let '(f, (ra, _, _)) := apparent i f in
  ra - Inputs.target_ra (inputs f) + PI * 4.

(** Both iterations enter their [while] loop with a [d_ra] that is not
    above 2^56 (a NaN included).  The second iteration starts from the
    element set as the first one left it. *)
Definition wrap_bounded (inp : Inputs.t) (t : tle_t) : Prop :=
  (0x1p56 <? d_ra_entry 0 (enter inp t)) = false /\
  (0x1p56 <? d_ra_entry 1 (fst (apparent 0 (enter inp t)))) = false.

(** The fields of [Inputs] that an iteration reads and never writes. *)
Definition request_of (a : Inputs.t) :=
  (Inputs.lat a, Inputs.lon a, Inputs.ht_in_meters a, Inputs.jd a,
   Inputs.search_radius a, Inputs.target_ra a, Inputs.target_dec a).

(** The routines that receive [&tle] leave the element set as they
    found it. *)
Definition tle_const : Prop :=
  (forall t, snd (select_ephemeris t) = t) /\
  (forall t, snd (SGP4_init t) = t) /\
  (forall t, snd (SDP4_init t) = t) /\
  (forall ts t p, snd (SGP4 ts t p) = t) /\
  (forall ts t p, snd (SDP4 ts t p) = t).

End CalcSat.

(** The apparent right ascension that iteration [i] computes, in
    radians. *)
Definition apparent_ra `{SatCode} (i : nat) (f : frame) : float :=
  let '(_, (ra, _, _)) := apparent i f in ra.

(** The apparent right ascension at epoch [i] of the run of [calc_sat]
    on [inp] and [tle]: the second iteration works on the element set
    as the calls of the first one left it. *)
Definition run_ra `{SatCode} (inp : Inputs.t) (tle : tle_t) (i : nat)
  : float :=
  match i with
  | O => apparent_ra 0 (enter inp tle)
  | S _ => apparent_ra 1 (fst (apparent 0 (enter inp tle)))
  end.

(** [isfinite(x)]: neither a NaN nor an infinity. *)
Definition isfinite (x : float) : bool :=
  (neg_infinity <? x) && (x <? infinity).

(** ** The lines [calc_sat] writes to standard output *)

(** One call of [printf]: the format, without the newline that ends each
    format of [calc_sat], and the [double] arguments. *)
Inductive printed : Type :=
| Printf (format : String.string) (args : list float).

Definition header_format : String.string :=
  "RA (J2000) dec    Delta Radius   "%string.

Definition row_format : String.string := "%8.4f %8.4f %8.1f %5.2f"%string.

Definition is_header (p : printed) : bool :=
  let 'Printf format _ := p in String.eqb format header_format.

Definition is_row (p : printed) : bool :=
  let 'Printf format _ := p in String.eqb format row_format.

Section CalcSatIO.
Context `{SatCode}.

(** One iteration of the loop, lines 111-178, with the lines it prints
    in the order it prints them. *)
Definition epoch_body_io (fuel : nat) (i : nat) (f : frame)
  : option (frame * list printed) :=
  let inp := inputs f in
  let '(rho_cos_phi, rho_sin_phi) :=
    earth_lat_alt_to_parallax (Inputs.lat inp * PI / 180)
                              (Inputs.ht_in_meters inp) in
  let inp := Inputs.with_rho inp rho_cos_phi rho_sin_phi in
  let observer_loc :=
    observer_cartesian_coords (get2 (Inputs.jd inp) i)
      (Inputs.lon inp * PI / 180)
      (Inputs.rho_cos_phi inp) (Inputs.rho_sin_phi inp) in
  let out :=
    [Printf "inputs.target_ra %8.4f" [Inputs.target_ra inp];
     Printf "inputs.target_dec %8.4f" [Inputs.target_dec inp];
     Printf "inputs.jd[i] %8.4f" [get2 (Inputs.jd inp) i];
     Printf "lat in pi %8.4f" [Inputs.lat inp * PI / 180];
     Printf "ht_in_meters %8.4f" [Inputs.ht_in_meters inp];
     Printf "observer_loc %8.4f" [fst (fst observer_loc)];
     Printf "rho_cos_phi %8.4f" [Inputs.rho_cos_phi inp];
     Printf "rho_sin_phi %8.4f" [Inputs.rho_sin_phi inp]]%string in
  let '(is_deep, tle) := select_ephemeris (tle f) in
  let t_since := (get2 (Inputs.jd inp) i - epoch tle) * 1440 in
  let out :=
    out ++ [Printf "tle epoch %8.4f" [epoch tle];
            Printf "inputs jd %8.4f" [get2 (Inputs.jd inp) i];
            Printf "t_since %8.4f" [t_since]]%string in
  let '(_, pos, tle) := propagate is_deep t_since tle in
  let '(ra, dec, dist_to_satellite) :=
    get_satellite_ra_dec_delta observer_loc pos in
  let '(ra, dec) := epoch_of_date_to_j2000 (get2 (Inputs.jd inp) i) ra dec in
  let d_ra := ra - Inputs.target_ra inp + PI * 4 in
  let out := out ++ [Printf "d_ra %8.4f" [d_ra]]%string in
  d_ra ← wrap_d_ra fuel d_ra;
  let d_dec := dec - Inputs.target_dec inp in
  let radius := radius_of d_ra d_dec in
  let out := out ++ [Printf header_format []] in
  let inp := Inputs.with_header_line_shown inp 1 in
  let out :=
    out ++ [Printf row_format
              [ra * 180 / PI; dec * 180 / PI; dist_to_satellite; radius]] in
  if radius <? Inputs.search_radius inp then
    let '(inp, out) :=
      if (Inputs.header_line_shown inp =? 0)%Z
      then (Inputs.with_header_line_shown inp 1,
            out ++ [Printf header_format []])
      else (inp, out) in
    let ra := fmod (ra + PI * 10) (PI + PI) in
    let out :=
      out ++ [Printf row_format
                [ra * 180 / PI; dec * 180 / PI; dist_to_satellite; radius]] in
    let outputs :=
      Outputs.mk (set2 (Outputs.ra (outputs f)) i (ra * 180 / PI))
                 (set2 (Outputs.dec (outputs f)) i (dec * 180 / PI)) in
    Some (mk_frame inp tle outputs, out)
  else Some (mk_frame inp tle (outputs f), out).

(** [calc_sat] with what it prints: the target as given, in degrees,
    then the lines of the two iterations. *)
Definition calc_sat_io (fuel : nat) (inp : Inputs.t) (tle : tle_t)
  : option (Outputs.t * list printed) :=
  let out :=
    [Printf "inputs.target_ra %8.4f" [Inputs.target_ra inp];
     Printf "inputs.target_dec %8.4f" [Inputs.target_dec inp]]%string in
  '(f, out0) ← epoch_body_io fuel 0 (enter inp tle);
  '(f, out1) ← epoch_body_io fuel 1 f;
  Some (outputs f, out ++ out0 ++ out1).

End CalcSatIO.

(** ** The specification's wording *)

Module Spec.

(** "[offset_deg = sqrt(d_ra² + d_dec²) · 180/π]": the planar distance
    between the two directions, in degrees. *)
Definition planar_offset_deg (d_ra d_dec : float) : float :=
  let sq (x : float) := x * x in
  sqrt (sq d_ra + sq d_dec) * 180 / PI.

(** "repeatedly subtract [2π] while [d_ra > π]" *)
Inductive wraps : float -> float -> Prop :=
| wraps_stop d : (PI <? d) = false -> wraps d d
| wraps_step d d' :
    (PI <? d) = true -> wraps (d - (PI + PI)) d' -> wraps d d'.

(** Two requests that agree on the site, the epochs, the target and the
    radius; the scratch fields of [Inputs] are left free. *)
Definition same_request (a b : Inputs.t) : Prop :=
  Inputs.lat a = Inputs.lat b /\
  Inputs.lon a = Inputs.lon b /\
  Inputs.ht_in_meters a = Inputs.ht_in_meters b /\
  Inputs.jd a = Inputs.jd b /\
  Inputs.search_radius a = Inputs.search_radius b /\
  Inputs.target_ra a = Inputs.target_ra b /\
  Inputs.target_dec a = Inputs.target_dec b.

(** The two entries of a pair exchanged. *)
Definition swap2 (a : arr2) : arr2 := (snd a, fst a).

Definition swap_epochs (a : Inputs.t) : Inputs.t :=
  Inputs.with_jd a (swap2 (Inputs.jd a)).

Definition swap_slots (o : Outputs.t) : Outputs.t :=
  Outputs.mk (swap2 (Outputs.ra o)) (swap2 (Outputs.dec o)).

(** "lies in [0, 360)" and "lies in [-90, 90]", as comparisons of
    [double]. *)
Definition ra_in_range (x : float) : bool := (0 <=? x) && (x <? 360).
Definition dec_in_range (x : float) : bool := (-90 <=? x) && (x <=? 90).

End Spec.

(** ** The call *)

Module Call.

(** The objects a caller holds, by address. *)
Inductive object : Type :=
| OInputs (a : Inputs.t)
| OTle (t : tle_t).

(** A new object at an address the store does not use. *)
Definition alloc (σ : gmap positive object) (o : object)
  : positive * gmap positive object :=
  let l := fresh (dom σ) in (l, <[l := o]> σ).

(** [calc_sat(inputs, tle)] called on the caller's objects at [p_inputs]
    and [p_tle].  Both parameters are passed by value: each is copied
    into a new object, the body and the routines it hands [&tle] to work
    on the copies, and the copies end with the call. *)
Definition invoke `{SatCode} (fuel : nat) (σ : gmap positive object)
    (p_inputs p_tle : positive)
  : option (gmap positive object * Outputs.t) :=
  match σ !! p_inputs, σ !! p_tle with
  | Some (OInputs a), Some (OTle t) =>
      let '(l_inputs, σ) := alloc σ (OInputs a) in
      let '(l_tle, σ) := alloc σ (OTle t) in
      f ← calc_sat_frame fuel a t;
      let σ := <[l_inputs := OInputs (inputs f)]> σ in
      let σ := <[l_tle := OTle (tle f)]> σ in
      Some (delete l_tle (delete l_inputs σ), outputs f)
  | _, _ => None
  end.

End Call.

(** ** The accessors of the Python binding

    The members of [Inputs] and [Outputs] that copy a NumPy array in or
    out, and the accessors that [PYBIND11_MODULE] gives the [char]
    fields of [tle_t].  A [std::string] is the list of its [char]s,
    each a [Z] as in [tle_t]. *)

Module Binding.

(** How a call ends: it returns, it throws [runtime_error] with a
    message, or it reads or writes outside an array. *)
Inductive outcome (A : Type) : Type :=
| Returns (a : A)
| Throws (what : String.string)
| Undefined.
Arguments Returns {A} a.
Arguments Throws {A} what.
Arguments Undefined {A}.

#[global] Instance outcome_bind : MBind outcome := fun A B f x =>
  match x with
  | Returns a => f a
  | Throws what => Throws what
  | Undefined => Undefined
  end.

(** A [py::array_t<double>] argument as the member functions receive
    it.  The parameter type has no [c_style] flag, so pybind11 hands
    over an array of doubles as NumPy holds it, without making it
    contiguous: [buffer] is the memory that the array is a view of, in
    doubles, [data] the place in it that [data()] points to, which
    holds the first element, [size] the number of elements that
    [size()] returns, and [stride] the distance from one element to the
    next, in doubles.  The stride is 1 for a contiguous array, [k] for
    a slice [a[::k]], -1 for a reversed view and 0 for a broadcast
    value; it is a whole number of doubles, as for every view of an
    array of doubles.  An array of several dimensions counts with all
    its elements in [size]; the setters go on only when there are two,
    and a single stride places two elements.  (Any other argument is
    converted by pybind11 into a new contiguous array first.) *)
Record array_t : Type := mk_array {
  buffer : list float;
  data : nat;
  size : nat;
  stride : Z
}.

(** Element [k] of the array: the double at [data + k * stride] of the
    buffer, if there is one. *)
Definition element (a : array_t) (k : nat) : option float :=
  let z := (Z.of_nat (data a) + Z.of_nat k * stride a)%Z in
  if (z <? 0)%Z then None else buffer a !! Z.to_nat z.

(** The elements of the array, when all of them lie in the buffer. *)
Definition to_list (a : array_t) : option (list float) :=
  mapM (element a) (seq 0 (size a)).

(** [memcpy(dst, arr.data(), n * sizeof(double))] into a [double dst[2]]:
    the [n] doubles that lie in memory from [data()] on.  Undefined
    when [n] exceeds the two elements of [dst] or the copy reads past
    the end of the buffer. *)
Definition memcpy (dst : arr2) (arr : array_t) (n : nat) : outcome arr2 :=
  match n, drop (data arr) (buffer arr) with
  | 0%nat, _ => Returns dst
  | 1%nat, x :: _ => Returns (x, snd dst)
  | 2%nat, x :: y :: _ => Returns (x, y)
  | _, _ => Undefined
  end.

(** [py::array_t<double>(2, a)] for a [double a[2]]: a new contiguous
    array that holds a copy of the two elements. *)
Definition array_of (a : arr2) : array_t :=
  mk_array [fst a; snd a] 0 2 1.


(** [Inputs::get_jd_array] *)
Definition get_jd_array (self : Inputs.t) : array_t :=
  array_of (Inputs.jd self).

(** [Inputs::set_jd_array] *)
Definition set_jd_array (self : Inputs.t) (arr : array_t)
  : outcome Inputs.t :=
  if negb (size arr =? 2)%nat
  then Throws "Array must have exactly 2 elements"%string
  else jd ← memcpy (Inputs.jd self) arr 2;
       Returns (Inputs.with_jd self jd).






(** *** The [char] fields of [tle_t] *)

Definition with_classification (t : tle_t) (c : Z) : tle_t :=
  mk_tle (epoch t) (xndt2o t) (xndd6o t) (bstar t) (xincl t) (xnodeo t)
         (eo t) (omegao t) (xmo t) (xno t) (norad_number t)
         (bulletin_number t) (revolution_number t) c
         (ephemeris_type t) (intl_desig t).

Definition with_ephemeris_type (t : tle_t) (c : Z) : tle_t :=
  mk_tle (epoch t) (xndt2o t) (xndd6o t) (bstar t) (xincl t) (xnodeo t)
         (eo t) (omegao t) (xmo t) (xno t) (norad_number t)
         (bulletin_number t) (revolution_number t) (classification t)
         c (intl_desig t).

Definition with_intl_desig (t : tle_t) (d : list Z) : tle_t :=
  mk_tle (epoch t) (xndt2o t) (xndd6o t) (bstar t) (xincl t) (xnodeo t)
         (eo t) (omegao t) (xmo t) (xno t) (norad_number t)
         (bulletin_number t) (revolution_number t) (classification t)
         (ephemeris_type t) d.

(** [value[0]] of a [std::string]: its first character, and the null
    character when the string is empty. *)
Definition front (value : list Z) : Z :=
  match value with
  | c :: _ => c
  | [] => 0
  end.

(** The getter [string(1, t.classification)] and the setter
    [t.classification = value[0]]; the same for [ephemeris_type]. *)
Definition get_classification (t : tle_t) : list Z := [classification t].

Definition set_classification (t : tle_t) (value : list Z) : tle_t :=
  with_classification t (front value).

Definition get_ephemeris_type (t : tle_t) : list Z := [ephemeris_type t].

Definition set_ephemeris_type (t : tle_t) (value : list Z) : tle_t :=
  with_ephemeris_type t (front value).

(** [strncpy(dst, value.c_str(), n)]: what it writes to [dst[0..n)].
    These are the characters of [value] before its first null
    character, at most [n] of them, and null characters after them up
    to [n] in all; the end of [value] is the null character that
    [c_str()] puts there. *)
Fixpoint strncpy (value : list Z) (n : nat) {struct n} : list Z :=
  match n with
  | O => []
  | S n' =>
      match value with
      | c :: value' =>
          if (c =? 0)%Z then replicate n 0%Z else c :: strncpy value' n'
      | [] => replicate n 0%Z
      end
  end.

(** The getter [string(t.intl_desig, 9)] reads the nine characters of
    [char intl_desig[9]]. *)
Definition get_intl_desig (t : tle_t) : outcome (list Z) :=
  if (length (intl_desig t) <? 9)%nat then Undefined
  else Returns (take 9 (intl_desig t)).

(** The setter [strncpy(t.intl_desig, value.c_str(), 9);
    t.intl_desig[8] = '\0';] *)
Definition set_intl_desig (t : tle_t) (value : list Z) : outcome tle_t :=
  if (length (intl_desig t) <? 9)%nat then Undefined
  else
    let d := strncpy value 9 ++ drop 9 (intl_desig t) in
    Returns (with_intl_desig t (<[8%nat := 0%Z]> d)).

(** The C string a buffer holds: its characters before the first null
    character. *)
Fixpoint c_string (s : list Z) : list Z :=
  match s with
  | c :: s' => if (c =? 0)%Z then [] else c :: c_string s'
  | [] => []
  end.

(** A value cut at its first null character and at eight characters,
    with null characters after it up to nine in all. *)
Definition stored_desig (value : list Z) : list Z :=
  take 8 (c_string value)
  ++ replicate (9 - length (take 8 (c_string value))) 0%Z.

End Binding.

(** ** The propagator's status

    [with_status S st] is the library [S] with the value that [SGP4]
    and [SDP4] return replaced by [st]. *)
Definition with_status (S : SatCode) (st : Z) : SatCode := {|
  earth_lat_alt_to_parallax := @earth_lat_alt_to_parallax S;
  observer_cartesian_coords := @observer_cartesian_coords S;
  select_ephemeris := @select_ephemeris S;
  SGP4_init := @SGP4_init S;
  SGP4 ts t p := let '(_, pos, t') := @SGP4 S ts t p in (st, pos, t');
  SDP4_init := @SDP4_init S;
  SDP4 ts t p := let '(_, pos, t') := @SDP4 S ts t p in (st, pos, t');
  get_satellite_ra_dec_delta := @get_satellite_ra_dec_delta S;
  epoch_of_date_to_j2000 := @epoch_of_date_to_j2000 S
|}.

(** The pair stored for a matched epoch is a right ascension in
    [0, 360) and a declination in [-90, 90], whatever the transforms
    returned. *)
Definition matched_in_range : Prop :=
  forall (S : SatCode) (fuel : nat) (inp : Inputs.t) (t : tle_t)
         (out : Outputs.t) (i : nat) (f : frame) (ra dec radius : float),
    calc_sat fuel inp t = Some out -> (i < 2)%nat ->
    entry fuel i inp t = Some f ->
    epoch_view fuel i f = Some (ra, dec, radius) ->
    (radius <? Inputs.search_radius inp) = true ->
    Spec.ra_in_range (fst (Outputs.slot out i)) = true /\
    Spec.dec_in_range (snd (Outputs.slot out i)) = true.

(** A failure of the propagator in an iteration keeps [calc_sat] from
    returning a result. *)
Definition surfaces_failure : Prop :=
  forall (S : SatCode) (fuel : nat) (inp : Inputs.t) (t : tle_t)
         (i : nat) (f : frame),
    (i < 2)%nat -> entry fuel i inp t = Some f ->
    epoch_status i f <> 0%Z -> calc_sat fuel inp t = None.

(** ** A stand-in library for the examples

    The apparent position is [sky jd t_since]; the propagators report
    [status] and leave the element set as [touch] makes it. *)
Definition toy (sky : float -> float -> float * float) (status : Z)
    (touch : tle_t -> tle_t) : SatCode := {|
  earth_lat_alt_to_parallax lat ht := (lat, ht);
  observer_cartesian_coords jd lon c s := (jd, 0, 0);
  select_ephemeris t := (0%Z, t);
  SGP4_init t := ([], t);
  SGP4 ts t p := (status, (ts, 0, 0), touch t);
  SDP4_init t := ([], t);
  SDP4 ts t p := (status, (ts, 0, 0), touch t);
  get_satellite_ra_dec_delta obs pos :=
    let '(jd, _, _) := obs in
    let '(ts, _, _) := pos in
    (fst (sky jd ts), snd (sky jd ts), 1);
  epoch_of_date_to_j2000 jd ra dec := (ra, dec)
|}.

Definition tle0 : tle_t :=
  mk_tle 2452623 0 0 0 0 0 0 0 0 0 0 0 0 0 0 [].

(** One degree from the target of [Inputs.default] at the first epoch,
    forty degrees away at the second. *)
Definition sky_near_then_far (jd ts : float) : float * float :=
  if jd <? 2452623.55 then (91 * (PI / 180), 31 * (PI / 180))
  else (130 * (PI / 180), 30 * (PI / 180)).

(** The same apparent position at every epoch. *)
Definition sky_fixed (ra dec : float) (jd ts : float) : float * float :=
  (ra, dec).

(** Near the target of [Inputs.default] before the element set's epoch,
    forty degrees away after it. *)
Definition sky_by_elapsed (jd ts : float) : float * float :=
  if ts <? 0 then (91 * (PI / 180), 31 * (PI / 180))
  else (130 * (PI / 180), 30 * (PI / 180)).

(** The element set's epoch moved on by a day at each propagation. *)
Definition next_day (t : tle_t) : tle_t :=
  mk_tle (epoch t + 1) (xndt2o t) (xndd6o t) (bstar t) (xincl t) (xnodeo t)
         (eo t) (omegao t) (xmo t) (xno t) (norad_number t)
         (bulletin_number t) (revolution_number t) (classification t)
         (ephemeris_type t) (intl_desig t).

(** The library of the examples: the propagators report success and
    leave the element set alone. *)
Definition lib0 : SatCode := toy sky_near_then_far 0 id.

(** What [calc_sat] returns for [Inputs.default] with [lib0]. *)
Definition out0 : Outputs.t :=
  Outputs.mk (90.999999999999829, 0) (31, 0).

(** A caller's store: the request at address 1, the element set at 2. *)
Definition store0 : gmap positive Call.object :=
  <[2%positive := Call.OTle tle0]>
    (<[1%positive := Call.OInputs Inputs.default]> ∅).

(** An element set whose nine characters of [intl_desig] hold the
    designator 98067A, and whose classification is the letter U. *)
Definition tle1 : tle_t :=
  mk_tle 2452623 0 0 0 0 0 0 0 0 0 25544 0 0 85 48
         [57; 56; 48; 54; 55; 65; 32; 32; 0]%Z.

(** The lines [calc_sat] prints for [Inputs.default] with [lib0]. *)
Definition lines0 : list printed :=
  match @calc_sat_io lib0 5 Inputs.default tle0 with
  | Some (_, lines) => lines
  | None => []
  end.

(** ** Predicates on the specification of [double], for the proofs *)

Module F64.

#[local] Open Scope Z_scope.

(** A NaN, a zero, or a positive number. *)
Definition not_negative (x : spec_float) : Prop :=
  match x with
  | S754_nan | S754_zero _ => True
  | S754_infinity s | S754_finite s _ _ => s = false
  end.

(** [m] is the integer part of [N/D] and [l] tells where the rest lies
    with respect to one half. *)
Definition located (N D m : Z) (l : location) : Prop :=
  0 < D /\ m * D <= N < (m + 1) * D /\
  l = if N =? m * D then loc_Exact else loc_Inexact (2 * (N - m * D) ?= D).

(** A magnitude that is a binary64 number: [my * 2^ey] with [my] of at
    most 53 bits, and of exactly 53 above the least exponent. *)
Definition is_double_mag (my ey : Z) : Prop :=
  0 < my < 2 ^ 53 /\ -1074 <= ey <= 971 /\ (ey = -1074 \/ 2 ^ 52 <= my).

(** [r] is a zero or a finite number of sign [s] whose magnitude is at
    most [my * 2^ey]. *)
Definition mag_le (r : spec_float) (s : bool) (my ey : Z) : Prop :=
  r = S754_zero s \/
  exists m3 e3, r = S754_finite s m3 e3 /\
                (e3 < ey \/ (e3 = ey /\ Zpos m3 <= my)).

(** [r] is an infinity or a finite number of sign [s] whose magnitude is
    at least [my * 2^ey]. *)
Definition mag_ge (r : spec_float) (s : bool) (my ey : Z) : Prop :=
  r = S754_infinity s \/
  exists m3 e3, r = S754_finite s m3 e3 /\
                (ey < e3 \/ (e3 = ey /\ my <= Zpos m3)).

(** A zero or a finite number. *)
Definition finite_sf (x : spec_float) : Prop :=
  match x with
  | S754_zero _ | S754_finite _ _ _ => True
  | _ => False
  end.

(** A NaN, a zero, or a finite number of magnitude at most [2^k]. *)
Definition at_most_pow2 (k : Z) (x : spec_float) : Prop :=
  match x with
  | S754_nan | S754_zero _ => True
  | S754_infinity _ => False
  | S754_finite _ m e => e < k - 52 \/ (e = k - 52 /\ Zpos m <= 2 ^ 52)
  end.

(** A measure on the positive finite doubles that [<?] respects. *)
Definition rank (x : spec_float) : Z :=
  match x with
  | S754_finite false m e => (e + 1075) * 2 ^ 53 + Zpos m
  | _ => 0
  end.

End F64.
(** * Properties *)

(** ** The wrap loop *)

Lemma wrap_d_ra_more_fuel (n m : nat) (d r : float) :
  wrap_d_ra n d = Some r -> (n <= m)%nat -> wrap_d_ra m d = Some r.
Proof.
  revert m d. induction n as [|n IH]; intros m d; simpl.
  - destruct (PI <? d) eqn:E; [discriminate|].
    intros [= <-] _. destruct m; simpl; now rewrite E.
  - destruct (PI <? d) eqn:E.
    + intros Hr Hm. destruct m as [|m]; [lia|]. simpl. rewrite E.
      apply IH; [assumption|lia].
    + intros [= <-] _. destruct m; simpl; now rewrite E.
Qed.

Lemma wrap_d_ra_fuel_irrelevant (n m : nat) (d r r' : float) :
  wrap_d_ra n d = Some r -> wrap_d_ra m d = Some r' -> r = r'.
Proof.
  intros Hn Hm.
  apply (wrap_d_ra_more_fuel _ (Nat.max n m)) in Hn; [|lia].
  apply (wrap_d_ra_more_fuel _ (Nat.max n m)) in Hm; [|lia].
  congruence.
Qed.

Lemma wrap_d_ra_exit (n : nat) (d r : float) :
  wrap_d_ra n d = Some r -> (PI <? r) = false.
Proof.
  revert d. induction n as [|n IH]; intros d; simpl;
    destruct (PI <? d) eqn:E; try discriminate; eauto; now intros [= <-].
Qed.

Lemma wrap_d_ra_wraps (n : nat) (d r : float) :
  wrap_d_ra n d = Some r -> Spec.wraps d r.
Proof.
  revert d. induction n as [|n IH]; intros d; simpl;
    destruct (PI <? d) eqn:E; try discriminate.
  - intros [= <-]. now constructor.
  - intros Hr. apply Spec.wraps_step; auto.
  - intros [= <-]. now constructor.
Qed.

Lemma wraps_wrap_d_ra (d r : float) :
  Spec.wraps d r -> exists n, wrap_d_ra n d = Some r.
Proof.
  induction 1 as [d E|d d' E _ [n IH]].
  - exists O. simpl. now rewrite E.
  - exists (S n). simpl. now rewrite E.
Qed.

Lemma offset_deg_more_fuel (n m : nat) (ra dec tra tdec r : float) :
  offset_deg n ra dec tra tdec = Some r -> (n <= m)%nat ->
  offset_deg m ra dec tra tdec = Some r.
Proof.
  unfold offset_deg. intros Hn Hm.
  destruct (wrap_d_ra n _) as [d|] eqn:E; [|discriminate].
  now rewrite (wrap_d_ra_more_fuel _ _ _ _ E Hm).
Qed.

(** ** The frame through one iteration *)

Section Frames.
Context `{SatCode}.

Lemma apparent_keeps (i : nat) (f : frame) :
  request_of (inputs (fst (apparent i f))) = request_of (inputs f) /\
  outputs (fst (apparent i f)) = outputs f.
Proof.
  unfold apparent.
  destruct (earth_lat_alt_to_parallax _ _) as [c s].
  destruct (select_ephemeris _) as [d t]. 
  destruct (propagate _ _ _) as [[st pos] t'].
  destruct (get_satellite_ra_dec_delta _ _) as [[ra dec] dist].
  destruct (epoch_of_date_to_j2000 _ _ _) as [ra' dec'].
  now split.
Qed.

Lemma apparent_tle_const (i : nat) (f : frame) :
  tle_const -> tle (fst (apparent i f)) = tle f.
Proof.
  intros (Hsel & Hgi & Hdi & Hg & Hd). unfold apparent, propagate.
  destruct (earth_lat_alt_to_parallax _ _) as [c s].
  pose proof (Hsel (tle f)) as E1.
  destruct (select_ephemeris (tle f)) as [d t]. simpl in E1. subst t.
  destruct (d =? 0)%Z.
  - pose proof (Hgi (tle f)) as E2.
    destruct (SGP4_init (tle f)) as [p t]. simpl in E2. subst t.
    match goal with |- context [SGP4 ?a ?b ?c] =>
      pose proof (Hg a b c) as E3; destruct (SGP4 a b c) as [[st pos] t] end.
    simpl in E3. subst t.
    destruct (get_satellite_ra_dec_delta _ _) as [[ra dec] dist].
    now destruct (epoch_of_date_to_j2000 _ _ _).
  - pose proof (Hdi (tle f)) as E2.
    destruct (SDP4_init (tle f)) as [p t]. simpl in E2. subst t.
    match goal with |- context [SDP4 ?a ?b ?c] =>
      pose proof (Hd a b c) as E3; destruct (SDP4 a b c) as [[st pos] t] end.
    simpl in E3. subst t.
    destruct (get_satellite_ra_dec_delta _ _) as [[ra dec] dist].
    now destruct (epoch_of_date_to_j2000 _ _ _).
Qed.

(** What one iteration does to the frame, in terms of its view. *)
Lemma epoch_body_spec (fuel i : nat) (f f' : frame) :
  epoch_body fuel i f = Some f' ->
  exists ra dec radius,
    epoch_view fuel i f = Some (ra, dec, radius) /\
    request_of (inputs f') = request_of (inputs f) /\
    tle f' = tle (fst (apparent i f)) /\
    outputs f' =
      if radius <? Inputs.search_radius (inputs f)
      then Outputs.mk (set2 (Outputs.ra (outputs f)) i (matched_ra ra))
                      (set2 (Outputs.dec (outputs f)) i (matched_dec dec))
      else outputs f.
Proof.
  unfold epoch_body, epoch_view.
  destruct (apparent_keeps i f) as [Hreq Hout].
  destruct (apparent i f) as [g [[ra dec] dist]]. simpl in Hreq, Hout.
  destruct (offset_deg _ _ _ _ _) as [radius|]; [|discriminate].
  simpl. intros [= <-]. exists ra, dec, radius. split; [reflexivity|].
  assert (Hsr : Inputs.search_radius (inputs g) = Inputs.search_radius (inputs f)).
  { unfold request_of in Hreq. congruence. }
  unfold record_match. simpl. rewrite Hsr.
  destruct (radius <? _); simpl.
  - repeat split; try assumption. now rewrite Hout.
  - repeat split; assumption.
Qed.

Lemma epoch_body_total (fuel i : nat) (f : frame) (v : float * float * float) :
  epoch_view fuel i f = Some v -> exists f', epoch_body fuel i f = Some f'.
Proof.
  unfold epoch_body, epoch_view.
  destruct (apparent i f) as [g [[ra dec] dist]].
  destruct (offset_deg _ _ _ _ _) as [radius|]; [|discriminate].
  simpl. eauto.
Qed.

Lemma enter_request (inp : Inputs.t) (t : tle_t) :
  Inputs.search_radius (inputs (enter inp t)) = Inputs.search_radius inp /\
  Inputs.jd (inputs (enter inp t)) = Inputs.jd inp /\
  outputs (enter inp t) = Outputs.default /\
  tle (enter inp t) = t.
Proof. now unfold enter. Qed.

Lemma request_of_search_radius (a b : Inputs.t) :
  request_of a = request_of b -> Inputs.search_radius a = Inputs.search_radius b.
Proof. unfold request_of. congruence. Qed.

(** The pair reported for epoch [i], from the view of iteration [i]. *)
Lemma slot_of_result (fuel : nat) (inp : Inputs.t) (t : tle_t)
    (out : Outputs.t) (i : nat) :
  calc_sat fuel inp t = Some out -> (i < 2)%nat ->
  exists f ra dec radius,
    entry fuel i inp t = Some f /\
    epoch_view fuel i f = Some (ra, dec, radius) /\
    Outputs.slot out i =
      if radius <? Inputs.search_radius inp
      then (matched_ra ra, matched_dec dec)
      else (0, 0).
Proof.
  unfold calc_sat, calc_sat_frame. intros Hc Hi.
  destruct (epoch_body fuel 0 (enter inp t)) as [f1|] eqn:E0; [|discriminate].
  simpl in Hc.
  destruct (epoch_body fuel 1 f1) as [f2|] eqn:E1; [|discriminate].
  simpl in Hc. injection Hc as <-.
  destruct (epoch_body_spec _ _ _ _ E0) as (ra0 & dec0 & r0 & V0 & Q0 & _ & O0).
  destruct (epoch_body_spec _ _ _ _ E1) as (ra1 & dec1 & r1 & V1 & Q1 & _ & O1).
  apply request_of_search_radius in Q0.
  destruct (enter_request inp t) as (S0 & _ & D0 & _).
  rewrite S0 in *. rewrite Q0 in O1. rewrite D0 in O0.
  destruct i as [|[|i]]; [| |lia].
  - exists (enter inp t), ra0, dec0, r0. repeat split; try assumption.
    unfold Outputs.slot. rewrite O1, O0.
    destruct (r1 <? _), (r0 <? _); reflexivity.
  - exists f1, ra1, dec1, r1. repeat split; try assumption.
    unfold Outputs.slot. rewrite O1, O0.
    destruct (r1 <? _), (r0 <? _); reflexivity.
Qed.

(** The apparent position depends on the frame through the site, the
    epoch used and the element set only. *)
Lemma apparent_ext (i j : nat) (f g : frame) :
  Inputs.lat (inputs f) = Inputs.lat (inputs g) ->
  Inputs.lon (inputs f) = Inputs.lon (inputs g) ->
  Inputs.ht_in_meters (inputs f) = Inputs.ht_in_meters (inputs g) ->
  get2 (Inputs.jd (inputs f)) i = get2 (Inputs.jd (inputs g)) j ->
  tle f = tle g ->
  snd (apparent i f) = snd (apparent j g) /\
  tle (fst (apparent i f)) = tle (fst (apparent j g)).
Proof.
  intros Hlat Hlon Hht Hjd Htle. unfold apparent.
  rewrite Hlat, Hht, Htle.
  destruct (earth_lat_alt_to_parallax _ _) as [c s]. simpl.
  rewrite Hlon, Hjd.
  destruct (select_ephemeris _) as [d t].
  destruct (propagate _ _ _) as [[st pos] t'].
  destruct (get_satellite_ra_dec_delta _ _) as [[ra dec] dist].
  destruct (epoch_of_date_to_j2000 _ _ _) as [ra' dec'].
  now split.
Qed.

Lemma epoch_view_ext (n m i j : nat) (f g : frame) (v w : float * float * float) :
  Inputs.lat (inputs f) = Inputs.lat (inputs g) ->
  Inputs.lon (inputs f) = Inputs.lon (inputs g) ->
  Inputs.ht_in_meters (inputs f) = Inputs.ht_in_meters (inputs g) ->
  get2 (Inputs.jd (inputs f)) i = get2 (Inputs.jd (inputs g)) j ->
  Inputs.target_ra (inputs f) = Inputs.target_ra (inputs g) ->
  Inputs.target_dec (inputs f) = Inputs.target_dec (inputs g) ->
  tle f = tle g ->
  epoch_view n i f = Some v -> epoch_view m j g = Some w -> v = w.
Proof.
  intros Hlat Hlon Hht Hjd Hra Hdec Htle.
  destruct (apparent_ext i j f g Hlat Hlon Hht Hjd Htle) as [E _].
  destruct (apparent_keeps i f) as [Qf _].
  destruct (apparent_keeps j g) as [Qg _].
  unfold epoch_view.
  destruct (apparent i f) as [f1 [[ra dec] dist]].
  destruct (apparent j g) as [g1 [[ra' dec'] dist']].
  simpl in E, Qf, Qg. injection E as -> -> ->.
  unfold request_of in Qf, Qg.
  replace (Inputs.target_ra (inputs f1)) with (Inputs.target_ra (inputs g1)) by congruence.
  replace (Inputs.target_dec (inputs f1)) with (Inputs.target_dec (inputs g1)) by congruence.
  unfold offset_deg.
  destruct (wrap_d_ra n _) as [d|] eqn:En; [|discriminate].
  destruct (wrap_d_ra m _) as [d'|] eqn:Em; [|discriminate].
  simpl. intros [= <-] [= <-].
  now rewrite (wrap_d_ra_fuel_irrelevant _ _ _ _ _ En Em).
Qed.

Lemma same_request_fields (a b : Inputs.t) :
  Spec.same_request a b <-> request_of a = request_of b.
Proof.
  unfold Spec.same_request, request_of. split.
  - intros (-> & -> & -> & -> & -> & -> & ->). reflexivity.
  - intros [= -> -> -> -> -> -> ->]. repeat split.
Qed.

Lemma enter_same_request (a b : Inputs.t) (t : tle_t) :
  Spec.same_request a b ->
  request_of (inputs (enter a t)) = request_of (inputs (enter b t)).
Proof.
  intros (H1 & H2 & H3 & H4 & H5 & H6 & H7). unfold enter, request_of. simpl.
  now rewrite H1, H2, H3, H4, H5, H6, H7.
Qed.

(** Two iterations at the same index from frames that agree on the
    request, the element set and the result so far end in frames that
    agree on them again, whatever the fuel. *)
Lemma epoch_body_ext (n m i : nat) (f g f' g' : frame) :
  request_of (inputs f) = request_of (inputs g) ->
  tle f = tle g -> outputs f = outputs g ->
  epoch_body n i f = Some f' -> epoch_body m i g = Some g' ->
  request_of (inputs f') = request_of (inputs g') /\
  tle f' = tle g' /\ outputs f' = outputs g'.
Proof.
  intros Hreq Htle Hout Ef Eg.
  destruct (epoch_body_spec _ _ _ _ Ef) as (ra & dec & r & Vf & Qf & Tf & Of).
  destruct (epoch_body_spec _ _ _ _ Eg) as (ra' & dec' & r' & Vg & Qg & Tg & Og).
  pose proof Hreq as Hreq'. unfold request_of in Hreq'.
  injection Hreq' as Hlat Hlon Hht Hjd Hsr Hra Hdec.
  assert (Hjd' : get2 (Inputs.jd (inputs f)) i = get2 (Inputs.jd (inputs g)) i)
    by now rewrite Hjd.
  pose proof (epoch_view_ext _ _ _ _ _ _ _ _ Hlat Hlon Hht Hjd' Hra Hdec Htle Vf Vg) as E.
  injection E as <- <- <-.
  destruct (apparent_ext i i f g Hlat Hlon Hht Hjd' Htle) as [_ Et].
  repeat split; [congruence|congruence|].
  rewrite Of, Og, Hsr, Hout. reflexivity.
Qed.

(** Two runs on requests that agree return the same result, whatever
    the fuel. *)
Lemma same_request_same_result (n m : nat) (a b : Inputs.t) (t : tle_t)
    (out out' : Outputs.t) :
  Spec.same_request a b ->
  calc_sat n a t = Some out -> calc_sat m b t = Some out' -> out = out'.
Proof.
  unfold calc_sat, calc_sat_frame. intros Hab Ha Hb.
  destruct (epoch_body n 0 (enter a t)) as [f1|] eqn:Ef0; [|discriminate].
  destruct (epoch_body m 0 (enter b t)) as [g1|] eqn:Eg0; [|discriminate].
  simpl in Ha, Hb.
  destruct (epoch_body n 1 f1) as [f2|] eqn:Ef1; [|discriminate].
  destruct (epoch_body m 1 g1) as [g2|] eqn:Eg1; [|discriminate].
  simpl in Ha, Hb. injection Ha as <-. injection Hb as <-.
  destruct (epoch_body_ext _ _ _ _ _ _ _ (enter_same_request a b t Hab)
              eq_refl eq_refl Ef0 Eg0) as (Q1 & T1 & O1).
  now destruct (epoch_body_ext _ _ _ _ _ _ _ Q1 T1 O1 Ef1 Eg1) as (_ & _ & O2).
Qed.

Lemma epoch_view_eq (n i j : nat) (f g : frame) :
  Inputs.lat (inputs f) = Inputs.lat (inputs g) ->
  Inputs.lon (inputs f) = Inputs.lon (inputs g) ->
  Inputs.ht_in_meters (inputs f) = Inputs.ht_in_meters (inputs g) ->
  get2 (Inputs.jd (inputs f)) i = get2 (Inputs.jd (inputs g)) j ->
  Inputs.target_ra (inputs f) = Inputs.target_ra (inputs g) ->
  Inputs.target_dec (inputs f) = Inputs.target_dec (inputs g) ->
  tle f = tle g ->
  epoch_view n i f = epoch_view n j g.
Proof.
  intros Hlat Hlon Hht Hjd Hra Hdec Htle.
  destruct (apparent_ext i j f g Hlat Hlon Hht Hjd Htle) as [E _].
  destruct (apparent_keeps i f) as [Qf _].
  destruct (apparent_keeps j g) as [Qg _].
  unfold epoch_view.
  destruct (apparent i f) as [f1 [[ra dec] dist]].
  destruct (apparent j g) as [g1 [[ra' dec'] dist']].
  simpl in E, Qf, Qg. injection E as -> -> ->.
  unfold request_of in Qf, Qg.
  replace (Inputs.target_ra (inputs f1)) with (Inputs.target_ra (inputs g1)) by congruence.
  replace (Inputs.target_dec (inputs f1)) with (Inputs.target_dec (inputs g1)) by congruence.
  reflexivity.
Qed.

(** C7.  Provided the routines handed [&tle] do not write to it,
    exchanging [jd[0]] and [jd[1]] exchanges the two reported pairs:
    each pair is a function of its own epoch, and nothing an iteration
    leaves in the frame reaches the next one. *)
Theorem calc_sat_swap (fuel : nat) (inp : Inputs.t) (t : tle_t)
    (out : Outputs.t) :
  tle_const ->
  calc_sat fuel inp t = Some out ->
  calc_sat fuel (Spec.swap_epochs inp) t = Some (Spec.swap_slots out).
Proof.
  intros Hconst. unfold calc_sat, calc_sat_frame. intros Hc.
  destruct (epoch_body fuel 0 (enter inp t)) as [f1|] eqn:E0; [|discriminate].
  simpl in Hc.
  destruct (epoch_body fuel 1 f1) as [f2|] eqn:E1; [|discriminate].
  simpl in Hc. injection Hc as <-.
  destruct (epoch_body_spec _ _ _ _ E0) as (ra0 & dec0 & r0 & V0 & Q0 & T0 & O0).
  destruct (epoch_body_spec _ _ _ _ E1) as (ra1 & dec1 & r1 & V1 & Q1 & _ & O1).
  rewrite (apparent_tle_const _ _ Hconst) in T0. simpl in T0.
  pose proof Q0 as Q0'. unfold request_of in Q0'. simpl in Q0'.
  injection Q0' as Hlat Hlon Hht Hjd Hsr Hra Hdec.
  set (inp' := Spec.swap_epochs inp).
  assert (W0 : epoch_view fuel 0 (enter inp' t) = Some (ra1, dec1, r1)).
  { rewrite <- V1. apply epoch_view_eq; simpl; try congruence;
      try (rewrite Hjd; reflexivity). }
  destruct (epoch_body_total _ _ _ _ W0) as [g1 G0]. rewrite G0. simpl.
  destruct (epoch_body_spec _ _ _ _ G0) as (? & ? & ? & W0' & P0 & S0 & U0).
  rewrite W0 in W0'. injection W0' as <- <- <-.
  rewrite (apparent_tle_const _ _ Hconst) in S0. simpl in S0.
  pose proof P0 as P0'. unfold request_of in P0'. simpl in P0'.
  injection P0' as Glat Glon Ght Gjd Gsr Gra Gdec.
  assert (W1 : epoch_view fuel 1 g1 = Some (ra0, dec0, r0)).
  { rewrite <- V0. apply epoch_view_eq; simpl; try congruence;
      try (rewrite Gjd; reflexivity). }
  destruct (epoch_body_total _ _ _ _ W1) as [g2 G1]. rewrite G1. simpl.
  destruct (epoch_body_spec _ _ _ _ G1) as (? & ? & ? & W1' & _ & _ & U1).
  rewrite W1 in W1'. injection W1' as <- <- <-.
  f_equal. rewrite U1, U0, O1, O0, Gsr, Hsr. simpl.
  destruct (r0 <? Inputs.search_radius inp);
    destruct (r1 <? Inputs.search_radius inp); reflexivity.
Qed.

End Frames.

(** ** The propagator's status is dropped *)

Lemma apparent_with_status (S : SatCode) (st : Z) (i : nat) (f : frame) :
  @apparent (with_status S st) i f = @apparent S i f.
Proof.
  unfold apparent, propagate. simpl.
  destruct (earth_lat_alt_to_parallax _ _) as [c s].
  destruct (select_ephemeris _) as [d t].
  destruct (d =? 0)%Z.
  - destruct (SGP4_init t) as [p t1]. now destruct (SGP4 _ _ _) as [[z pos] t2].
  - destruct (SDP4_init t) as [p t1]. now destruct (SDP4 _ _ _) as [[z pos] t2].
Qed.

Lemma epoch_body_with_status (S : SatCode) (st : Z) (fuel i : nat) (f : frame) :
  @epoch_body (with_status S st) fuel i f = @epoch_body S fuel i f.
Proof. unfold epoch_body. now rewrite apparent_with_status. Qed.

(** C8, as the code has it.  The value that [SGP4] or [SDP4] returns
    does not reach the result: [calc_sat] returns the same [Outputs]
    whatever status the propagator reports at either epoch, and it has
    no other way to report one. *)
Theorem calc_sat_ignores_status (S : SatCode) (st : Z) (fuel : nat)
    (inp : Inputs.t) (t : tle_t) :
  @calc_sat (with_status S st) fuel inp t = @calc_sat S fuel inp t.
Proof.
  unfold calc_sat, calc_sat_frame. rewrite epoch_body_with_status.
  destruct (@epoch_body S fuel 0 (enter inp t)) as [f1|]; [|reflexivity].
  simpl. now rewrite epoch_body_with_status.
Qed.

(** C8, as stated, fails: a propagator that reports the failure -2 at
    both epochs, and [calc_sat] still returns a result, with a match at
    the first epoch. *)
Lemma failure_not_surfaced : ~ surfaces_failure.
Proof.
  intros Hs.
  specialize (Hs (toy sky_near_then_far (-2) id) 5%nat Inputs.default tle0
                 0%nat (enter Inputs.default tle0)).
  assert (E : @calc_sat (toy sky_near_then_far (-2) id) 5 Inputs.default tle0
              = None).
  { apply Hs; [lia|reflexivity|]. vm_compute. discriminate. }
  vm_compute in E. discriminate.
Qed.

(** ** The call leaves the caller's objects alone *)

Lemma alloc_fresh (σ : gmap positive Call.object) (o : Call.object) :
  σ !! fst (Call.alloc σ o) = None.
Proof.
  unfold Call.alloc. simpl. apply not_elem_of_dom, is_fresh.
Qed.

(** A call returns what [calc_sat] computes from the caller's two
    objects and leaves the store as it was. *)
Lemma invoke_spec `{SatCode} (fuel : nat)
    (σ σ' : gmap positive Call.object) (p_inputs p_tle : positive)
    (out : Outputs.t) :
  Call.invoke fuel σ p_inputs p_tle = Some (σ', out) ->
  σ' = σ /\
  exists a t, σ !! p_inputs = Some (Call.OInputs a) /\
              σ !! p_tle = Some (Call.OTle t) /\
              calc_sat fuel a t = Some out.
Proof.
  unfold Call.invoke, calc_sat.
  destruct (σ !! p_inputs) as [[a|]|] eqn:Ea; try discriminate.
  destruct (σ !! p_tle) as [[|t]|] eqn:Et; try discriminate.
  pose proof (alloc_fresh σ (Call.OInputs a)) as F1.
  destruct (Call.alloc σ (Call.OInputs a)) as [l1 σ1] eqn:A1.
  pose proof (alloc_fresh σ1 (Call.OTle t)) as F2.
  destruct (Call.alloc σ1 (Call.OTle t)) as [l2 σ2] eqn:A2.
  unfold Call.alloc in A1, A2. injection A1 as <- <-. injection A2 as <- <-.
  simpl in F1, F2.
  destruct (calc_sat_frame fuel a t) as [f|] eqn:Ef; [|discriminate].
  simpl. intros [= <- <-].
  set (l1 := fresh (dom σ)) in *.
  set (l2 := fresh (dom (<[l1:=Call.OInputs a]> σ))) in *.
  assert (Hne : l1 ≠ l2).
  { intros E. rewrite <- E, lookup_insert_eq in F2. discriminate. }
  assert (F2' : σ !! l2 = None).
  { rewrite lookup_insert_ne in F2; assumption. }
  assert (E : delete l2 (delete l1 (<[l2:=Call.OTle (tle f)]>
                (<[l1:=Call.OInputs (inputs f)]>
                  (<[l2:=Call.OTle t]> (<[l1:=Call.OInputs a]> σ))))) = σ).
  { apply map_eq. intros k.
    destruct (decide (k = l2)) as [->|N2].
    - now rewrite lookup_delete_eq.
    - rewrite lookup_delete_ne by congruence.
      destruct (decide (k = l1)) as [->|N1].
      + now rewrite lookup_delete_eq.
      + rewrite lookup_delete_ne by congruence.
        rewrite !lookup_insert_ne by congruence. reflexivity. }
  rewrite E. split; [reflexivity|].
  exists a, t. split; [reflexivity|]. split; [reflexivity|].
  now rewrite Ef.
Qed.

(** The copy the routines worked on can differ from the caller's
    element set when the call ends. *)
Lemma local_tle_may_change :
  tle <$> @calc_sat_frame (toy sky_near_then_far 0 next_day) 5
            Inputs.default tle0
  = Some (next_day (next_day tle0)).
Proof. vm_compute. reflexivity. Qed.

(** ** [fmod] on a few arguments, as the C library computes it *)

Lemma fmod_examples :
  fmod 7 3 = 1 /\ fmod (-7) 3 = -1 /\ fmod 7 (-3) = 1 /\
  fmod 0.5 3 = 0.5 /\ fmod 6 3 = 0 /\ fmod (-6) 3 = -0 /\
  fmod 1e300 (PI + PI) = 5.559758606652565 /\
  fmod 1 0 = nan /\ fmod infinity 3 = nan /\ fmod 3 infinity = 3.
Proof. repeat split; vm_compute; reflexivity. Qed.

(** ** Comparisons and signs of [double] *)

Module Sign.

Import F64.

Lemma SFcompare_antisym (x y : spec_float) :
  SFcompare y x = CompOpp <$> SFcompare x y.
Proof.
  destruct x as [sx|sx| |sx mx ex], y as [sy|sy| |sy my ey]; simpl;
    try reflexivity; try (destruct sx; reflexivity);
    try (destruct sy; reflexivity);
    try (destruct sx, sy; reflexivity).
  rewrite (Z.compare_antisym ey ex).
  replace (Pos.compare_cont Eq my mx) with (CompOpp (Pos.compare_cont Eq mx my))
    by apply (Pos.compare_cont_antisym mx my Eq).
  destruct sx, sy; simpl; try reflexivity;
    destruct (ey ?= ex)%Z; simpl; try reflexivity;
    destruct (Pos.compare_cont Eq mx my); reflexivity.
Qed.

(** Not below, and both are numbers: at least. *)
Lemma ltb_false_leb (x y : float) :
  (x <? y) = false -> (x =? x) = true -> (y =? y) = true -> (y <=? x) = true.
Proof.
  rewrite FloatAxioms.ltb_spec, FloatAxioms.leb_spec, !FloatAxioms.eqb_spec.
  unfold SFltb, SFleb, SFeqb. rewrite (SFcompare_antisym (Prim2SF x) (Prim2SF y)).
  destruct (Prim2SF x) as [sx|sx| |sx mx ex] eqn:Ex,
           (Prim2SF y) as [sy|sy| |sy my ey] eqn:Ey;
    try discriminate;
    match goal with |- context [SFcompare ?a ?b] =>
      destruct (SFcompare a b) as [[| |]|] eqn:E end;
    simpl in *; try discriminate; try reflexivity; intros; try discriminate.
Qed.

Lemma binary_round_aux_not_negative (m e : Z) (l : location) :
  not_negative (binary_round_aux prec emax false m e l).
Proof.
  unfold binary_round_aux.
  destruct (shr_fexp prec emax m e l) as [mrs' e'].
  destruct (shr_fexp prec emax _ e' loc_Exact) as [mrs'' e''].
  destruct (shr_m mrs''); simpl; auto.
  destruct (e'' <=? emax - prec)%Z; simpl; auto.
Qed.

Lemma SFsqrt_not_negative (x : spec_float) :
  not_negative (SFsqrt prec emax x).
Proof.
  destruct x as [s|[|]| |[|] m e]; simpl; auto.
  destruct (SFsqrt_core_binary _ _ _ _) as [[mz ez] lz].
  apply binary_round_aux_not_negative.
Qed.

Lemma SFmul_not_negative (x : spec_float) (m : positive) (e : Z) :
  not_negative x -> not_negative (SFmul prec emax x (S754_finite false m e)).
Proof.
  destruct x as [sx|sx| |sx mx ex]; simpl; intros Hx; subst; simpl; auto.
  apply binary_round_aux_not_negative.
Qed.

Lemma SFdiv_not_negative (x : spec_float) (m : positive) (e : Z) :
  not_negative x -> not_negative (SFdiv prec emax x (S754_finite false m e)).
Proof.
  destruct x as [sx|sx| |sx mx ex]; simpl; intros Hx; subst; simpl; auto.
  destruct (SFdiv_core_binary _ _ _ _ _ _) as [[mz ez] lz].
  apply binary_round_aux_not_negative.
Qed.

(** Nothing that is not negative is below something that is at most
    zero. *)
Lemma not_negative_not_below (x y : spec_float) :
  not_negative x -> SFleb y (S754_zero false) = true -> SFltb x y = false.
Proof.
  unfold SFleb, SFltb.
  destruct x as [sx|sx| |sx mx ex], y as [sy|sy| |sy my ey]; simpl;
    intros Hx Hy; subst; try reflexivity; try discriminate;
    try (destruct sy; try reflexivity; discriminate).
Qed.

End Sign.

Lemma PI_spec : Prim2SF PI = S754_finite false 7074237752028440 (-51).
Proof. reflexivity. Qed.

Lemma radius_of_not_negative (d_ra d_dec : float) :
  F64.not_negative (Prim2SF (radius_of d_ra d_dec)).
Proof.
  unfold radius_of. rewrite div_spec, mul_spec, sqrt_spec, add_spec, !mul_spec.
  rewrite PI_spec. change (Prim2SF 180) with (S754_finite false 6333186975989760 (-45)).
  apply Sign.SFdiv_not_negative, Sign.SFmul_not_negative, Sign.SFsqrt_not_negative.
Qed.

Lemma radius_of_not_below (d_ra d_dec r : float) :
  (r <=? 0) = true -> (radius_of d_ra d_dec <? r) = false.
Proof.
  rewrite FloatAxioms.leb_spec, FloatAxioms.ltb_spec. intros Hr.
  apply Sign.not_negative_not_below; [apply radius_of_not_negative|exact Hr].
Qed.


(** ** The offset *)

Lemma epoch_view_offset `{SatCode} (fuel i : nat) (f : frame)
    (ra dec radius : float) :
  epoch_view fuel i f = Some (ra, dec, radius) ->
  exists g d_ra,
    apparent i f = (g, (ra, dec, snd (snd (apparent i f)))) /\
    wrap_d_ra fuel (ra - Inputs.target_ra (inputs g) + PI * 4) = Some d_ra /\
    radius = radius_of d_ra (dec - Inputs.target_dec (inputs g)).
Proof.
  unfold epoch_view. destruct (apparent i f) as [g [[ra' dec'] dist]].
  unfold offset_deg. destruct (wrap_d_ra _ _) as [d|] eqn:E; [|discriminate].
  simpl. intros [= <- <- <-]. exists g, d. auto.
Qed.

(** The slot of a result in terms of the wrapped difference: what
    iteration [i] of [calc_sat] computes from the apparent position and
    the target in radians, and what it stores. *)
Lemma slot_of_result_offset `{SatCode} (fuel : nat) (inp : Inputs.t)
    (t : tle_t) (out : Outputs.t) (i : nat) :
  calc_sat fuel inp t = Some out -> (i < 2)%nat ->
  exists f ra dec dist d_ra,
    entry fuel i inp t = Some f /\
    snd (apparent i f) = (ra, dec, dist) /\
    wrap_d_ra fuel (ra - Inputs.target_ra inp * (PI / 180) + PI * 4)
    = Some d_ra /\
    Outputs.slot out i =
      if radius_of d_ra (dec - Inputs.target_dec inp * (PI / 180))
         <? Inputs.search_radius inp
      then (matched_ra ra, matched_dec dec)
      else (0, 0).
Proof.
  intros Hc Hi.
  destruct (slot_of_result _ _ _ _ i Hc Hi) as (f & ra & dec & r & Ef & Vf & Sf).
  destruct (epoch_view_offset _ _ _ _ _ _ Vf) as (g & d & Ha & Hw & ->).
  destruct (apparent_keeps i f) as [Q _]. rewrite Ha in Q. simpl in Q.
  assert (Qe : request_of (inputs f) = request_of (inputs (enter inp t))).
  { destruct i as [|i]; simpl in Ef.
    - now injection Ef as <-.
    - now destruct (epoch_body_spec _ _ _ _ Ef) as (_ & _ & _ & _ & Qe & _). }
  rewrite Qe in Q. unfold request_of, enter in Q. simpl in Q.
  injection Q as _ _ _ _ _ Qra Qdec. rewrite Qra in Hw. rewrite Qdec in Sf.
  exists f, ra, dec, (snd (snd (apparent i f))), d.
  split; [exact Ef|]. split; [now rewrite Ha|]. split; [exact Hw|exact Sf].
Qed.

(** C3.  What [calc_sat] reports for an epoch is decided by the planar
    distance of the specification, [sqrt (d_ra² + d_dec²) · 180/π],
    taken on the wrapped difference of right ascension and on
    [d_dec = dec - target_dec] as it is: the slot holds the matched
    pair when that distance is below the search radius and (0, 0)
    otherwise.  The declinations enter through their difference only,
    with no factor that depends on the declination itself: two
    directions at declination 89 degrees, 180 degrees apart in right
    ascension, are 2 degrees apart on the sphere, and [calc_sat]
    reports no match for them with a search radius of 10 degrees, nor
    of 180, and a match with one of 181. *)
Theorem offset_is_planar :
  (forall (S : SatCode) (fuel : nat) (inp : Inputs.t) (t : tle_t)
          (out : Outputs.t) (i : nat),
     calc_sat fuel inp t = Some out -> (i < 2)%nat ->
     exists f ra dec dist d_ra,
       entry fuel i inp t = Some f /\
       snd (apparent i f) = (ra, dec, dist) /\
       Spec.wraps (ra - Inputs.target_ra inp * (PI / 180) + PI * 4) d_ra /\
       let d_dec := dec - Inputs.target_dec inp * (PI / 180) in
       Outputs.slot out i =
         if Spec.planar_offset_deg d_ra d_dec <? Inputs.search_radius inp
         then (matched_ra ra, matched_dec dec)
         else (0, 0)) /\
  (@calc_sat (toy (sky_fixed 0 (89 * (PI / 180))) 0 id) 3
      (Inputs.with_target Inputs.default 180 89) tle0
   = Some Outputs.default /\
   @calc_sat (toy (sky_fixed 0 (89 * (PI / 180))) 0 id) 3
      (Inputs.with_search_radius (Inputs.with_target Inputs.default 180 89) 180)
      tle0
   = Some Outputs.default /\
   @calc_sat (toy (sky_fixed 0 (89 * (PI / 180))) 0 id) 3
      (Inputs.with_search_radius (Inputs.with_target Inputs.default 180 89) 181)
      tle0
   = Some (Outputs.mk (0, 0) (89, 89))).
Proof.
  split.
  - intros S fuel inp t out i Hc Hi.
    destruct (slot_of_result_offset _ _ _ _ _ Hc Hi)
      as (f & ra & dec & dist & d & Ef & Ha & Hw & Hs).
    exists f, ra, dec, dist, d. split; [exact Ef|]. split; [exact Ha|].
    split; [exact (wrap_d_ra_wraps _ _ _ Hw)|exact Hs].
  - repeat split; vm_compute; reflexivity.
Qed.

(** The planar distance near the pole: two directions at declination
    89 degrees, 180 degrees apart in right ascension, are 2 degrees
    apart on the sphere and 180 degrees apart for [calc_sat]. *)
Lemma planar_near_pole :
  @epoch_view (toy (sky_fixed 0 (89 * (PI / 180))) 0 id) 1 0
     (enter (Inputs.with_target Inputs.default 180 89) tle0)
  = Some (0, 89 * (PI / 180), 180).
Proof. vm_compute. reflexivity. Qed.

(** ** The wrap of the difference in right ascension *)

(** C2.  In each iteration of [calc_sat] the difference
    [ra - target_ra + 4 PI] is reduced by subtracting [2 PI] while it
    exceeds [PI], and the reduced value decides what the slot holds: it
    is not above [PI] (and is at most [PI] when it is a number).
    Nothing bounds it from below: with an apparent right ascension of
    10 degrees and a target at 1156 degrees, which is the direction of
    76 degrees, it stays under [-PI], and [calc_sat] reports no match
    within 100 degrees, whereas it reports one for the targets at 796
    and at 76 degrees.  Across the seam, a target at 1 degree and an
    apparent position at 359 degrees are 2 degrees apart: [calc_sat]
    reports a match with a search radius just above 2 degrees and none
    with one just below. *)
Theorem wrap_bounds_above_only :
  (forall (S : SatCode) (fuel : nat) (inp : Inputs.t) (t : tle_t)
          (out : Outputs.t) (i : nat),
     calc_sat fuel inp t = Some out -> (i < 2)%nat ->
     exists f ra dec dist d_ra,
       entry fuel i inp t = Some f /\
       snd (apparent i f) = (ra, dec, dist) /\
       Spec.wraps (ra - Inputs.target_ra inp * (PI / 180) + PI * 4) d_ra /\
       (PI <? d_ra) = false /\
       ((d_ra =? d_ra) = true -> (d_ra <=? PI) = true) /\
       Outputs.slot out i =
         if radius_of d_ra (dec - Inputs.target_dec inp * (PI / 180))
            <? Inputs.search_radius inp
         then (matched_ra ra, matched_dec dec)
         else (0, 0)) /\
  (exists d_ra,
     Spec.wraps (10 * (PI / 180) - 1156 * (PI / 180) + PI * 4) d_ra /\
     (d_ra <? - PI) = true /\
     @calc_sat (toy (sky_fixed (10 * (PI / 180)) (30 * (PI / 180))) 0 id) 3
        (Inputs.with_search_radius (Inputs.with_target Inputs.default 1156 30) 100)
        tle0
     = Some Outputs.default /\
     @calc_sat (toy (sky_fixed (10 * (PI / 180)) (30 * (PI / 180))) 0 id) 3
        (Inputs.with_search_radius (Inputs.with_target Inputs.default 796 30) 100)
        tle0
     = Some (Outputs.mk (9.9999999999999893, 9.9999999999999893)
                        (29.999999999999996, 29.999999999999996)) /\
     @calc_sat (toy (sky_fixed (10 * (PI / 180)) (30 * (PI / 180))) 0 id) 3
        (Inputs.with_search_radius (Inputs.with_target Inputs.default 76 30) 100)
        tle0
     = Some (Outputs.mk (9.9999999999999893, 9.9999999999999893)
                        (29.999999999999996, 29.999999999999996))) /\
  (@calc_sat (toy (sky_fixed (359 * (PI / 180)) (30 * (PI / 180))) 0 id) 3
      (Inputs.with_search_radius (Inputs.with_target Inputs.default 1 30)
         2.000000001) tle0
   = Some (Outputs.mk (358.99999999999983, 358.99999999999983)
                      (29.999999999999996, 29.999999999999996)) /\
   @calc_sat (toy (sky_fixed (359 * (PI / 180)) (30 * (PI / 180))) 0 id) 3
      (Inputs.with_search_radius (Inputs.with_target Inputs.default 1 30)
         1.999999999) tle0
   = Some Outputs.default).
Proof.
  split; [|split].
  - intros S fuel inp t out i Hc Hi.
    destruct (slot_of_result_offset _ _ _ _ _ Hc Hi)
      as (f & ra & dec & dist & d & Ef & Ha & Hw & Hs).
    exists f, ra, dec, dist, d. split; [exact Ef|]. split; [exact Ha|].
    pose proof (wrap_d_ra_exit _ _ _ Hw) as Hx.
    split; [exact (wrap_d_ra_wraps _ _ _ Hw)|]. split; [exact Hx|].
    split; [|exact Hs].
    intros Hd. apply Sign.ltb_false_leb; auto.
  - exists (-7.4351026134958431). split; [|repeat split; vm_compute; reflexivity].
    apply (wrap_d_ra_wraps 0). vm_compute. reflexivity.
  - split; vm_compute; reflexivity.
Qed.

(** ** The wrap loop can fail to end *)

Lemma wrap_d_ra_fixed_point (d : float) :
  (PI <? d) = true -> d - (PI + PI) = d ->
  forall fuel, wrap_d_ra fuel d = None.
Proof.
  intros Hd Hs fuel. induction fuel as [|n IH]; cbn [wrap_d_ra]; rewrite Hd;
    [reflexivity|].
  now rewrite Hs.
Qed.

Lemma epoch_body_out_of_fuel `{SatCode} (fuel i : nat) (f : frame) :
  wrap_d_ra fuel (d_ra_entry i f) = None -> epoch_body fuel i f = None.
Proof.
  unfold d_ra_entry, epoch_body, offset_deg.
  destruct (apparent i f) as [g [[ra dec] dist]]. now intros ->.
Qed.

(** C10, at a finite input.  With the target right ascension at -1e20
    degrees and an apparent right ascension of 1 radian, [d_ra] enters
    the loop at about 1.7e18, where the spacing of [double] is 256:
    [d_ra - (PI + PI)] rounds back to [d_ra], the loop makes no
    progress, and [calc_sat] returns for no number of iterations. *)
Theorem calc_sat_hangs (fuel : nat) :
  @calc_sat (toy (sky_fixed 1 0) 0 id) fuel
     (Inputs.with_target Inputs.default (-1e20) 0) tle0 = None.
Proof.
  unfold calc_sat, calc_sat_frame.
  rewrite epoch_body_out_of_fuel; [reflexivity|].
  apply wrap_d_ra_fixed_point; vm_compute; reflexivity.
Qed.

(** ** Rounding to nearest in binary64

    What [binary_round_aux] returns, compared with a given [double]:
    the magnitude [N/D * 2^e] being rounded is described by its integer
    part [m] and the location [l] of the rest. *)

Module Round.

#[local] Open Scope Z_scope.
Import F64.

#[local] Abbreviation fexp := (SpecFloat.fexp prec emax).

Lemma fexp_eq (e : Z) : fexp e = Z.max (e - 53) (-1074).
Proof. reflexivity. Qed.

Lemma digits2_pos_bounds (p : positive) :
  2 ^ (Zpos (digits2_pos p) - 1) <= Zpos p < 2 ^ Zpos (digits2_pos p).
Proof.
  induction p as [p IH|p IH|]; simpl digits2_pos.
  - rewrite Pos2Z.inj_succ.
    replace (Z.succ (Zpos (digits2_pos p)) - 1) with (Z.succ (Zpos (digits2_pos p) - 1)) by lia.
    rewrite !Z.pow_succ_r by lia. lia.
  - rewrite Pos2Z.inj_succ.
    replace (Z.succ (Zpos (digits2_pos p)) - 1) with (Z.succ (Zpos (digits2_pos p) - 1)) by lia.
    rewrite !Z.pow_succ_r by lia. lia.
  - simpl. lia.
Qed.

Lemma Zdigits2_bounds (m : Z) :
  0 < m -> 2 ^ (Zdigits2 m - 1) <= m < 2 ^ Zdigits2 m.
Proof. destruct m as [|p|p]; try lia. intros _. apply digits2_pos_bounds. Qed.

Lemma Zdigits2_nonneg (m : Z) : 0 <= Zdigits2 m.
Proof. destruct m; simpl; lia. Qed.

Lemma Zdigits2_le (m k : Z) : 0 <= k -> 0 <= m < 2 ^ k -> Zdigits2 m <= k.
Proof.
  intros Hk [H0 Hm]. destruct (Z.eq_dec m 0) as [->|Hne]; [simpl; lia|].
  destruct (Zdigits2_bounds m ltac:(lia)) as [Hlo _].
  destruct (Z_lt_le_dec k (Zdigits2 m)) as [Hlt|]; [|assumption].
  assert (2 ^ k <= 2 ^ (Zdigits2 m - 1)) by (apply Z.pow_le_mono_r; lia).
  lia.
Qed.

Lemma Zdigits2_ge (m k : Z) : 0 <= k -> 2 ^ k <= m -> k + 1 <= Zdigits2 m.
Proof.
  intros Hk Hm. assert (0 < m) by (pose proof (Z.pow_pos_nonneg 2 k); lia).
  destruct (Zdigits2_bounds m ltac:(lia)) as [_ Hhi].
  destruct (Z_lt_le_dec (Zdigits2 m) (k + 1)) as [Hlt|]; [|assumption].
  assert (2 ^ Zdigits2 m <= 2 ^ k)
    by (apply Z.pow_le_mono_r; pose proof (Zdigits2_nonneg m); lia).
  lia.
Qed.

Lemma record_of_loc (m : Z) (l : location) :
  shr_m (shr_record_of_loc m l) = m /\
  loc_of_shr_record (shr_record_of_loc m l) = l.
Proof. destruct l as [|[| |]]; split; reflexivity. Qed.

Lemma shr_1_located (N D : Z) (mrs : shr_record) :
  0 <= shr_m mrs ->
  located N D (shr_m mrs) (loc_of_shr_record mrs) ->
  0 <= shr_m (shr_1 mrs) /\
  located N (2 * D) (shr_m (shr_1 mrs)) (loc_of_shr_record (shr_1 mrs)).
Proof.
  destruct mrs as [m r s]. unfold located. simpl shr_m.
  intros Hm (HD & HN & Hl).
  destruct (Z.eqb_spec N (m * D)) as [E|E];
    destruct (Z.compare_spec (2 * (N - m * D)) D) as [C|C|C];
    destruct r, s; simpl in Hl; try discriminate;
    destruct m as [|[p|p|]|p]; try lia; simpl;
    (split; [lia|]); (split; [lia|]); (split; [lia|]);
    repeat match goal with
    | |- context [?a =? ?b] => destruct (Z.eqb_spec a b); try lia
    | |- context [?a ?= ?b] => destruct (Z.compare_spec a b); try lia
    end; reflexivity.
Qed.

Lemma pow2_xO (p : positive) : 2 ^ Zpos p~0 = 2 ^ Zpos p * 2 ^ Zpos p.
Proof.
  replace (Zpos p~0) with (Zpos p + Zpos p) by lia.
  apply Z.pow_add_r; lia.
Qed.

Lemma pow2_xI (p : positive) : 2 ^ Zpos p~1 = 2 * (2 ^ Zpos p * 2 ^ Zpos p).
Proof.
  replace (Zpos p~1) with (Z.succ (Zpos p + Zpos p)) by lia.
  rewrite Z.pow_succ_r, Z.pow_add_r by lia. reflexivity.
Qed.

Lemma iter_shr_1_located (p : positive) :
  forall (N D : Z) (mrs : shr_record),
    0 <= shr_m mrs ->
    located N D (shr_m mrs) (loc_of_shr_record mrs) ->
    0 <= shr_m (SpecFloat.iter_pos shr_1 p mrs) /\
    located N (2 ^ Zpos p * D) (shr_m (SpecFloat.iter_pos shr_1 p mrs))
            (loc_of_shr_record (SpecFloat.iter_pos shr_1 p mrs)).
Proof.
  induction p as [p IH|p IH|]; intros N D mrs Hm Hl; simpl SpecFloat.iter_pos.
  - destruct (shr_1_located N D mrs Hm Hl) as [H1 L1].
    destruct (IH _ _ _ H1 L1) as [H2 L2].
    destruct (IH _ _ _ H2 L2) as [H3 L3]. split; [assumption|].
    replace (2 ^ Zpos p~1 * D) with (2 ^ Zpos p * (2 ^ Zpos p * (2 * D))); [assumption|].
    rewrite pow2_xI. ring.
  - destruct (IH _ _ _ Hm Hl) as [H2 L2].
    destruct (IH _ _ _ H2 L2) as [H3 L3]. split; [assumption|].
    replace (2 ^ Zpos p~0 * D) with (2 ^ Zpos p * (2 ^ Zpos p * D)); [assumption|].
    rewrite pow2_xO. ring.
  - apply shr_1_located; assumption.
Qed.

(** The first shift of [binary_round_aux]: to the exponent the format
    gives a number of this size. *)
Lemma shr_located (N D m e n : Z) (l : location) :
  0 <= m -> located N D m l -> 0 <= n ->
  exists mrs,
    shr (shr_record_of_loc m l) e n = (mrs, e + n) /\ 0 <= shr_m mrs /\
    located N (2 ^ n * D) (shr_m mrs) (loc_of_shr_record mrs).
Proof.
  intros Hm Hl Hn. destruct (record_of_loc m l) as [Em El].
  destruct n as [|p|p]; try lia.
  - exists (shr_record_of_loc m l). rewrite Em, El, Z.add_0_r.
    split; [reflexivity|]. split; [assumption|].
    now rewrite Z.pow_0_r, Z.mul_1_l.
  - exists (SpecFloat.iter_pos shr_1 p (shr_record_of_loc m l)).
    split; [reflexivity|]. apply iter_shr_1_located; rewrite ?Em, ?El; assumption.
Qed.

(** Rounding to nearest: up by at most one, and not up below one half. *)
Lemma round_nearest_even_located (N D m : Z) (l : location) :
  located N D m l ->
  m <= round_nearest_even m l <= m + 1 /\
  (2 * (N - m * D) < D -> round_nearest_even m l = m).
Proof.
  intros (HD & HN & ->).
  destruct (Z.eqb_spec N (m * D)); simpl; [lia|].
  destruct (Z.compare_spec (2 * (N - m * D)) D); simpl;
    try destruct (Z.even m); lia.
Qed.

Lemma round_nearest_even_up (N D m : Z) (l : location) :
  located N D m l -> D < 2 * (N - m * D) -> round_nearest_even m l = m + 1.
Proof.
  intros (HD & HN & ->) Hup.
  destruct (Z.eqb_spec N (m * D)); simpl; [lia|].
  destruct (Z.compare_spec (2 * (N - m * D)) D); simpl; lia.
Qed.

(** The second shift of [binary_round_aux] does nothing unless the
    rounding carried into a 54th bit. *)
Lemma shr_fexp_small (m e : Z) :
  0 <= m < 2 ^ 53 -> -1074 <= e ->
  shr_fexp prec emax m e loc_Exact = (Build_shr_record m false false, e).
Proof.
  intros Hm He. unfold shr_fexp.
  pose proof (Zdigits2_le m 53 ltac:(lia) Hm) as Hd.
  assert (Hk : fexp (Zdigits2 m + e) - e <= 0) by (rewrite fexp_eq; lia).
  destruct (fexp (Zdigits2 m + e) - e) as [|p|p]; try lia; reflexivity.
Qed.

Lemma shr_fexp_carry (e : Z) :
  -1074 <= e ->
  shr_fexp prec emax (2 ^ 53) e loc_Exact
  = (Build_shr_record (2 ^ 52) false false, e + 1).
Proof.
  intros He. unfold shr_fexp.
  change (Zdigits2 (2 ^ 53)) with 54.
  replace (fexp (54 + e) - e) with 1 by (rewrite fexp_eq; lia).
  reflexivity.
Qed.

Lemma finish_le (s : bool) (m2 e1 my ey : Z) :
  0 <= m2 -> -1074 <= e1 -> is_double_mag my ey ->
  (e1 = ey /\ m2 <= my) \/ (e1 < ey /\ m2 <= 2 ^ 53) ->
  mag_le (let '(mrs, e) := shr_fexp prec emax m2 e1 loc_Exact in
          match shr_m mrs with
          | Z0 => S754_zero s
          | Zpos m => if e <=? emax - prec then S754_finite s m e
                      else S754_infinity s
          | Zneg _ => S754_nan
          end) s my ey.
Proof.
  intros H2 H1 (Hmy & Hey & Hnorm) Hcase.
  change (emax - prec) with 971.
  destruct (Z.eq_dec m2 (2 ^ 53)) as [->|Hne].
  - rewrite shr_fexp_carry by assumption. simpl shr_m.
    destruct Hcase as [[-> Hle]|[Hlt _]]; [lia|].
    change (2 ^ 52) with (Zpos (2 ^ 52)%positive) at 1. cbv iota.
    destruct (Z.leb_spec (e1 + 1) 971); [|lia].
    right. exists (2 ^ 52)%positive, (e1 + 1). split; [reflexivity|].
    destruct (Z.eq_dec (e1 + 1) ey); [right|left; lia].
    split; [assumption|]. change (Zpos (2 ^ 52)) with (2 ^ 52). lia.
  - rewrite shr_fexp_small by lia. simpl shr_m.
    destruct m2 as [|p|p]; [now left| |lia].
    destruct (Z.leb_spec e1 971); [|lia].
    right. exists p, e1. split; [reflexivity|]. lia.
Qed.

(** *** Arithmetic of the cases *)

Lemma shifted_lt (K P D N m m1 : Z) :
  0 < D -> 0 < P -> N < (m + 1) * D -> m1 * (P * D) <= N -> m + 1 <= K * P ->
  m1 < K.
Proof.
  intros HD HP HN HN1 HK.
  destruct (Z_lt_le_dec m1 K) as [|Hge]; [assumption|exfalso].
  assert (K * (P * D) <= m1 * (P * D)) by (apply Z.mul_le_mono_nonneg_r; nia).
  assert ((m + 1) * D <= K * P * D) by (apply Z.mul_le_mono_nonneg_r; lia).
  lia.
Qed.

Lemma above_exponent_absurd (T P A B D N my : Z) :
  0 < D -> 0 < A -> 0 < B -> 0 < P -> 0 < T ->
  2 * B <= P * A -> T * P * D <= N -> 2 * my + 1 < 4 * T ->
  2 * N * A < D * (2 * my + 1) * B -> False.
Proof.
  intros HD HA HB HP HT Hstep HN Hmy Hlt.
  assert (H1 : T * P * D * A <= N * A) by (apply Z.mul_le_mono_nonneg_r; lia).
  assert (H2 : (T * D) * (2 * B) <= (T * D) * (P * A))
    by (apply Z.mul_le_mono_nonneg_l; nia).
  assert (H3 : D * (2 * my + 1) * B < 4 * T * (D * B)).
  { replace (D * (2 * my + 1) * B) with ((2 * my + 1) * (D * B)) by ring.
    apply Z.mul_lt_mono_pos_r; nia. }
  lia.
Qed.

Lemma at_exponent_le (P A D N m1 my : Z) :
  0 < D -> 0 < A -> 0 < P ->
  m1 * (P * D) <= N -> 2 * N * A < D * (2 * my + 1) * (P * A) ->
  m1 <= my /\ (m1 = my -> 2 * (N - m1 * (P * D)) < P * D).
Proof.
  intros HD HA HP HN Hlt.
  assert (Hlt' : 2 * N < (2 * my + 1) * (P * D)).
  { apply (Z.mul_lt_mono_pos_r A); [assumption|]. lia. }
  assert (HPD : 0 < P * D) by nia.
  split; [|intros ->; lia].
  destruct (Z_le_gt_dec m1 my) as [|Hgt]; [assumption|exfalso].
  assert ((my + 1) * (P * D) <= m1 * (P * D))
    by (apply Z.mul_le_mono_nonneg_r; lia).
  lia.
Qed.

Lemma above_exponent_pos (T P D N m m1 : Z) :
  0 < D -> 0 < P -> T * P <= m -> m * D <= N -> N < (m1 + 1) * (P * D) ->
  T <= m1.
Proof.
  intros HD HP Hm HN HN1.
  destruct (Z_le_gt_dec T m1) as [|Hlt]; [assumption|exfalso].
  assert ((m1 + 1) * (P * D) <= T * (P * D))
    by (apply Z.mul_le_mono_nonneg_r; nia).
  assert (T * P * D <= m * D) by (apply Z.mul_le_mono_nonneg_r; lia).
  lia.
Qed.

Lemma at_exponent_ge (c P A D N m1 my : Z) :
  0 < D -> 0 < A -> 0 < P -> 2 <= c ->
  N < (m1 + 1) * (P * D) -> D * (c * my - 1) * (P * A) < c * N * A ->
  my - 1 <= m1 /\ (m1 = my - 1 -> P * D < 2 * (N - m1 * (P * D))).
Proof.
  intros HD HA HP Hc HN Hgt.
  assert (Hgt' : (c * my - 1) * (P * D) < c * N).
  { apply (Z.mul_lt_mono_pos_r A); [assumption|]. lia. }
  assert (HPD : 0 < P * D) by nia.
  split.
  - destruct (Z_le_gt_dec (my - 1) m1) as [|Hlt]; [assumption|exfalso].
    assert ((m1 + 1) * (P * D) <= (my - 1) * (P * D))
      by (apply Z.mul_le_mono_nonneg_r; lia).
    assert (c * N < c * ((my - 1) * (P * D))) by nia.
    nia.
  - intros ->. nia.
Qed.

Lemma below_exponent_absurd (T P A B D N my : Z) :
  0 < D -> 0 < A -> 0 < B -> 0 < P -> 0 < T ->
  2 * (P * A) <= B -> N < 2 * T * (P * D) -> T < my ->
  D * (2 * my - 1) * B < 2 * N * A -> False.
Proof.
  intros HD HA HB HP HT Hstep HN Hmy Hgt.
  assert (H1 : N * A < 2 * T * (P * D) * A) by (apply Z.mul_lt_mono_pos_r; lia).
  assert (H2 : (T * D) * (2 * (P * A)) <= (T * D) * B)
    by (apply Z.mul_le_mono_nonneg_l; nia).
  assert (H3 : (2 * T + 1) * (D * B) <= (2 * my - 1) * (D * B))
    by (apply Z.mul_le_mono_nonneg_r; nia).
  assert (0 < D * B) by nia.
  lia.
Qed.

Lemma below_exponent_quarter (T P A B D N : Z) :
  0 < D -> 0 < A -> 0 < B -> 0 < P -> 0 < T ->
  N < 2 * T * (P * D) -> D * (4 * T - 1) * B < 4 * N * A ->
  B < 4 * (P * A).
Proof.
  intros HD HA HB HP HT HN Hgt.
  destruct (Z_lt_le_dec B (4 * (P * A))) as [|Hge]; [assumption|exfalso].
  assert (H1 : N * A < 2 * T * (P * D) * A) by (apply Z.mul_lt_mono_pos_r; lia).
  assert (H2 : (2 * T * D) * (4 * (P * A)) <= (2 * T * D) * B)
    by (apply Z.mul_le_mono_nonneg_l; nia).
  assert (0 < D * B) by nia.
  nia.
Qed.

(** Rounding is monotone against a double: a magnitude below
    [(my + 1/2) * 2^ey] does not round above [my * 2^ey]. *)
Lemma round_aux_le (s : bool) (N D m e : Z) (l : location) (b my ey : Z) :
  0 <= m -> located N D m l ->
  e <= fexp (Zdigits2 m + e) ->
  is_double_mag my ey ->
  b <= e -> b <= ey ->
  2 * N * 2 ^ (e - b) < D * (2 * my + 1) * 2 ^ (ey - b) ->
  mag_le (binary_round_aux prec emax s m e l) s my ey.
Proof.
  intros Hm Hl Hpre Hy Hbe Hby Hlt.
  unfold binary_round_aux. unfold shr_fexp at 1.
  set (e1 := fexp (Zdigits2 m + e)) in *.
  destruct (shr_located N D m e (e1 - e) l Hm Hl ltac:(lia))
    as (mrs1 & -> & Hm1 & L1).
  replace (e + (e1 - e)) with e1 by lia.
  set (m1 := shr_m mrs1) in *. set (l1 := loc_of_shr_record mrs1) in *.
  destruct (round_nearest_even_located _ _ _ _ L1) as [Hr Hhalf].
  set (m2 := round_nearest_even m1 l1) in *.
  pose proof Hy as (Hmy & Hey & Hnorm).
  pose proof Hl as (HD & HN & _). pose proof L1 as (HD1 & HN1 & _).
  assert (HA : 0 < 2 ^ (e - b)) by (apply Z.pow_pos_nonneg; lia).
  assert (HB : 0 < 2 ^ (ey - b)) by (apply Z.pow_pos_nonneg; lia).
  assert (HP : 0 < 2 ^ (e1 - e)) by (apply Z.pow_pos_nonneg; lia).
  assert (He1 : -1074 <= e1) by (unfold e1; rewrite fexp_eq; lia).
  assert (Hsplit : 2 ^ (e1 - b) = 2 ^ (e1 - e) * 2 ^ (e - b)).
  { rewrite <- Z.pow_add_r by lia. f_equal. lia. }
  (* the shifted integer part has at most 53 bits *)
  assert (Hm1' : m1 < 2 ^ 53).
  { apply (shifted_lt (2 ^ 53) (2 ^ (e1 - e)) D N m); try lia.
    destruct (Z.eq_dec m 0) as [->|Hm0]; [lia|].
    destruct (Zdigits2_bounds m ltac:(lia)) as [_ Hhi].
    assert (Hd : Zdigits2 m <= 53 + (e1 - e)) by (unfold e1; rewrite fexp_eq; lia).
    assert (2 ^ Zdigits2 m <= 2 ^ (53 + (e1 - e)))
      by (apply Z.pow_le_mono_r; lia).
    rewrite Z.pow_add_r in * by lia. lia. }
  apply finish_le; [lia|assumption|assumption|].
  destruct (Z_lt_le_dec ey e1) as [Hgt|Hle]; [exfalso|].
  - (* the format's exponent for this magnitude is above [ey] *)
    assert (Hm0 : 0 < m).
    { destruct (Z.eq_dec m 0) as [E|]; [|lia]. subst m.
      unfold e1 in *. rewrite fexp_eq in *. simpl Zdigits2 in *. lia. }
    destruct (Zdigits2_bounds m Hm0) as [Hlo _].
    assert (Hd : Zdigits2 m - 1 = 52 + (e1 - e)) by (unfold e1 in *; rewrite fexp_eq in *; lia).
    rewrite Hd, Z.pow_add_r in Hlo by lia.
    assert (Hup : 2 * 2 ^ (ey - b) <= 2 ^ (e1 - b)).
    { rewrite <- Z.pow_succ_r by lia. apply Z.pow_le_mono_r; lia. }
    rewrite Hsplit in Hup.
    apply (above_exponent_absurd (2 ^ 52) (2 ^ (e1 - e)) (2 ^ (e - b))
             (2 ^ (ey - b)) D N my); try assumption; try lia.
    apply Z.le_trans with (m * D); [|lia].
    apply Z.mul_le_mono_nonneg_r; lia.
  - destruct (Z.eq_dec e1 ey) as [Heq|Hne]; [left|right; lia].
    split; [assumption|].
    rewrite <- Heq, Hsplit in Hlt.
    destruct (at_exponent_le (2 ^ (e1 - e)) (2 ^ (e - b)) D N m1 my HD HA HP
                ltac:(lia) Hlt) as [Hle1 Heq1].
    destruct (Z.eq_dec m1 my) as [E|]; [|lia].
    rewrite Hhalf; [lia|]. apply Heq1, E.
Qed.

Lemma finish_ge (s : bool) (m2 e1 my ey : Z) :
  0 <= m2 <= 2 ^ 53 -> -1074 <= e1 -> is_double_mag my ey ->
  (e1 = ey /\ my <= m2) \/ (ey < e1 /\ 0 < m2) \/
  (e1 = ey - 1 /\ m2 = 2 ^ 53 /\ my = 2 ^ 52) ->
  mag_ge (let '(mrs, e) := shr_fexp prec emax m2 e1 loc_Exact in
          match shr_m mrs with
          | Z0 => S754_zero s
          | Zpos m => if e <=? emax - prec then S754_finite s m e
                      else S754_infinity s
          | Zneg _ => S754_nan
          end) s my ey.
Proof.
  intros H2 H1 (Hmy & Hey & Hnorm) Hcase.
  change (emax - prec) with 971.
  destruct (Z.eq_dec m2 (2 ^ 53)) as [->|Hne].
  - rewrite shr_fexp_carry by assumption. simpl shr_m.
    change (2 ^ 52) with (Zpos (2 ^ 52)%positive) at 1. cbv iota.
    destruct (Z.leb_spec (e1 + 1) 971); [|now left].
    right. exists (2 ^ 52)%positive, (e1 + 1). split; [reflexivity|].
    change (Zpos (2 ^ 52)) with (2 ^ 52). lia.
  - rewrite shr_fexp_small by lia. simpl shr_m.
    destruct m2 as [|p|p]; [lia| |lia].
    destruct (Z.leb_spec e1 971); [|now left].
    right. exists p, e1. split; [reflexivity|]. lia.
Qed.

(** The other side: a magnitude above [(my - 1/2) * 2^ey] does not
    round below [my * 2^ey]; at a power of two, where the doubles
    below are twice as dense, above [(my - 1/4) * 2^ey]. *)
Lemma round_aux_ge (s : bool) (N D m e : Z) (l : location) (b my ey : Z) :
  0 < m -> located N D m l ->
  e <= fexp (Zdigits2 m + e) ->
  is_double_mag my ey ->
  b <= e -> b <= ey ->
  (2 ^ 52 < my \/ ey = -1074) /\
    D * (2 * my - 1) * 2 ^ (ey - b) < 2 * N * 2 ^ (e - b) \/
  my = 2 ^ 52 /\ -1074 < ey /\
    D * (4 * my - 1) * 2 ^ (ey - b) < 4 * N * 2 ^ (e - b) ->
  mag_ge (binary_round_aux prec emax s m e l) s my ey.
Proof.
  intros Hm0 Hl Hpre Hy Hbe Hby Hgt.
  assert (Hm : 0 <= m) by lia.
  unfold binary_round_aux. unfold shr_fexp at 1.
  set (e1 := fexp (Zdigits2 m + e)) in *.
  destruct (shr_located N D m e (e1 - e) l Hm Hl ltac:(lia))
    as (mrs1 & -> & Hm1 & L1).
  replace (e + (e1 - e)) with e1 by lia.
  set (m1 := shr_m mrs1) in *. set (l1 := loc_of_shr_record mrs1) in *.
  destruct (round_nearest_even_located _ _ _ _ L1) as [Hr _].
  pose proof (round_nearest_even_up _ _ _ _ L1) as Hup.
  set (m2 := round_nearest_even m1 l1) in *.
  pose proof Hy as (Hmy & Hey & Hnorm).
  pose proof Hl as (HD & HN & _). pose proof L1 as (HD1 & HN1 & _).
  assert (HA : 0 < 2 ^ (e - b)) by (apply Z.pow_pos_nonneg; lia).
  assert (HB : 0 < 2 ^ (ey - b)) by (apply Z.pow_pos_nonneg; lia).
  assert (HP : 0 < 2 ^ (e1 - e)) by (apply Z.pow_pos_nonneg; lia).
  assert (He1 : -1074 <= e1) by (unfold e1; rewrite fexp_eq; lia).
  assert (Hsplit : 2 ^ (e1 - b) = 2 ^ (e1 - e) * 2 ^ (e - b)).
  { rewrite <- Z.pow_add_r by lia. f_equal. lia. }
  destruct (Zdigits2_bounds m Hm0) as [Hlo Hhi].
  assert (Hd : Zdigits2 m <= 53 + (e1 - e)) by (unfold e1; rewrite fexp_eq; lia).
  assert (Hhi' : 2 ^ Zdigits2 m <= 2 ^ 53 * 2 ^ (e1 - e)).
  { rewrite <- Z.pow_add_r by lia. apply Z.pow_le_mono_r; lia. }
  assert (Hm1' : m1 < 2 ^ 53).
  { apply (shifted_lt (2 ^ 53) (2 ^ (e1 - e)) D N m); lia. }
  assert (HN' : N < 2 * 2 ^ 52 * (2 ^ (e1 - e) * D)).
  { apply Z.lt_le_trans with ((m + 1) * D); [lia|].
    replace (2 * 2 ^ 52 * (2 ^ (e1 - e) * D)) with (2 ^ 53 * 2 ^ (e1 - e) * D)
      by (change (2 ^ 53) with (2 * 2 ^ 52); ring).
    apply Z.mul_le_mono_nonneg_r; lia. }
  apply finish_ge; [lia|assumption|assumption|].
  destruct (Z_lt_le_dec ey e1) as [Hgt1|Hle1].
  - (* above the exponent of the bound: at least 2^52 * 2^e1 *)
    right. left. split; [assumption|].
    assert (Hd' : Zdigits2 m - 1 = 52 + (e1 - e))
      by (unfold e1 in *; rewrite fexp_eq in *; lia).
    rewrite Hd', Z.pow_add_r in Hlo by lia.
    pose proof (above_exponent_pos (2 ^ 52) (2 ^ (e1 - e)) D N m m1
                  HD HP Hlo ltac:(lia) ltac:(lia)).
    lia.
  - destruct (Z.eq_dec e1 ey) as [Heq|Hne].
    + left. split; [assumption|].
      rewrite <- Heq, Hsplit in Hgt.
      destruct Hgt as [[_ Hgt]|(Hmy' & _ & Hgt)].
      * destruct (at_exponent_ge 2 (2 ^ (e1 - e)) (2 ^ (e - b)) D N m1 my HD HA HP
                    ltac:(lia) ltac:(lia) Hgt)
          as [Hge1 Heq1].
        destruct (Z.eq_dec m1 (my - 1)) as [E|]; [|lia].
        rewrite Hup; [lia|]. apply Heq1, E.
      * destruct (at_exponent_ge 4 (2 ^ (e1 - e)) (2 ^ (e - b)) D N m1 my HD HA HP
                    ltac:(lia) ltac:(lia) Hgt)
          as [Hge1 Heq1].
        destruct (Z.eq_dec m1 (my - 1)) as [E|]; [|lia].
        rewrite Hup; [lia|]. apply Heq1, E.
    + (* below the exponent of the bound: only just below a power of two *)
      right. right.
      assert (Hlt1 : e1 < ey) by lia.
      assert (Hstep : 2 * 2 ^ (e1 - b) <= 2 ^ (ey - b)).
      { rewrite <- Z.pow_succ_r by lia. apply Z.pow_le_mono_r; lia. }
      rewrite Hsplit in Hstep.
      destruct Hgt as [[Hbig Hgt]|(Hmy' & Hey' & Hgt)].
      * exfalso. destruct Hbig as [Hbig|]; [|lia].
        apply (below_exponent_absurd (2 ^ 52) (2 ^ (e1 - e)) (2 ^ (e - b))
                 (2 ^ (ey - b)) D N my); try assumption; lia.
      * rewrite Hmy' in Hgt.
        pose proof (below_exponent_quarter (2 ^ 52) (2 ^ (e1 - e)) (2 ^ (e - b))
                      (2 ^ (ey - b)) D N HD HA HB HP ltac:(lia) HN' Hgt) as Hq.
        assert (He1' : e1 = ey - 1).
        { destruct (Z.eq_dec e1 (ey - 1)); [assumption|exfalso].
          assert (4 * 2 ^ (e1 - b) <= 2 ^ (ey - b)).
          { replace 4 with (2 ^ 2) by reflexivity.
            rewrite <- Z.pow_add_r by lia. apply Z.pow_le_mono_r; lia. }
          rewrite Hsplit in *. lia. }
        split; [assumption|]. split; [|assumption].
        assert (Hey2 : 2 ^ (ey - b) = 2 * (2 ^ (e1 - e) * 2 ^ (e - b))).
        { rewrite <- Hsplit, <- Z.pow_succ_r by lia. f_equal. lia. }
        rewrite Hey2 in Hgt.
        assert (Hgt2 : D * (2 * 2 ^ 53 - 1) * (2 ^ (e1 - e) * 2 ^ (e - b))
                       < 2 * N * 2 ^ (e - b)).
        { change (2 ^ 53) with (2 * 2 ^ 52). lia. }
        destruct (at_exponent_ge 2 (2 ^ (e1 - e)) (2 ^ (e - b)) D N m1 (2 ^ 53) HD HA HP
                    ltac:(lia) ltac:(lia) Hgt2)
          as [Hge1 Heq1].
        rewrite Hup; [lia|]. apply Heq1. lia.
Qed.

Lemma iter_xO (d p : positive) : Zpos (Pos.iter xO p d) = Zpos p * 2 ^ Zpos d.
Proof.
  induction d as [|d IH] using Pos.peano_ind.
  - simpl. lia.
  - rewrite Pos.iter_succ, Pos2Z.inj_xO, IH, Pos2Z.inj_succ, Z.pow_succ_r by lia.
    ring.
Qed.

Lemma shl_align_spec (p : positive) (e e' : Z) :
  snd (shl_align p e e') = Z.min e e' /\
  Zpos (fst (shl_align p e e')) = Zpos p * 2 ^ (e - Z.min e e').
Proof.
  unfold shl_align. destruct (e' - e) as [|d|d] eqn:E; simpl.
  - replace (Z.min e e') with e by lia. rewrite Z.sub_diag. lia.
  - replace (Z.min e e') with e by lia. rewrite Z.sub_diag. lia.
  - replace (Z.min e e') with e' by lia. split; [reflexivity|].
    rewrite iter_xO. f_equal. f_equal. lia.
Qed.

Lemma Zdigits2_shift (m k : Z) :
  0 < m -> 0 <= k -> Zdigits2 (m * 2 ^ k) = Zdigits2 m + k.
Proof.
  intros Hm Hk. destruct (Zdigits2_bounds m Hm) as [Hlo Hhi].
  pose proof (Zdigits2_nonneg m) as Hd.
  assert (Hd1 : 1 <= Zdigits2 m).
  { destruct m; simpl in *; lia. }
  assert (HP : 0 < 2 ^ k) by (apply Z.pow_pos_nonneg; lia).
  apply Z.le_antisymm.
  - apply Zdigits2_le; [lia|]. rewrite Z.pow_add_r by lia. nia.
  - replace (Zdigits2 m + k) with ((Zdigits2 m - 1 + k) + 1) by lia.
    apply Zdigits2_ge; [lia|]. rewrite Z.pow_add_r by lia. nia.
Qed.

(** The same for [binary_round], which rounds [p * 2^e]. *)
Lemma round_le (s : bool) (p : positive) (e b my ey : Z) :
  is_double_mag my ey -> b <= e -> b <= -1074 ->
  2 * Zpos p * 2 ^ (e - b) < (2 * my + 1) * 2 ^ (ey - b) ->
  mag_le (binary_round prec emax s p e) s my ey.
Proof.
  intros Hy Hbe Hb Hlt. unfold binary_round.
  destruct (shl_align_spec p e (fexp (Zpos (digits2_pos p) + e))) as [Ez Em].
  destruct (shl_align _ _ _) as [mz ez]. simpl in Ez, Em.
  set (fe := fexp (Zpos (digits2_pos p) + e)) in *.
  assert (Hfe : -1074 <= fe) by (unfold fe; rewrite fexp_eq; lia).
  assert (Hk : 0 <= e - ez) by lia.
  assert (Hdig : Zdigits2 (Zpos mz) + ez = Zpos (digits2_pos p) + e).
  { rewrite <- Ez in Em. rewrite Em, Zdigits2_shift by lia. simpl Zdigits2. lia. }
  pose proof Hy as (_ & Hey & _).
  apply round_aux_le with (N := Zpos mz) (D := 1) (b := b); try lia.
  - unfold located. rewrite !Z.mul_1_r, Z.eqb_refl. repeat split; lia.
  - rewrite Hdig. fold fe. lia.
  - assumption.
  - rewrite <- Ez in Em. rewrite Em.
    replace (e - b) with ((e - ez) + (ez - b)) in Hlt by lia.
    rewrite Z.pow_add_r in Hlt by lia. nia.
Qed.

Lemma round_ge (s : bool) (p : positive) (e b my ey : Z) :
  is_double_mag my ey -> b <= e -> b <= -1074 ->
  (2 ^ 52 < my \/ ey = -1074) /\
    (2 * my - 1) * 2 ^ (ey - b) < 2 * Zpos p * 2 ^ (e - b) \/
  my = 2 ^ 52 /\ -1074 < ey /\
    (4 * my - 1) * 2 ^ (ey - b) < 4 * Zpos p * 2 ^ (e - b) ->
  mag_ge (binary_round prec emax s p e) s my ey.
Proof.
  intros Hy Hbe Hb Hgt. unfold binary_round.
  destruct (shl_align_spec p e (fexp (Zpos (digits2_pos p) + e))) as [Ez Em].
  destruct (shl_align _ _ _) as [mz ez]. simpl in Ez, Em.
  set (fe := fexp (Zpos (digits2_pos p) + e)) in *.
  assert (Hfe : -1074 <= fe) by (unfold fe; rewrite fexp_eq; lia).
  assert (Hk : 0 <= e - ez) by lia.
  rewrite <- Ez in Em.
  assert (Hdig : Zdigits2 (Zpos mz) + ez = Zpos (digits2_pos p) + e).
  { rewrite Em, Zdigits2_shift by lia. simpl Zdigits2. lia. }
  pose proof Hy as (_ & Hey & _).
  assert (Hpow : 2 ^ (e - b) = 2 ^ (e - ez) * 2 ^ (ez - b)).
  { rewrite <- Z.pow_add_r by lia. f_equal. lia. }
  rewrite Hpow in Hgt.
  apply round_aux_ge with (N := Zpos mz) (D := 1) (b := b); try lia.
  - unfold located. rewrite !Z.mul_1_r, Z.eqb_refl. repeat split; lia.
  - rewrite Hdig. fold fe. lia.
  - assumption.
Qed.

(** *** The order of [SFcompare] on magnitudes *)

Lemma valid_finite (s : bool) (m : positive) (e : Z) :
  valid_binary (S754_finite s m e) = true -> is_double_mag (Zpos m) e.
Proof.
  unfold valid_binary, bounded, canonical_mantissa. simpl.
  intros H. apply andb_true_iff in H as [Hc He].
  apply Z.eqb_eq in Hc. apply Z.leb_le in He.
  change (emax - prec) with 971 in He. rewrite fexp_eq in Hc.
  destruct (digits2_pos_bounds m) as [Hlo Hhi].
  assert (Hd : Zpos (digits2_pos m) <= 53) by lia.
  assert (2 ^ Zpos (digits2_pos m) <= 2 ^ 53) by (apply Z.pow_le_mono_r; lia).
  unfold is_double_mag. split; [lia|]. split; [lia|].
  destruct (Z.eq_dec e (-1074)); [now left|right].
  replace (Zpos (digits2_pos m)) with 53 in Hlo by lia. exact Hlo.
Qed.

Lemma mag_le_leb (r : spec_float) (p : positive) (ey : Z) :
  mag_le r false (Zpos p) ey -> SFleb r (S754_finite false p ey) = true.
Proof.
  unfold SFleb. intros [->|(m3 & e3 & -> & H)]; simpl; [reflexivity|].
  destruct H as [H|[-> H]].
  - now rewrite (proj2 (Z.compare_lt_iff e3 ey) H).
  - rewrite Z.compare_refl. change (Pos.compare_cont Eq m3 p) with (m3 ?= p)%positive.
    destruct (Pos.compare_spec m3 p); try reflexivity; lia.
Qed.

Lemma mag_le_ltb (r : spec_float) (my : Z) (p : positive) (ey : Z) :
  mag_le r false my ey -> my < Zpos p -> SFltb r (S754_finite false p ey) = true.
Proof.
  unfold SFltb. intros [->|(m3 & e3 & -> & H)] Hp; simpl; [reflexivity|].
  destruct H as [H|[-> H]].
  - now rewrite (proj2 (Z.compare_lt_iff e3 ey) H).
  - rewrite Z.compare_refl. change (Pos.compare_cont Eq m3 p) with (m3 ?= p)%positive.
    destruct (Pos.compare_spec m3 p); try reflexivity; lia.
Qed.

Lemma mag_le_geb_neg (r : spec_float) (p : positive) (ey : Z) :
  mag_le r true (Zpos p) ey -> SFleb (S754_finite true p ey) r = true.
Proof.
  unfold SFleb. intros [->|(m3 & e3 & -> & H)]; simpl; [reflexivity|].
  destruct H as [H|[-> H]].
  - now rewrite (proj2 (Z.compare_gt_iff ey e3) H).
  - rewrite Z.compare_refl. change (Pos.compare_cont Eq p m3) with (p ?= m3)%positive.
    destruct (Pos.compare_spec p m3); try reflexivity; lia.
Qed.

(** What [SFleb] and [SFltb] say of two positive finite numbers. *)
Lemma leb_finite (m p : positive) (e ey : Z) :
  SFleb (S754_finite false m e) (S754_finite false p ey) = true ->
  e < ey \/ (e = ey /\ Zpos m <= Zpos p).
Proof.
  unfold SFleb. simpl. destruct (Z.compare_spec e ey); try discriminate; [|lia].
  change (Pos.compare_cont Eq m p) with (m ?= p)%positive.
  destruct (Pos.compare_spec m p); try discriminate; lia.
Qed.

Lemma ltb_finite (m p : positive) (e ey : Z) :
  SFltb (S754_finite false m e) (S754_finite false p ey) = true ->
  e < ey \/ (e = ey /\ Zpos m < Zpos p).
Proof.
  unfold SFltb. simpl. destruct (Z.compare_spec e ey); try discriminate; [|lia].
  change (Pos.compare_cont Eq m p) with (m ?= p)%positive.
  destruct (Pos.compare_spec m p); try discriminate; lia.
Qed.

(** On doubles the order on (exponent, mantissa) is the order of the
    values. *)
Lemma lex_value_le (m e my ey b : Z) :
  0 < m < 2 ^ 53 -> 2 ^ 52 <= my -> b <= e ->
  e < ey \/ (e = ey /\ m <= my) ->
  m * 2 ^ (e - b) <= my * 2 ^ (ey - b).
Proof.
  intros Hm Hmy Hb [Hlt|[-> Hle]].
  - assert (HA : 0 < 2 ^ (e - b)) by (apply Z.pow_pos_nonneg; lia).
    assert (2 * 2 ^ (e - b) <= 2 ^ (ey - b)).
    { rewrite <- Z.pow_succ_r by lia. apply Z.pow_le_mono_r; lia. }
    nia.
  - assert (HA : 0 < 2 ^ (ey - b)) by (apply Z.pow_pos_nonneg; lia). nia.
Qed.

Lemma mag_le_ltb_exp (r : spec_float) (my ey : Z) (p : positive) (e : Z) :
  mag_le r false my ey -> ey < e -> SFltb r (S754_finite false p e) = true.
Proof.
  unfold SFltb. intros [->|(m3 & e3 & -> & H)] He; simpl; [reflexivity|].
  assert (Hlt : e3 < e) by lia.
  now rewrite (proj2 (Z.compare_lt_iff e3 e) Hlt).
Qed.

Lemma binary_normalize_eq (M e : Z) :
  binary_normalize prec emax M e false
  = match M with
    | Z0 => S754_zero false
    | Zpos p => binary_round prec emax false p e
    | Zneg p => binary_round prec emax true p e
    end.
Proof. reflexivity. Qed.

(** *** Subtracting [PI + PI] makes progress up to 2^56 *)

Lemma SFsub_2pi_lt (m : positive) (e : Z) :
  is_double_mag (Zpos m) e ->
  -51 <= e ->
  e <= 3 \/ (e = 4 /\ Zpos m = 2 ^ 52) ->
  SFltb (SFsub prec emax (S754_finite false m e)
                         (S754_finite false 7074237752028440 (-50)))
        (S754_finite false m e) = true.
Proof.
  intros (Hm & He & Hnorm) Hlo Hhi.
  assert (Hm52 : 2 ^ 52 <= Zpos m) by lia.
  unfold SFsub. cbv zeta. rewrite binary_normalize_eq.
  destruct (shl_align_spec m e (Z.min e (-50))) as [_ Ex].
  destruct (shl_align_spec 7074237752028440 (-50) (Z.min e (-50))) as [_ Ec].
  unfold cond_Zopp.
  set (ax := fst (shl_align m e (Z.min e (-50)))) in *.
  set (ac := fst (shl_align 7074237752028440 (-50) (Z.min e (-50)))) in *.
  replace (Z.min e (Z.min e (-50))) with (Z.min e (-50)) in Ex by lia.
  replace (Z.min (-50) (Z.min e (-50))) with (Z.min e (-50)) in Ec by lia.
  set (ez := Z.min e (-50)) in *.
  assert (HC : 0 < 2 ^ (ez - -1074)) by (apply Z.pow_pos_nonneg; lia).
  assert (Hmax : is_double_mag (2 ^ 53 - 1) 971).
  { unfold is_double_mag. lia. }
  destruct (Zpos ax - Zpos ac) as [|q|q] eqn:EM.
  - reflexivity.
  - (* a positive difference: it rounds to the predecessor at most *)
    assert (Hk : 0 <= e - ez) by lia.
    assert (He50 : -50 <= e).
    { destruct (Z.eq_dec e (-51)) as [->|]; [exfalso|lia].
      change (Z.min (-51) (-50)) with (-51) in *. unfold ez in *.
      change (-51 - -51) with 0 in Ex. change (-50 - -51) with 1 in Ec.
      change (2 ^ 0) with 1 in Ex. change (2 ^ 1) with 2 in Ec. lia. }
    assert (Ez : ez = -50) by (unfold ez; lia).
    rewrite Ez in *. rewrite Z.sub_diag, Z.pow_0_r, Z.mul_1_r in Ec.
    assert (HA : 0 < 2 ^ (e - -50)) by (apply Z.pow_pos_nonneg; lia).
    assert (HA' : 2 ^ (e - -1074) = 2 ^ (e - -50) * 2 ^ (-50 - -1074)).
    { rewrite <- Z.pow_add_r by lia. f_equal. lia. }
    destruct (Z.eq_dec (Zpos m) (2 ^ 52)) as [E52|N52].
    + apply mag_le_ltb_exp with (my := 2 ^ 53 - 1) (ey := e - 1); [|lia].
      apply round_le with (b := -1074); try lia.
      * unfold is_double_mag. lia.
      * assert (HU : 2 ^ (e - -1074) = 2 * 2 ^ (e - 1 - -1074)).
        { rewrite <- Z.pow_succ_r by lia. f_equal. lia. }
        assert (HU' : 2 ^ (e - 1 - -1074) <= 2 ^ 1077)
          by (apply Z.pow_le_mono_r; lia).
        assert (0 < 2 ^ (e - 1 - -1074)) by (apply Z.pow_pos_nonneg; lia).
        rewrite HA' in HU. change (-50 - -1074) with 1024 in *.
        assert (Hq : Zpos q * 2 ^ 1024
                     = 2 ^ 53 * 2 ^ (e - 1 - -1074) - 7074237752028440 * 2 ^ 1024)
          by nia.
        lia.
    + destruct Hhi as [Hhi|[_ ?]]; [|lia].
      apply mag_le_ltb with (my := Zpos m - 1); [|lia].
      apply round_le with (b := -1074); try lia.
      * unfold is_double_mag. lia.
      * assert (2 ^ (e - -50) <= 2 ^ 53) by (apply Z.pow_le_mono_r; lia).
        rewrite HA'. nia.
  - (* a negative difference is below any positive number *)
    assert (Hr : mag_le (binary_round prec emax true q ez) true (2 ^ 53 - 1) 971).
    { apply round_le with (b := -1074); try assumption; try lia.
      assert (Hq : Zpos q < Zpos ac) by lia.
      assert (Hez : ez = -51 \/ ez = -50) by lia.
      destruct Hez as [Ez|Ez]; rewrite Ez in *;
        [change (2 ^ (-50 - -51)) with 2 in Ec|change (2 ^ (-50 - -50)) with 1 in Ec];
        lia. }
    destruct Hr as [->|(m3 & e3 & -> & _)]; reflexivity.
Qed.

(** *** Above 2^56 the subtraction of [PI + PI] is absorbed *)

Lemma mag_le_ge_eq (r : spec_float) (s : bool) (p : positive) (e : Z) :
  mag_le r s (Zpos p) e -> mag_ge r s (Zpos p) e -> r = S754_finite s p e.
Proof.
  intros [->|(m3 & e3 & -> & Hle)] [Hinf|(m4 & e4 & E & Hge)]; try discriminate.
  injection E as <- <-.
  assert (e3 = e) by lia. subst e3.
  assert (Zpos m3 = Zpos p) by lia. congruence.
Qed.

Lemma SFsub_2pi_absorbed (m : positive) (e : Z) :
  is_double_mag (Zpos m) e ->
  4 < e \/ (e = 4 /\ 2 ^ 52 < Zpos m) ->
  SFsub prec emax (S754_finite false m e)
                  (S754_finite false 7074237752028440 (-50))
  = S754_finite false m e.
Proof.
  intros (Hm & He & Hnorm) Hbig.
  assert (Hm52 : 2 ^ 52 <= Zpos m) by lia.
  unfold SFsub. cbv zeta. rewrite binary_normalize_eq.
  replace (Z.min e (-50)) with (-50) by lia.
  destruct (shl_align_spec m e (-50)) as [_ Ex].
  destruct (shl_align_spec 7074237752028440 (-50) (-50)) as [_ Ec].
  replace (Z.min e (-50)) with (-50) in Ex by lia.
  change (Z.min (-50) (-50)) with (-50) in Ec.
  rewrite Z.sub_diag, Z.pow_0_r, Z.mul_1_r in Ec.
  unfold cond_Zopp.
  set (ax := fst (shl_align m e (-50))) in *.
  set (ac := fst (shl_align 7074237752028440 (-50) (-50))) in *.
  assert (HA : 2 ^ 54 <= 2 ^ (e - -50)) by (apply Z.pow_le_mono_r; lia).
  assert (HA' : 2 ^ (e - -1074) = 2 ^ (e - -50) * 2 ^ 1024).
  { rewrite <- Z.pow_add_r by lia. f_equal. lia. }
  assert (Hy : is_double_mag (Zpos m) e) by (unfold is_double_mag; lia).
  assert (Hax : 2 ^ 52 * 2 ^ 54 <= Zpos ax).
  { rewrite Ex. apply Z.mul_le_mono_nonneg; lia. }
  destruct (Zpos ax - Zpos ac) as [|q|q] eqn:EM; try lia.
  change (-50 - -1074) with 1024 in *.
  assert (Hq : Zpos q * 2 ^ 1024
               = Zpos m * 2 ^ (e - -1074) - 7074237752028440 * 2 ^ 1024).
  { rewrite HA'. rewrite Ex in EM. nia. }
  apply mag_le_ge_eq.
  - assert (0 < 2 ^ (e - -1074)) by (apply Z.pow_pos_nonneg; lia).
    apply round_le with (b := -1074); try assumption; lia.
  - apply round_ge with (b := -1074); try assumption; try lia.
    change (-50 - -1074) with 1024.
    destruct (Z.eq_dec (Zpos m) (2 ^ 52)) as [E52|N52].
    + right. split; [assumption|]. split; [lia|].
      assert (2 ^ 55 <= 2 ^ (e - -50)) by (apply Z.pow_le_mono_r; lia).
      assert (2 ^ 55 * 2 ^ 1024 <= 2 ^ (e - -1074)).
      { rewrite HA'. apply Z.mul_le_mono_nonneg_r; lia. }
      lia.
    + left. split; [lia|].
      assert (2 ^ 54 * 2 ^ 1024 <= 2 ^ (e - -1074)).
      { rewrite HA'. apply Z.mul_le_mono_nonneg_r; lia. }
      lia.
Qed.

Lemma ltb_finite_intro (m p : positive) (e ey : Z) :
  e < ey \/ (e = ey /\ Zpos m < Zpos p) ->
  SFltb (S754_finite false m e) (S754_finite false p ey) = true.
Proof.
  intros H. destruct H as [H|[-> H]].
  - apply mag_le_ltb_exp with (my := Zpos m) (ey := e); [|assumption].
    right. exists m, e. split; [reflexivity|]. right. lia.
  - apply mag_le_ltb with (my := Zpos m); [|assumption].
    right. exists m, ey. split; [reflexivity|]. right. lia.
Qed.

(** The doubles above [PI] and not above 2^56. *)
Lemma between_PI_and_2p56 (d : float) :
  (PI <? d)%float = true -> (0x1p56 <? d)%float = false ->
  exists m e,
    Prim2SF d = S754_finite false m e /\ is_double_mag (Zpos m) e /\
    -51 <= e /\ (e <= 3 \/ (e = 4 /\ Zpos m = 2 ^ 52)).
Proof.
  rewrite !FloatAxioms.ltb_spec, PI_spec.
  change (Prim2SF 0x1p56) with (S754_finite false 4503599627370496 4).
  pose proof (Prim2SF_valid d) as Hv.
  destruct (Prim2SF d) as [s|[|]| |[|] m e]; try discriminate.
  intros Hlo Hhi. exists m, e. split; [reflexivity|].
  pose proof (valid_finite _ _ _ Hv) as Hd. split; [assumption|].
  apply ltb_finite in Hlo. split; [lia|].
  destruct (Z_le_gt_dec e 3) as [|Hgt]; [now left|right].
  destruct Hd as (Hm & He & Hn).
  destruct (Z.eq_dec e 4) as [->|Hne].
  - split; [reflexivity|].
    destruct (Z_le_gt_dec (Zpos m) (2 ^ 52)) as [|Hm']; [lia|].
    rewrite ltb_finite_intro in Hhi; [discriminate|right; split; [reflexivity|]].
    exact (Z.gt_lt _ _ Hm').
  - rewrite ltb_finite_intro in Hhi; [discriminate|left; lia].
Qed.

End Round.

(** Above 2^56 the subtraction in the loop changes nothing. *)
Lemma sub_2pi_absorbed (d : float) :
  (0x1p56 <? d) = true -> (PI <? d) = true /\ d - (PI + PI) = d.
Proof.
  rewrite !FloatAxioms.ltb_spec, PI_spec.
  change (Prim2SF 0x1p56) with (S754_finite false 4503599627370496 4).
  pose proof (Prim2SF_valid d) as Hv. intros Hbig.
  assert (E : Prim2SF (d - (PI + PI)) = Prim2SF d
              /\ SFltb (S754_finite false 7074237752028440 (-51)) (Prim2SF d) = true).
  { rewrite sub_spec.
    change (Prim2SF (PI + PI)) with (S754_finite false 7074237752028440 (-50)).
    destruct (Prim2SF d) as [s|[|]| |[|] m e]; try discriminate.
    - split; reflexivity.
    - apply Round.ltb_finite in Hbig. split.
      + apply Round.SFsub_2pi_absorbed; [exact (Round.valid_finite _ _ _ Hv)|].
        change (Zpos 4503599627370496) with (2 ^ 52)%Z in Hbig. lia.
      + apply Round.ltb_finite_intro. lia. }
  destruct E as [E1 E2]. split; [exact E2|]. now apply Prim2SF_inj.
Qed.

(** The subtraction in the loop makes progress from every [d_ra] that is
    not above 2^56. *)
Lemma sub_2pi_progress (d : float) :
  (PI <? d) = true -> (0x1p56 <? d) = false -> (d - (PI + PI) <? d) = true.
Proof.
  intros Hlo Hhi.
  destruct (Round.between_PI_and_2p56 d Hlo Hhi) as (m & e & E & Hd & He & Hhi').
  rewrite FloatAxioms.ltb_spec, sub_spec, E.
  change (Prim2SF (PI + PI)) with (S754_finite false 7074237752028440 (-50)).
  now apply Round.SFsub_2pi_lt.
Qed.

(** ** The wrap loop ends from every [d_ra] not above 2^56 *)

Lemma rank_decreases (d d' : float) :
  (PI <? d) = true -> (0x1p56 <? d) = false ->
  (PI <? d') = true -> (d' <? d) = true ->
  (0x1p56 <? d') = false /\
  (0 <= F64.rank (Prim2SF d') < F64.rank (Prim2SF d))%Z.
Proof.
  intros Hlo Hhi Hlo' Hlt.
  destruct (Round.between_PI_and_2p56 d Hlo Hhi)
    as (m & e & E & (Hm & He & Hn) & Hge & Hle).
  assert (Hhi' : (0x1p56 <? d') = false).
  { destruct (0x1p56 <? d') eqn:Hc; [exfalso|reflexivity].
    rewrite FloatAxioms.ltb_spec in Hc, Hlt. rewrite E in Hlt.
    change (Prim2SF 0x1p56) with (S754_finite false 4503599627370496 4) in Hc.
    destruct (Prim2SF d') as [s|[|]| |[|] m' e']; try discriminate.
    apply Round.ltb_finite in Hc, Hlt. lia. }
  split; [assumption|].
  destruct (Round.between_PI_and_2p56 d' Hlo' Hhi')
    as (m' & e' & E' & (Hm' & He' & Hn') & Hge' & Hle').
  rewrite FloatAxioms.ltb_spec, E, E' in Hlt. apply Round.ltb_finite in Hlt.
  rewrite E, E'. unfold F64.rank. nia.
Qed.

Lemma wrap_d_ra_ends_within (n : nat) :
  forall d, (Z.to_nat (F64.rank (Prim2SF d)) <= n)%nat -> (0x1p56 <? d) = false ->
            exists k r, wrap_d_ra k d = Some r.
Proof.
  induction n as [|n IH]; intros d Hn Hhi.
  - destruct (PI <? d) eqn:Hlo.
    + exfalso.
      destruct (Round.between_PI_and_2p56 d Hlo Hhi)
        as (m & e & E & (Hm & He & Hnorm) & Hge & Hle).
      rewrite E in Hn. unfold F64.rank in Hn. nia.
    + exists O, d. cbn [wrap_d_ra]. now rewrite Hlo.
  - destruct (PI <? d) eqn:Hlo.
    + pose proof (sub_2pi_progress d Hlo Hhi) as Hlt.
      destruct (PI <? d - (PI + PI)) eqn:Hlo'.
      * destruct (rank_decreases _ _ Hlo Hhi Hlo' Hlt) as [Hhi' Hr].
        destruct (IH (d - (PI + PI))) as (k & r & Hk); [lia|assumption|].
        exists (S k), r. cbn [wrap_d_ra]. now rewrite Hlo.
      * exists 1%nat, (d - (PI + PI)). cbn [wrap_d_ra]. now rewrite Hlo, Hlo'.
    + exists O, d. cbn [wrap_d_ra]. now rewrite Hlo.
Qed.

(** Termination of the loop, for every entry value that is not above
    2^56, a NaN included. *)
Lemma wrap_d_ra_ends (d : float) :
  (0x1p56 <? d) = false -> exists k r, wrap_d_ra k d = Some r.
Proof. intros Hd. now apply (wrap_d_ra_ends_within _ d (Nat.le_refl _)). Qed.

(** Above 2^56 it does not end. *)
Lemma wrap_d_ra_hangs (d : float) :
  (0x1p56 <? d) = true -> forall fuel, wrap_d_ra fuel d = None.
Proof.
  intros Hd. destruct (sub_2pi_absorbed d Hd) as [Hlo Hfix].
  now apply wrap_d_ra_fixed_point.
Qed.

(** The loop ends exactly from the entry values that are not above 2^56. *)
Lemma wrap_d_ra_ends_iff (d : float) :
  (exists k r, wrap_d_ra k d = Some r) <-> (0x1p56 <? d) = false.
Proof.
  split; [|apply wrap_d_ra_ends].
  intros (k & r & Hk). destruct (0x1p56 <? d) eqn:Hd; [|reflexivity].
  rewrite (wrap_d_ra_hangs d Hd k) in Hk. discriminate.
Qed.

Section Returns.
Context `{SatCode}.

Lemma epoch_body_wrap (fuel i : nat) (f f' : frame) :
  epoch_body fuel i f = Some f' ->
  exists r, wrap_d_ra fuel (d_ra_entry i f) = Some r.
Proof.
  unfold epoch_body, d_ra_entry, offset_deg.
  destruct (apparent i f) as [g [[ra dec] dist]].
  destruct (wrap_d_ra fuel _) as [r|]; [eauto|discriminate].
Qed.

Lemma d_ra_entry_ext (i : nat) (f g : frame) :
  request_of (inputs f) = request_of (inputs g) -> tle f = tle g ->
  d_ra_entry i f = d_ra_entry i g.
Proof.
  intros Hreq Htle. pose proof Hreq as Hreq'. unfold request_of in Hreq'.
  injection Hreq' as Hlat Hlon Hht Hjd Hsr Hra Hdec.
  assert (Hjd' : get2 (Inputs.jd (inputs f)) i = get2 (Inputs.jd (inputs g)) i)
    by now rewrite Hjd.
  destruct (apparent_ext i i f g Hlat Hlon Hht Hjd' Htle) as [E _].
  destruct (apparent_keeps i f) as [Qf _].
  destruct (apparent_keeps i g) as [Qg _].
  unfold d_ra_entry.
  destruct (apparent i f) as [f1 [[ra dec] dist]].
  destruct (apparent i g) as [g1 [[ra' dec'] dist']].
  simpl in E, Qf, Qg. injection E as -> -> ->.
  unfold request_of in Qf, Qg.
  replace (Inputs.target_ra (inputs f1)) with (Inputs.target_ra (inputs g1)) by congruence.
  reflexivity.
Qed.

Lemma epoch_body_ends (i : nat) (f : frame) :
  (0x1p56 <? d_ra_entry i f) = false ->
  exists n f', epoch_body n i f = Some f'.
Proof.
  intros Hd. destruct (wrap_d_ra_ends _ Hd) as (n & r & Hn). exists n.
  unfold epoch_body, offset_deg. unfold d_ra_entry in Hn.
  destruct (apparent i f) as [g [[ra dec] dist]]. rewrite Hn. simpl. eauto.
Qed.

Lemma epoch_body_more_fuel (n m i : nat) (f f' : frame) :
  epoch_body n i f = Some f' -> (n <= m)%nat -> epoch_body m i f = Some f'.
Proof.
  unfold epoch_body. destruct (apparent i f) as [g [[ra dec] dist]].
  intros Hn Hm.
  destruct (offset_deg n _ _ _ _) as [r|] eqn:E; [|discriminate].
  now rewrite (offset_deg_more_fuel _ _ _ _ _ _ _ E Hm).
Qed.

(** [calc_sat] returns whenever neither loop is entered above 2^56. *)
Lemma calc_sat_returns (inp : Inputs.t) (t : tle_t) :
  wrap_bounded inp t -> exists fuel out, calc_sat fuel inp t = Some out.
Proof.
  intros [H0 H1].
  destruct (epoch_body_ends 0 _ H0) as (n0 & f1 & E0).
  destruct (epoch_body_spec _ _ _ _ E0) as (_ & _ & _ & _ & Q0 & T0 & _).
  destruct (apparent_keeps 0 (enter inp t)) as [Q0' _].
  rewrite <- (d_ra_entry_ext 1 f1) in H1 by congruence.
  destruct (epoch_body_ends 1 _ H1) as (n1 & f2 & E1).
  exists (Nat.max n0 n1), (outputs f2). unfold calc_sat, calc_sat_frame.
  rewrite (epoch_body_more_fuel _ (Nat.max n0 n1) _ _ _ E0) by lia. simpl.
  rewrite (epoch_body_more_fuel _ (Nat.max n0 n1) _ _ _ E1) by lia. reflexivity.
Qed.

(** [calc_sat] returns exactly when neither loop is entered above 2^56. *)
Lemma calc_sat_returns_iff (inp : Inputs.t) (t : tle_t) :
  (exists fuel out, calc_sat fuel inp t = Some out) <-> wrap_bounded inp t.
Proof.
  split; [|apply calc_sat_returns].
  intros (fuel & out & Hc). unfold calc_sat, calc_sat_frame in Hc.
  destruct (epoch_body fuel 0 (enter inp t)) as [f1|] eqn:E0; [|discriminate].
  simpl in Hc.
  destruct (epoch_body fuel 1 f1) as [f2|] eqn:E1; [|discriminate].
  destruct (epoch_body_wrap _ _ _ _ E0) as [r0 W0].
  destruct (epoch_body_wrap _ _ _ _ E1) as [r1 W1].
  destruct (epoch_body_spec _ _ _ _ E0) as (_ & _ & _ & _ & Q0 & T0 & _).
  destruct (apparent_keeps 0 (enter inp t)) as [Q0' _].
  rewrite (d_ra_entry_ext 1 f1 (fst (apparent 0 (enter inp t)))) in W1
    by congruence.
  split; apply wrap_d_ra_ends_iff; eauto.
Qed.

End Returns.

(** ** Conversion to degrees: [x * 180 / PI] against a bound *)

Module Degrees.

#[local] Open Scope Z_scope.
Import F64 Round.

#[local] Abbreviation fexp := (SpecFloat.fexp prec emax).

(** A product by a normal double does not round above [ma * 2^ea] when
    the product of the bound [mb * 2^eb] stays below [(ma + 1/2) * 2^ea]. *)
Lemma SFmul_mag_le (s : bool) (mx mc : positive) (ex ec mb eb ma ea : Z) :
  is_double_mag (Zpos mx) ex -> is_double_mag (Zpos mc) ec ->
  2 ^ 52 <= Zpos mc -> 2 ^ 52 <= mb ->
  ex < eb \/ (ex = eb /\ Zpos mx <= mb) ->
  is_double_mag ma ea ->
  2 * mb * Zpos mc * 2 ^ (eb - -1074) * 2 ^ (ec - -1074)
    < (2 * ma + 1) * 2 ^ (ea - -2148) ->
  mag_le (SFmul prec emax (S754_finite s mx ex) (S754_finite false mc ec)) s ma ea.
Proof.
  intros Hx Hc Hc52 Hb52 Hlex Hy Hnum. simpl SFmul. rewrite xorb_false_r.
  pose proof Hx as (Hmx & Hex & _). pose proof Hc as (Hmc & Hec & _).
  pose proof Hy as (_ & Hea & _).
  pose proof (lex_value_le (Zpos mx) ex mb eb (-1074) Hmx Hb52 ltac:(lia) Hlex) as Hval.
  assert (HA : 0 < 2 ^ (ec - -1074)) by (apply Z.pow_pos_nonneg; lia).
  assert (HB : 0 < 2 ^ (ex - -1074)) by (apply Z.pow_pos_nonneg; lia).
  apply round_aux_le with (N := Zpos (mx * mc)) (D := 1) (b := -2148); try lia.
  - unfold located. rewrite !Z.mul_1_r, Z.eqb_refl. repeat split; lia.
  - assert (Hd : 53 <= Zdigits2 (Zpos (mx * mc))).
    { apply (Zdigits2_ge _ 52); [lia|]. rewrite Pos2Z.inj_mul. nia. }
    rewrite fexp_eq. lia.
  - assumption.
  - replace (ex + ec - -2148) with ((ex - -1074) + (ec - -1074)) by lia.
    rewrite Z.pow_add_r, Pos2Z.inj_mul by lia.
    assert (Zpos mx * 2 ^ (ex - -1074) * (Zpos mc * 2 ^ (ec - -1074))
            <= mb * 2 ^ (eb - -1074) * (Zpos mc * 2 ^ (ec - -1074))).
    { apply Z.mul_le_mono_nonneg_r; [nia|assumption]. }
    nia.
Qed.

Lemma Zdigits2_div (a c : Z) :
  0 <= a -> 0 < c -> Zdigits2 a - Zdigits2 c <= Zdigits2 (a / c).
Proof.
  intros Ha Hc. pose proof (Zdigits2_nonneg (a / c)) as Hq.
  destruct (Z_le_gt_dec (Zdigits2 a - Zdigits2 c) 0) as [|Hk]; [lia|].
  assert (Ha0 : 0 < a).
  { destruct (Z.eq_dec a 0) as [->|]; [|lia]. simpl in Hk.
    pose proof (Zdigits2_nonneg c). lia. }
  destruct (Zdigits2_bounds a Ha0) as [Hlo _].
  destruct (Zdigits2_bounds c Hc) as [_ Hhi].
  set (k := Zdigits2 a - Zdigits2 c - 1).
  pose proof (Zdigits2_nonneg c) as Hdc.
  replace (Zdigits2 a - 1) with (k + Zdigits2 c) in Hlo by (unfold k; lia).
  rewrite Z.pow_add_r in Hlo by (unfold k; lia).
  assert (HK : 0 < 2 ^ k) by (apply Z.pow_pos_nonneg; unfold k; lia).
  assert (2 ^ k <= a / c).
  { apply Z.div_le_lower_bound; [assumption|]. nia. }
  replace (Zdigits2 a - Zdigits2 c) with (k + 1) by (unfold k; lia).
  apply Zdigits2_ge; [unfold k; lia|assumption].
Qed.

Lemma new_location_located (c r : Z) :
  0 < c -> 0 <= r < c ->
  new_location c r = if r =? 0 then loc_Exact else loc_Inexact (2 * r ?= c).
Proof.
  intros Hc Hr. unfold new_location, new_location_even, new_location_odd.
  destruct (Z.even c) eqn:Ev; destruct (Z.eqb_spec r 0); try reflexivity.
  f_equal.
  assert (Ho : Z.odd c = true) by (rewrite <- Z.negb_even, Ev; reflexivity).
  apply Z.odd_spec in Ho as [j Hj].
  destruct (Z.compare_spec (2 * r + 1) c), (Z.compare_spec (2 * r) c);
    try reflexivity; lia.
Qed.

(** What [SFdiv_core_binary] hands to the rounding: the quotient of
    [m1 * 2^s] by [m2], at an exponent the format accepts. *)
Lemma SFdiv_core_located (m1 m2 : positive) (e1 e2 : Z) :
  exists q e' l s,
    SFdiv_core_binary prec emax (Zpos m1) e1 (Zpos m2) e2 = (q, e', l) /\
    0 <= s /\ e' = e1 - e2 - s /\ Z.min (-1074) (e1 - e2) <= e' /\ 0 <= q /\
    located (Zpos m1 * 2 ^ s) (Zpos m2) q l /\
    e' <= fexp (Zdigits2 q + e').
Proof.
  unfold SFdiv_core_binary.
  set (d1 := Zdigits2 (Zpos m1)). set (d2 := Zdigits2 (Zpos m2)).
  set (e' := Z.min (fexp (d1 + e1 - (d2 + e2))) (e1 - e2)).
  set (s := e1 - e2 - e').
  assert (Hs : 0 <= s) by (unfold s, e'; lia).
  set (m' := match s with Z.pos _ => Z.shiftl (Zpos m1) s | 0 => Zpos m1 | Z.neg _ => 0 end).
  assert (Hm' : m' = Zpos m1 * 2 ^ s).
  { unfold m'. destruct s as [|p|p] eqn:Es; try lia.
    rewrite Z.shiftl_mul_pow2 by lia. reflexivity. }
  assert (HP : 0 < 2 ^ s) by (apply Z.pow_pos_nonneg; lia).
  pose proof (Z.div_eucl_eq m' (Zpos m2) ltac:(lia)) as Hdiv.
  pose proof (Z.mod_pos_bound m' (Zpos m2) ltac:(lia)) as Hmod.
  unfold Z.modulo in Hmod.
  assert (Hquo : fst (Z.div_eucl m' (Zpos m2)) = m' / Zpos m2) by reflexivity.
  destruct (Z.div_eucl m' (Zpos m2)) as [q r]. simpl in Hquo.
  exists q, e', (new_location (Zpos m2) r), s.
  split; [reflexivity|]. split; [assumption|]. split; [unfold s; lia|].
  split; [unfold e'; rewrite fexp_eq; lia|].
  assert (Hq : 0 <= q) by (rewrite Hquo; apply Z.div_pos; lia).
  split; [assumption|]. split.
  - unfold located. rewrite new_location_located by lia. rewrite <- Hm'.
    split; [lia|]. split; [lia|].
    destruct (Z.eqb_spec r 0), (Z.eqb_spec m' (q * Zpos m2)); try lia; try reflexivity.
    f_equal. f_equal. lia.
  - pose proof (Zdigits2_div m' (Zpos m2) ltac:(lia) ltac:(lia)) as Hd.
    rewrite <- Hquo in Hd. rewrite Hm', Zdigits2_shift in Hd by lia.
    fold d1 d2 in Hd.
    assert (fexp (d1 + e1 - (d2 + e2)) <= fexp (Zdigits2 q + e')).
    { rewrite !fexp_eq. unfold s in Hd. lia. }
    unfold e' at 1. lia.
Qed.

(** The same for a quotient by a normal double. *)
Lemma SFdiv_mag_le (s : bool) (mx mc : positive) (ex ec mb eb mq eq : Z) :
  is_double_mag (Zpos mx) ex -> is_double_mag (Zpos mc) ec ->
  2 ^ 52 <= mb -> -1074 <= ec <= 0 ->
  ex < eb \/ (ex = eb /\ Zpos mx <= mb) ->
  is_double_mag mq eq ->
  2 * mb * 2 ^ (eb - -1074) * 2 ^ (- ec)
    < Zpos mc * (2 * mq + 1) * 2 ^ (eq - -1074) ->
  mag_le (SFdiv prec emax (S754_finite s mx ex) (S754_finite false mc ec)) s mq eq.
Proof.
  intros Hx Hc Hb52 Hec Hlex Hy Hnum. simpl SFdiv. rewrite xorb_false_r.
  destruct (SFdiv_core_located mx mc ex ec)
    as (q & e' & l & k & -> & Hk & He' & He'lo & Hq & Hloc & Hpre).
  pose proof Hx as (Hmx & Hex & _). pose proof Hy as (_ & Heq & _).
  pose proof (lex_value_le (Zpos mx) ex mb eb (-1074) Hmx Hb52 ltac:(lia) Hlex) as Hval.
  apply round_aux_le with (N := Zpos mx * 2 ^ k) (D := Zpos mc) (b := -1074);
    try assumption; try lia.
  assert (HK : 0 < 2 ^ k) by (apply Z.pow_pos_nonneg; lia).
  assert (HE : 0 < 2 ^ (- ec)) by (apply Z.pow_pos_nonneg; lia).
  assert (Hpow : 2 ^ k * 2 ^ (e' - -1074) = 2 ^ (ex - -1074) * 2 ^ (- ec)).
  { rewrite <- !Z.pow_add_r by lia. f_equal. lia. }
  assert (Zpos mx * 2 ^ (ex - -1074) * 2 ^ (- ec)
          <= mb * 2 ^ (eb - -1074) * 2 ^ (- ec)) by nia.
  nia.
Qed.

(** [x * 180 / PI] for a finite [x] whose magnitude is at most
    [mb * 2^eb]: the magnitude of the result is at most [mq * 2^eq],
    with [ma * 2^ea] bounding the product in between. *)
Lemma to_degrees_mag_le (x : float) (s : bool) (mx : positive)
    (ex mb eb ma ea mq eq : Z) :
  Prim2SF x = S754_finite s mx ex ->
  2 ^ 52 <= mb -> ex < eb \/ (ex = eb /\ Zpos mx <= mb) ->
  is_double_mag ma ea -> 2 ^ 52 <= ma -> is_double_mag mq eq ->
  2 * mb * 6333186975989760 * 2 ^ (eb - -1074) * 2 ^ (-45 - -1074)
    < (2 * ma + 1) * 2 ^ (ea - -2148) ->
  2 * ma * 2 ^ (ea - -1074) * 2 ^ 51
    < 7074237752028440 * (2 * mq + 1) * 2 ^ (eq - -1074) ->
  mag_le (Prim2SF (x * 180 / PI)%float) s mq eq.
Proof.
  intros Ex Hb Hlex Ha Ha52 Hq H1 H2.
  pose proof (Prim2SF_valid x) as Vx. rewrite Ex in Vx. apply valid_finite in Vx.
  pose proof (Prim2SF_valid (x * 180)%float) as Va.
  rewrite div_spec, PI_spec. rewrite mul_spec, Ex in *.
  change (Prim2SF 180) with (S754_finite false 6333186975989760 (-45)) in *.
  assert (Hc : is_double_mag 6333186975989760 (-45)) by (unfold is_double_mag; lia).
  assert (Hp : is_double_mag 7074237752028440 (-51)) by (unfold is_double_mag; lia).
  destruct (SFmul_mag_le s mx _ ex (-45) mb eb ma ea Vx Hc ltac:(lia) Hb Hlex Ha H1)
    as [E|(m4 & e4 & E & Hlex4)]; unfold SF64mul, SF64div in *; rewrite E in *.
  - left. simpl. now rewrite xorb_false_r.
  - apply valid_finite in Va.
    apply SFdiv_mag_le with (mb := ma) (eb := ea); try assumption; lia.
Qed.

Lemma binary_round_small_valid (s : bool) (r : positive) (e : Z) :
  Zpos r < 2 ^ 53 -> -1074 <= e <= 971 ->
  valid_binary (binary_round prec emax s r e) = true.
Proof.
  intros Hr He. unfold binary_round.
  destruct (shl_align_spec r e (fexp (Zpos (digits2_pos r) + e))) as [Ez Em].
  destruct (shl_align _ _ _) as [mz ez]. simpl in Ez, Em.
  pose proof (Zdigits2_le (Zpos r) 53 ltac:(lia) ltac:(lia)) as Hd. simpl in Hd.
  assert (Hfe : fexp (Zpos (digits2_pos r) + e) = ez)
    by (rewrite fexp_eq in *; lia).
  assert (Hdig : Zpos (digits2_pos mz) + ez = Zpos (digits2_pos r) + e).
  { change (Zpos (digits2_pos mz)) with (Zdigits2 (Zpos mz)).
    rewrite <- Ez in Em. rewrite Em, Zdigits2_shift by lia. simpl. lia. }
  assert (Hmz : Zpos mz < 2 ^ 53).
  { destruct (digits2_pos_bounds mz) as [_ Hhi].
    assert (2 ^ Zpos (digits2_pos mz) <= 2 ^ 53)
      by (apply Z.pow_le_mono_r; rewrite fexp_eq in Hfe; lia).
    lia. }
  assert (Hez : -1074 <= ez <= 971) by (rewrite fexp_eq in Hfe; lia).
  unfold binary_round_aux. rewrite shr_fexp_small by lia. simpl shr_m.
  simpl round_nearest_even. rewrite shr_fexp_small by lia. simpl shr_m.
  change (emax - prec) with 971. destruct (Z.leb_spec ez 971); [|lia].
  unfold valid_binary, bounded, canonical_mantissa.
  rewrite Hdig, Hfe, Z.eqb_refl. change (emax - prec) with 971.
  now apply Z.leb_le.
Qed.

(** [fmod] by [PI + PI] of a positive finite number: a double, and at
    most the double just below [PI + PI]. *)
Lemma SFfmod_2pi (mv : positive) (ev : Z) :
  is_double_mag (Zpos mv) ev ->
  let r := SFfmod (S754_finite false mv ev)
                  (S754_finite false 7074237752028440 (-50)) in
  valid_binary r = true /\ mag_le r false 7074237752028439 (-50).
Proof.
  intros (Hm & He & _). unfold SFfmod. cbv zeta.
  destruct (shl_align_spec mv ev (Z.min ev (-50))) as [_ Ex].
  destruct (shl_align_spec 7074237752028440 (-50) (Z.min ev (-50))) as [_ Ey].
  replace (Z.min ev (Z.min ev (-50))) with (Z.min ev (-50)) in Ex by lia.
  replace (Z.min (-50) (Z.min ev (-50))) with (Z.min ev (-50)) in Ey by lia.
  set (ez := Z.min ev (-50)) in *.
  set (ax := Zpos (fst (shl_align mv ev ez))) in *.
  set (ay := Zpos (fst (shl_align 7074237752028440 (-50) ez))) in *.
  assert (Hay : 0 < ay) by (unfold ay; lia).
  assert (Hax : 0 <= ax) by (unfold ax; lia).
  pose proof (Z.mod_pos_bound ax ay Hay) as Hrem.
  pose proof (Z.mod_le ax ay Hax Hay) as Hle.
  destruct (ax mod ay) as [|r|r] eqn:Er; [split; [reflexivity|now left]| |lia].
  assert (Hez : ez = ev /\ ev <= -50 \/ ez = -50 /\ -50 < ev) by lia.
  assert (Hmax : is_double_mag 7074237752028439 (-50)) by (unfold is_double_mag; lia).
  destruct Hez as [[Ez Hev]|[Ez Hev]]; rewrite Ez in *.
  - rewrite Z.sub_diag, Z.pow_0_r, Z.mul_1_r in Ex.
    split.
    + apply binary_round_small_valid; lia.
    + apply round_le with (b := -1074); try assumption; try lia.
      change (-50 - -1074) with 1024.
      destruct (Z.eq_dec ev (-50)) as [->|Hne].
      * change (-50 - -50) with 0 in Ey. rewrite Z.pow_0_r, Z.mul_1_r in Ey.
        change (-50 - -1074) with 1024. lia.
      * assert (2 ^ (ev - -1074) <= 2 ^ 1023) by (apply Z.pow_le_mono_r; lia).
        assert (0 < 2 ^ (ev - -1074)) by (apply Z.pow_pos_nonneg; lia).
        assert (2 * Zpos r * 2 ^ (ev - -1074) < 2 ^ 54 * 2 ^ 1023) by nia.
        lia.
  - rewrite Z.sub_diag, Z.pow_0_r, Z.mul_1_r in Ey.
    split.
    + apply binary_round_small_valid; lia.
    + apply round_le with (b := -1074); try assumption; try lia.
Qed.

End Degrees.

(** ** The stored pair of a matched epoch *)

Lemma fmod_2pi_range (v : float) :
  (0 <=? v) = true -> (v <? infinity) = true ->
  (exists s, Prim2SF (fmod v (PI + PI)) = S754_zero s) \/
  F64.mag_le (Prim2SF (fmod v (PI + PI))) false 7074237752028439 (-50) /\
  exists m e, Prim2SF (fmod v (PI + PI)) = S754_finite false m e.
Proof.
  rewrite FloatAxioms.leb_spec, FloatAxioms.ltb_spec. unfold fmod.
  change (Prim2SF (PI + PI)) with (S754_finite false 7074237752028440 (-50)).
  change (Prim2SF 0) with (S754_zero false).
  change (Prim2SF infinity) with (S754_infinity false).
  pose proof (Prim2SF_valid v) as Hv.
  destruct (Prim2SF v) as [s|[|]| |[|] m e]; try discriminate; intros _ _.
  - left. exists s. now rewrite Prim2SF_SF2Prim.
  - destruct (Degrees.SFfmod_2pi m e (Round.valid_finite _ _ _ Hv)) as [Hval Hle].
    rewrite Prim2SF_SF2Prim by exact Hval.
    destruct Hle as [E|(m3 & e3 & E & Hlex)].
    + left. exists false. exact E.
    + right. split; [right; exists m3, e3; auto|]. exists m3, e3. exact E.
Qed.

Lemma leb_finite_neg (m p : positive) (e ey : Z) :
  SFleb (S754_finite true p ey) (S754_finite true m e) = true ->
  (e < ey \/ (e = ey /\ Zpos m <= Zpos p))%Z.
Proof.
  unfold SFleb. simpl. destruct (Z.compare_spec ey e); try discriminate; [|lia].
  change (Pos.compare_cont Eq p m) with (p ?= m)%positive.
  destruct (Pos.compare_spec p m); simpl; try discriminate; lia.
Qed.

(** The right ascension stored for a match is in [0, 360) when
    [ra + 10 PI] is a number that is not negative. *)
Lemma matched_ra_in_range (ra : float) :
  (0 <=? ra + PI * 10) = true -> (ra + PI * 10 <? infinity) = true ->
  Spec.ra_in_range (matched_ra ra) = true.
Proof.
  intros H0 Hfin. unfold matched_ra, Spec.ra_in_range.
  set (r := fmod (ra + PI * 10) (PI + PI)).
  assert (Hq : exists s, Prim2SF (r * 180 / PI) = S754_zero s \/
               F64.mag_le (Prim2SF (r * 180 / PI)) false 6333186975989759 (-44)).
  { destruct (fmod_2pi_range _ H0 Hfin) as [[s E]|[Hle (m & e & E)]]; fold r in E |- *.
    - exists s. left. rewrite div_spec, mul_spec, E. now destruct s.
    - exists false. right. fold r in Hle. rewrite E in Hle.
      destruct Hle as [?|(m3 & e3 & [= <- <-] & Hlex)]; [discriminate|].
      apply (Degrees.to_degrees_mag_le r false m e 7074237752028439 (-50)
               4974073419394996 (-42) 6333186975989759 (-44) E);
        try assumption; unfold F64.is_double_mag; try lia; reflexivity. }
  rewrite FloatAxioms.leb_spec, FloatAxioms.ltb_spec.
  change (Prim2SF 0) with (S754_zero false).
  change (Prim2SF 360) with (S754_finite false 6333186975989760 (-44)).
  destruct Hq as (s & [E|Hle]).
  - rewrite E. reflexivity.
  - rewrite (Round.mag_le_ltb _ _ 6333186975989760 _ Hle) by lia.
    destruct Hle as [->|(m3 & e3 & -> & _)]; reflexivity.
Qed.

(** The declination stored for a match is in [-90, 90] when the
    apparent declination is in [-PI/2, PI/2]. *)
Lemma matched_dec_in_range (dec : float) :
  (- (PI / 2) <=? dec) = true -> (dec <=? PI / 2) = true ->
  Spec.dec_in_range (matched_dec dec) = true.
Proof.
  unfold matched_dec, Spec.dec_in_range.
  rewrite !FloatAxioms.leb_spec.
  change (Prim2SF (- (PI / 2))) with (S754_finite true 7074237752028440 (-52)).
  change (Prim2SF (PI / 2)) with (S754_finite false 7074237752028440 (-52)).
  change (Prim2SF (-90)) with (S754_finite true 6333186975989760 (-46)).
  change (Prim2SF 90) with (S754_finite false 6333186975989760 (-46)).
  destruct (Prim2SF dec) as [s|[|]| |s m e] eqn:E; try discriminate.
  - intros _ _. rewrite div_spec, mul_spec, E. now destruct s.
  - intros Hlo Hhi.
    assert (Hlex : (e < -52 \/ (e = -52 /\ Zpos m <= 7074237752028440))%Z).
    { destruct s; [apply leb_finite_neg in Hlo|apply Round.leb_finite in Hhi];
        assumption. }
    assert (Hq : F64.mag_le (Prim2SF (dec * 180 / PI)) s 6333186975989760 (-46)).
    { apply (Degrees.to_degrees_mag_le dec s m e 7074237752028440 (-52)
               4974073419394997 (-44) 6333186975989760 (-46) E);
        try assumption; unfold F64.is_double_mag; try lia; reflexivity. }
    destruct s.
    + rewrite (Round.mag_le_geb_neg _ _ _ Hq).
      destruct Hq as [->|(m3 & e3 & -> & _)]; reflexivity.
    + rewrite (Round.mag_le_leb _ _ _ Hq).
      destruct Hq as [->|(m3 & e3 & -> & _)]; reflexivity.
Qed.

(** Where the ranges do hold.  For a matched epoch, the stored right
    ascension lies in [0, 360) when the apparent right ascension is
    not below -10 PI ([ra + PI * 10] is a number that is not
    negative), and the stored declination lies in [-90, 90] when the
    apparent declination lies in [-PI/2, PI/2]. *)
Theorem matched_slot_in_range `{SatCode} (fuel : nat) (inp : Inputs.t)
    (t : tle_t) (out : Outputs.t) (i : nat) (f : frame)
    (ra dec radius : float) :
  calc_sat fuel inp t = Some out -> (i < 2)%nat ->
  entry fuel i inp t = Some f ->
  epoch_view fuel i f = Some (ra, dec, radius) ->
  (radius <? Inputs.search_radius inp) = true ->
  ((0 <=? ra + PI * 10) = true -> (ra + PI * 10 <? infinity) = true ->
   Spec.ra_in_range (fst (Outputs.slot out i)) = true) /\
  ((- (PI / 2) <=? dec) = true -> (dec <=? PI / 2) = true ->
   Spec.dec_in_range (snd (Outputs.slot out i)) = true).
Proof.
  intros Hc Hi He Hv Hm.
  destruct (slot_of_result _ _ _ _ _ Hc Hi) as (f' & ra' & dec' & r' & He' & Hv' & Hs).
  rewrite He in He'. injection He' as <-.
  rewrite Hv in Hv'. injection Hv' as <- <- <-.
  rewrite Hm in Hs. rewrite Hs. simpl. split.
  - apply matched_ra_in_range.
  - apply matched_dec_in_range.
Qed.

(** The claim of the range fails for all apparent positions: a
    transform that returns a right ascension of -40 radians, below
    -10 PI, with a search radius wide enough to match, stores about
    -131.8 degrees. *)
Lemma matched_ra_out_of_range : ~ matched_in_range.
Proof.
  intros Hr.
  destruct (Hr (toy (sky_fixed (-40) 0) 0 id) 3%nat
               (Inputs.with_search_radius Inputs.default 4000) tle0
               (Outputs.mk (-131.83118052329291, -131.83118052329291) (0, 0))
               0%nat
               (enter (Inputs.with_search_radius Inputs.default 4000) tle0)
               (-40) 0 1662.1019440935149)
    as [Hra _]; try (vm_compute; reflexivity); [lia|].
  vm_compute in Hra. discriminate.
Qed.

(** * The claims *)

(** C1.  The pair [calc_sat] reports for epoch [i] is the apparent
    position that iteration [i] computed, with the right ascension
    reduced by [fmod (ra + PI * 10) (PI + PI)] and both angles in
    degrees, if the offset is strictly below the search radius; it is
    the initial pair (0, 0) otherwise.  [calc_sat] returns exactly
    when neither loop is entered above 2^56. *)
Theorem calc_sat_reports_match_or_sentinel `{SatCode} (inp : Inputs.t)
    (t : tle_t) :
  (wrap_bounded inp t <-> exists fuel out, calc_sat fuel inp t = Some out) /\
  forall fuel out i,
    calc_sat fuel inp t = Some out -> (i < 2)%nat ->
    exists f ra dec radius,
      entry fuel i inp t = Some f /\
      epoch_view fuel i f = Some (ra, dec, radius) /\
      Outputs.slot out i =
        if radius <? Inputs.search_radius inp
        then (matched_ra ra, matched_dec dec)
        else (0, 0).
Proof.
  split; [symmetry; apply calc_sat_returns_iff|].
  intros fuel out i. apply slot_of_result.
Qed.

Lemma calc_sat_reports_match_or_sentinel_witness :
  (exists fuel out, @calc_sat lib0 fuel Inputs.default tle0 = Some out) /\
  exists f ra dec radius,
    @entry lib0 5 0 Inputs.default tle0 = Some f /\
    @epoch_view lib0 5 0 f = Some (ra, dec, radius) /\
    Outputs.slot out0 0 =
      if radius <? Inputs.search_radius Inputs.default
      then (matched_ra ra, matched_dec dec)
      else (0, 0).
Proof.
  destruct (@calc_sat_reports_match_or_sentinel lib0 Inputs.default tle0)
    as [Hret Hslot].
  split.
  - apply Hret. split; vm_compute; reflexivity.
  - apply Hslot; [vm_compute; reflexivity|lia].
Defined.

(** The scenario of the specification: one degree off in both
    coordinates at the first epoch, forty degrees away at the second. *)
Lemma scenario_near_then_far :
  @calc_sat lib0 5 Inputs.default tle0 = Some out0.
Proof. vm_compute. reflexivity. Qed.

Lemma offset_is_planar_witness :
  exists f ra dec dist d_ra,
    @entry lib0 5 0 Inputs.default tle0 = Some f /\
    snd (@apparent lib0 0 f) = (ra, dec, dist) /\
    Spec.wraps (ra - Inputs.target_ra Inputs.default * (PI / 180) + PI * 4) d_ra /\
    let d_dec := dec - Inputs.target_dec Inputs.default * (PI / 180) in
    Outputs.slot out0 0 =
      if Spec.planar_offset_deg d_ra d_dec <? Inputs.search_radius Inputs.default
      then (matched_ra ra, matched_dec dec)
      else (0, 0).
Proof.
  apply (proj1 offset_is_planar lib0 5%nat Inputs.default tle0 out0 0%nat);
    [vm_compute; reflexivity|lia].
Defined.

Lemma wrap_bounds_above_only_witness :
  exists f ra dec dist d_ra,
    @entry lib0 5 0 Inputs.default tle0 = Some f /\
    snd (@apparent lib0 0 f) = (ra, dec, dist) /\
    Spec.wraps (ra - Inputs.target_ra Inputs.default * (PI / 180) + PI * 4) d_ra /\
    (PI <? d_ra) = false /\
    ((d_ra =? d_ra) = true -> (d_ra <=? PI) = true) /\
    Outputs.slot out0 0 =
      if radius_of d_ra (dec - Inputs.target_dec Inputs.default * (PI / 180))
         <? Inputs.search_radius Inputs.default
      then (matched_ra ra, matched_dec dec)
      else (0, 0).
Proof.
  apply (proj1 wrap_bounds_above_only lib0 5%nat Inputs.default tle0 out0 0%nat);
    [vm_compute; reflexivity|lia].
Defined.

Lemma matched_slot_in_range_witness :
  Spec.ra_in_range (fst (Outputs.slot out0 0)) = true /\
  Spec.dec_in_range (snd (Outputs.slot out0 0)) = true.
Proof.
  destruct (@matched_slot_in_range lib0 5 Inputs.default tle0 out0 0
              (enter Inputs.default tle0)
              1.5882496193148399 0.54105206811824214 1.4142135623731242)
    as [Hra Hdec]; try (vm_compute; reflexivity); [lia|].
  split; [apply Hra|apply Hdec]; vm_compute; reflexivity.
Defined.

(** C5.  With a search radius that is zero or negative no epoch
    matches: the offset is a square root scaled by positive constants,
    so it is never below such a radius, and whatever [calc_sat] returns
    is the initial (0, 0) at both epochs; it returns it exactly when
    neither loop is entered above 2^56. *)
Theorem nonpositive_radius_never_matches `{SatCode} (inp : Inputs.t)
    (t : tle_t) :
  (Inputs.search_radius inp <=? 0) = true ->
  (wrap_bounded inp t <->
   exists fuel, calc_sat fuel inp t = Some Outputs.default) /\
  forall fuel out, calc_sat fuel inp t = Some out -> out = Outputs.default.
Proof.
  intros Hsr.
  assert (Hall : forall fuel out,
             calc_sat fuel inp t = Some out -> out = Outputs.default).
  { intros fuel out Hc.
    destruct (slot_of_result _ _ _ _ 0%nat Hc)
      as (f0 & ra0 & dec0 & r0 & _ & V0 & S0); [lia|].
    destruct (slot_of_result _ _ _ _ 1%nat Hc)
      as (f1 & ra1 & dec1 & r1 & _ & V1 & S1); [lia|].
    assert (R : forall n i f ra dec r, epoch_view n i f = Some (ra, dec, r) ->
                (r <? Inputs.search_radius inp) = false).
    { intros n i f ra dec r. unfold epoch_view.
      destruct (apparent i f) as [g [[ra' dec'] dist]]. unfold offset_deg.
      destruct (wrap_d_ra _ _) as [d|]; [|discriminate]. simpl.
      intros [= _ _ <-]. now apply radius_of_not_below. }
    rewrite (R _ _ _ _ _ _ V0) in S0. rewrite (R _ _ _ _ _ _ V1) in S1.
    destruct out as [[a0 a1] [d0 d1]]. unfold Outputs.slot in S0, S1.
    simpl in S0, S1. injection S0 as -> ->. injection S1 as -> ->. reflexivity. }
  split; [|exact Hall]. split.
  - intros Hb. destruct (calc_sat_returns inp t Hb) as (fuel & out & Hc).
    exists fuel. now rewrite <- (Hall _ _ Hc).
  - intros (fuel & Hc). apply calc_sat_returns_iff. eauto.
Qed.

Lemma nonpositive_radius_never_matches_witness :
  (exists fuel,
     @calc_sat (toy (sky_fixed (90 * (PI / 180)) (30 * (PI / 180))) 0 id) fuel
        (Inputs.with_search_radius Inputs.default 0) tle0
     = Some Outputs.default) /\
  Outputs.default = Outputs.default.
Proof.
  destruct (@nonpositive_radius_never_matches
              (toy (sky_fixed (90 * (PI / 180)) (30 * (PI / 180))) 0 id)
              (Inputs.with_search_radius Inputs.default 0) tle0)
    as [Hret Hall]; [vm_compute; reflexivity|].
  split.
  - apply Hret. split; vm_compute; reflexivity.
  - apply (Hall 5%nat). vm_compute. reflexivity.
Defined.

(** C6.  [calc_sat] is a function of the request and the element set:
    two runs on requests that agree on the site, the epochs, the target
    and the search radius return the same result, whatever the scratch
    fields of [Inputs] hold on entry and however many loop iterations
    each run was allowed; and a call leaves nothing behind that a
    second call on the same objects could see. *)
Theorem calc_sat_deterministic `{SatCode} :
  (forall (n m : nat) (a b : Inputs.t) (t : tle_t) (out out' : Outputs.t),
     Spec.same_request a b ->
     calc_sat n a t = Some out -> calc_sat m b t = Some out' -> out = out') /\
  (forall (n m : nat) (σ σ1 σ2 : gmap positive Call.object)
          (p_inputs p_tle : positive) (o1 o2 : Outputs.t),
     Call.invoke n σ p_inputs p_tle = Some (σ1, o1) ->
     Call.invoke m σ1 p_inputs p_tle = Some (σ2, o2) -> o1 = o2).
Proof.
  split; [apply same_request_same_result|].
  intros n m σ σ1 σ2 p_inputs p_tle o1 o2 H1 H2.
  destruct (invoke_spec _ _ _ _ _ _ H1) as (-> & a & t & Ea & Et & C1).
  destruct (invoke_spec _ _ _ _ _ _ H2) as (_ & a' & t' & Ea' & Et' & C2).
  rewrite Ea in Ea'. injection Ea' as <-. rewrite Et in Et'. injection Et' as <-.
  apply (same_request_same_result _ _ _ _ _ _ _ (proj2 (same_request_fields a a) eq_refl) C1 C2).
Qed.

Lemma calc_sat_deterministic_witness :
  out0 = out0.
Proof.
  apply (proj1 (@calc_sat_deterministic lib0) 5%nat 9%nat Inputs.default
           (Inputs.with_header_line_shown (Inputs.with_rho Inputs.default 7 7) 1)
           tle0 out0 out0).
  - repeat split.
  - vm_compute. reflexivity.
  - vm_compute. reflexivity.
Defined.

Lemma calc_sat_swap_witness :
  @calc_sat lib0 5 (Spec.swap_epochs Inputs.default) tle0
  = Some (Spec.swap_slots out0).
Proof.
  apply (@calc_sat_swap lib0 5 Inputs.default tle0 out0).
  - repeat split.
  - vm_compute. reflexivity.
Defined.

(** Without that proviso the exchange can fail: with propagators that
    move the element set's epoch on, the second iteration sees what
    the first one left, and both orders of the epochs report the same
    pair in the same slot. *)
Lemma swap_needs_tle_const :
  @calc_sat (toy sky_by_elapsed 0 next_day) 5 Inputs.default tle0
  = @calc_sat (toy sky_by_elapsed 0 next_day) 5
      (Spec.swap_epochs Inputs.default) tle0 /\
  @calc_sat (toy sky_by_elapsed 0 next_day) 5 Inputs.default tle0
  = Some (Outputs.mk (0, 90.999999999999829) (0, 31)).
Proof. split; vm_compute; reflexivity. Qed.

(** C9.  A call of [calc_sat] leaves the caller's element set as it
    was, like every other object of the caller, whatever the routines
    wrote through the pointer to the copy; the result is what
    [calc_sat] computes from the values of the caller's objects. *)
Theorem invoke_leaves_caller_objects `{SatCode} (fuel : nat)
    (σ σ' : gmap positive Call.object) (p_inputs p_tle : positive)
    (out : Outputs.t) :
  Call.invoke fuel σ p_inputs p_tle = Some (σ', out) ->
  σ' !! p_tle = σ !! p_tle /\ σ' = σ /\
  exists a t, σ !! p_inputs = Some (Call.OInputs a) /\
              σ !! p_tle = Some (Call.OTle t) /\
              calc_sat fuel a t = Some out.
Proof.
  intros Hi. destruct (invoke_spec _ _ _ _ _ _ Hi) as (-> & Hrest).
  split; [reflexivity|]. split; [reflexivity|]. exact Hrest.
Qed.

Lemma invoke_leaves_caller_objects_witness :
  store0 !! 2%positive = store0 !! 2%positive /\ store0 = store0 /\
  exists a t, store0 !! 1%positive = Some (Call.OInputs a) /\
              store0 !! 2%positive = Some (Call.OTle t) /\
              @calc_sat (toy sky_near_then_far 0 next_day) 5 a t = Some out0.
Proof.
  apply (@invoke_leaves_caller_objects (toy sky_near_then_far 0 next_day)
           5 store0 store0 1%positive 2%positive out0).
  vm_compute. reflexivity.
Defined.

(** * The accessors of the binding *)

Section BindingFacts.
Import Binding.

(** ** The arrays of [Inputs] and [Outputs] *)

Lemma with_jd_same (self : Inputs.t) :
  Inputs.with_jd self (Inputs.jd self) = self.
Proof. now destruct self. Qed.

(** A copy of two doubles from [data()] on: it returns the double at
    [data()] and the one that follows it in memory, or it reads past
    the end of the buffer. *)
Lemma memcpy_two (dst : arr2) (arr : array_t) :
  match memcpy dst arr 2 with
  | Returns p =>
      buffer arr !! data arr = Some (fst p) /\
      buffer arr !! S (data arr) = Some (snd p)
  | Throws _ => False
  | Undefined => (length (buffer arr) < data arr + 2)%nat
  end.
Proof.
  unfold memcpy.
  pose proof (length_drop (buffer arr) (data arr)) as Hl.
  pose proof (lookup_drop (buffer arr) (data arr) 0) as H0.
  pose proof (lookup_drop (buffer arr) (data arr) 1) as H1.
  rewrite Nat.add_0_r in H0. rewrite Nat.add_1_r in H1.
  destruct (drop (data arr) (buffer arr)) as [|x [|y r]]; simpl in *;
    try lia. now split.
Qed.

Lemma element_contiguous (arr : array_t) (k : nat) :
  stride arr = 1%Z -> element arr k = buffer arr !! (data arr + k)%nat.
Proof.
  intros Hs. unfold element. rewrite Hs, Z.mul_1_r, <- Nat2Z.inj_add.
  destruct (Z.ltb_spec (Z.of_nat (data arr + k)) 0); [lia|].
  now rewrite Nat2Z.id.
Qed.

(** The elements of a contiguous array of two: the double at [data()]
    and the one that follows it. *)
Lemma to_list_contiguous (arr : array_t) (x y : float) :
  size arr = 2%nat -> stride arr = 1%Z ->
  buffer arr !! data arr = Some x -> buffer arr !! S (data arr) = Some y ->
  to_list arr = Some [x; y].
Proof.
  intros Hn Hs Hx Hy. unfold to_list. rewrite Hn. cbn [seq mapM].
  rewrite !(element_contiguous _ _ Hs), Nat.add_0_r, Nat.add_1_r, Hx, Hy.
  reflexivity.
Qed.

(** [set_jd_array] throws "Array must have exactly 2 elements" for an
    array of any other size and stores nothing.  For an array of two
    elements it copies the two doubles that lie in memory from [data()]
    on into [jd], changes no other field, and [get_jd_array] then
    returns these two.  They are the elements of the array when it is
    contiguous.  When it is not, the second one is not an element, and
    the copy reads past the end of the buffer when the first element is
    the last double of it: from the view [a[::2]] of 1, 2, 3, whose
    elements are 1 and 3, the call stores 1 and 2, and from the
    reversed view of 1, 2 it reads outside the array.  Storing what
    [get_jd_array] returns changes nothing. *)
Theorem set_jd_array_round_trip (self : Inputs.t) (arr : array_t) :
  match set_jd_array self arr with
  | Returns self' =>
      size arr = 2%nat /\
      exists x y,
        buffer arr !! data arr = Some x /\
        buffer arr !! S (data arr) = Some y /\
        self' = Inputs.with_jd self (x, y) /\
        to_list (get_jd_array self') = Some [x; y] /\
        (stride arr = 1%Z -> to_list arr = Some [x; y])
  | Throws what =>
      size arr <> 2%nat /\
      what = "Array must have exactly 2 elements"%string
  | Undefined =>
      size arr = 2%nat /\ (length (buffer arr) < data arr + 2)%nat
  end /\
  set_jd_array self (get_jd_array self) = Returns self /\
  (to_list (mk_array [1; 2; 3] 0 2 2) = Some [1; 3] /\
   set_jd_array self (mk_array [1; 2; 3] 0 2 2)
   = Returns (Inputs.with_jd self (1, 2))) /\
  (to_list (mk_array [1; 2] 1 2 (-1)) = Some [2; 1] /\
   set_jd_array self (mk_array [1; 2] 1 2 (-1)) = Undefined).
Proof.
  split; [|split; [|split; split; reflexivity]].
  - unfold set_jd_array. destruct (size arr =? 2)%nat eqn:E.
    + apply Nat.eqb_eq in E. cbn [negb].
      pose proof (memcpy_two (Inputs.jd self) arr) as Hm.
      destruct (memcpy (Inputs.jd self) arr 2) as [[x y]| |];
        cbn [mbind outcome_bind]; [|contradiction|now split].
      destruct Hm as [Hx Hy]. split; [exact E|]. exists x, y.
      split; [exact Hx|]. split; [exact Hy|]. split; [reflexivity|].
      split; [reflexivity|]. intros Hs. now apply to_list_contiguous.
    + apply Nat.eqb_neq in E. now split.
  - unfold set_jd_array, get_jd_array, array_of. simpl.
    destruct (Inputs.jd self) as [x y] eqn:E. simpl.
    rewrite <- E. now rewrite with_jd_same.
Qed.


(** ** The [char] fields of [tle_t] *)

(** Reading [classification] after setting it returns a string of one
    character, the first of the value set, or the null character when
    that value is the empty string; so the value is read back as it was
    set exactly when it is one character long.  Setting the field to
    what the getter returns changes nothing.  The same holds for
    [ephemeris_type]. *)
Theorem char_field_round_trip (t : tle_t) (value : list Z) :
  (get_classification (set_classification t value) = [front value] /\
   (get_classification (set_classification t value) = value
    <-> length value = 1%nat) /\
   set_classification t (get_classification t) = t) /\
  (get_ephemeris_type (set_ephemeris_type t value) = [front value] /\
   (get_ephemeris_type (set_ephemeris_type t value) = value
    <-> length value = 1%nat) /\
   set_ephemeris_type t (get_ephemeris_type t) = t).
Proof.
  split; (split; [reflexivity|]; split; [|now destruct t]).
  - destruct value as [|c [|c' value]]; simpl; split;
      intros E; try discriminate; reflexivity.
  - destruct value as [|c [|c' value]]; simpl; split;
      intros E; try discriminate; reflexivity.
Qed.

(** ** [intl_desig] *)

Lemma c_string_no_nul (s : list Z) : Forall (fun c => c <> 0%Z) (c_string s).
Proof.
  induction s as [|c s IH]; simpl; [constructor|].
  destruct (Z.eqb_spec c 0); [constructor|]. now constructor.
Qed.

Lemma c_string_id (s : list Z) :
  Forall (fun c => c <> 0%Z) s -> c_string s = s.
Proof.
  induction 1 as [|c s Hc _ IH]; simpl; [reflexivity|].
  destruct (Z.eqb_spec c 0); [contradiction|]. now rewrite IH.
Qed.

Lemma c_string_fixed (s : list Z) :
  c_string s = s <-> Forall (fun c => c <> 0%Z) s.
Proof.
  split; [|apply c_string_id]. intros <-. apply c_string_no_nul.
Qed.

Lemma c_string_padded (s : list Z) (k : nat) :
  Forall (fun c => c <> 0%Z) s -> c_string (s ++ replicate k 0%Z) = s.
Proof.
  induction 1 as [|c s Hc _ IH]; simpl.
  - now destruct k.
  - destruct (Z.eqb_spec c 0); [contradiction|]. now rewrite IH.
Qed.

(** [strncpy] in terms of the C string it copies. *)
Lemma strncpy_c_string (value : list Z) (n : nat) :
  strncpy value n
  = take n (c_string value)
    ++ replicate (n - length (take n (c_string value))) 0%Z.
Proof.
  revert value. induction n as [|n IH]; intros value.
  - reflexivity.
  - destruct value as [|c value]; [reflexivity|]. cbn [strncpy c_string].
    destruct (Z.eqb_spec c 0); [reflexivity|].
    rewrite IH. reflexivity.
Qed.

Lemma terminated_strncpy (value : list Z) :
  <[8%nat := 0%Z]> (strncpy value 9) = stored_desig value.
Proof.
  rewrite strncpy_c_string. unfold stored_desig.
  generalize (c_string value). intros c.
  do 9 (destruct c as [|? c]; [reflexivity|]). reflexivity.
Qed.

Lemma stored_desig_length (value : list Z) : length (stored_desig value) = 9%nat.
Proof.
  unfold stored_desig. rewrite length_app, length_replicate.
  pose proof (length_take_le (c_string value) 8).
  destruct (le_lt_dec 8 (length (c_string value))).
  - rewrite length_take_le by lia. reflexivity.
  - rewrite take_ge by lia. lia.
Qed.

Lemma set_intl_desig_stored (t : tle_t) (value : list Z) :
  length (intl_desig t) = 9%nat ->
  set_intl_desig t value = Returns (with_intl_desig t (stored_desig value)).
Proof.
  intros Ht. unfold set_intl_desig. rewrite Ht.
  rewrite drop_ge by lia. rewrite app_nil_r, terminated_strncpy. reflexivity.
Qed.

(** After [intl_desig] was set, the buffer holds the characters of the
    value before its first null character, at most eight of them, and
    null characters in all the places after them: nothing of what the
    buffer held before is left, its last place holds the null
    character, and the getter returns these nine characters. *)
Theorem set_intl_desig_terminates (t : tle_t) (value : list Z) :
  length (intl_desig t) = 9%nat ->
  exists t' d,
    set_intl_desig t value = Returns t' /\
    get_intl_desig t' = Returns d /\
    d = take 8 (c_string value)
        ++ replicate (9 - length (take 8 (c_string value))) 0%Z /\
    length d = 9%nat /\ d !! 8%nat = Some 0%Z /\
    t' = with_intl_desig t d.
Proof.
  intros Ht. exists (with_intl_desig t (stored_desig value)), (stored_desig value).
  pose proof (stored_desig_length value) as Hl.
  split; [now apply set_intl_desig_stored|].
  split; [|split; [reflexivity|split; [assumption|split; [|reflexivity]]]].
  - unfold get_intl_desig. simpl. rewrite Hl. simpl.
    now rewrite take_ge by lia.
  - unfold stored_desig.
    pose proof (length_take_le (c_string value) 8).
    destruct (le_lt_dec 8 (length (c_string value))).
    + rewrite lookup_app_r by (rewrite length_take_le; lia).
      rewrite length_take_le by lia. reflexivity.
    + rewrite take_ge by lia. rewrite lookup_app_r by lia.
      apply lookup_replicate_2. lia.
Qed.

(** The designator read back as a C string is the value cut at its
    first null character and at eight characters; it is the value that
    was set exactly when that value has at most eight characters and no
    null character among them.  Setting the field to the nine characters
    the getter returned stores them again. *)
Theorem intl_desig_round_trip (t : tle_t) (value : list Z) :
  length (intl_desig t) = 9%nat ->
  exists t' d,
    set_intl_desig t value = Returns t' /\
    get_intl_desig t' = Returns d /\
    c_string d = take 8 (c_string value) /\
    (c_string d = value <->
     (length value <= 8)%nat /\ Forall (fun c => c <> 0%Z) value) /\
    set_intl_desig t' d = Returns t'.
Proof.
  intros Ht. exists (with_intl_desig t (stored_desig value)), (stored_desig value).
  pose proof (stored_desig_length value) as Hl.
  assert (Hc : c_string (stored_desig value) = take 8 (c_string value)).
  { unfold stored_desig. apply c_string_padded.
    apply Forall_take, c_string_no_nul. }
  split; [now apply set_intl_desig_stored|].
  split; [|split; [assumption|split]].
  - unfold get_intl_desig. simpl. rewrite Hl. simpl.
    now rewrite take_ge by lia.
  - rewrite Hc. split.
    + intros E.
      assert (Hn : Forall (fun c => c <> 0%Z) value).
      { rewrite <- E. apply Forall_take, c_string_no_nul. }
      split; [|assumption].
      rewrite <- E at 1. rewrite length_take. lia.
    + intros [Hle Hn]. rewrite (c_string_id _ Hn). apply take_ge. lia.
  - rewrite set_intl_desig_stored by (simpl; assumption).
    f_equal. destruct t; unfold with_intl_desig; simpl. f_equal.
    unfold stored_desig at 1. rewrite Hc.
    rewrite take_take. simpl. reflexivity.
Qed.

End BindingFacts.

(** * Further properties of [calc_sat] *)

(** ** The order of [double] *)

Module Order.

Lemma SFcompare_refl (x : spec_float) :
  SFcompare x x = None \/ SFcompare x x = Some Eq.
Proof.
  destruct x as [s|s| |s m e]; simpl; try (now destruct s; right); [now left|].
  right. rewrite Z.compare_refl, Pos.compare_cont_refl. now destruct s.
Qed.

Lemma pos_lt_trans_cont (a b c : positive) :
  Pos.compare_cont Eq a b = Lt ->
  Pos.compare_cont Eq b c <> Gt ->
  Pos.compare_cont Eq a c = Lt.
Proof.
  change (Pos.compare_cont Eq) with Pos.compare. intros H1 H2.
  apply Pos.compare_lt_iff. apply Pos.lt_le_trans with b; [|exact H2].
  now apply Pos.compare_lt_iff.
Qed.

Lemma pos_gt_trans_cont (a b c : positive) :
  Pos.compare_cont Eq a b = Gt ->
  Pos.compare_cont Eq b c <> Lt ->
  Pos.compare_cont Eq a c = Gt.
Proof.
  change (Pos.compare_cont Eq) with Pos.compare. intros H1 H2.
  apply Pos.compare_gt_iff. apply Pos.le_lt_trans with b.
  - apply Pos.compare_ge_iff. exact H2.
  - now apply Pos.compare_gt_iff.
Qed.

(** [x < y] and [y <= z] give [x < z], on the specification level. *)
Lemma SFltb_leb_trans (x y z : spec_float) :
  SFltb x y = true -> SFleb y z = true -> SFltb x z = true.
Proof.
  unfold SFltb, SFleb.
  destruct x as [sx|sx| |sx mx ex], y as [sy|sy| |sy my ey],
           z as [sz|sz| |sz mz ez]; simpl;
    try destruct sx; try destruct sy; try destruct sz;
    try discriminate; try reflexivity.
  - destruct (Z.compare_spec ex ey), (Z.compare_spec ey ez),
      (Z.compare_spec ex ez); try discriminate; try reflexivity; try lia.
    subst. intros Hxy Hyz.
    destruct (Pos.compare_cont Eq mx my) eqn:E1; try discriminate.
    destruct (Pos.compare_cont Eq my mz) eqn:E2; try discriminate;
      (rewrite (pos_gt_trans_cont mx my mz E1); [reflexivity|congruence]).
  - destruct (Z.compare_spec ex ey), (Z.compare_spec ey ez),
      (Z.compare_spec ex ez); try discriminate; try reflexivity; try lia.
    subst. intros Hxy Hyz.
    destruct (Pos.compare_cont Eq mx my) eqn:E1; try discriminate.
    destruct (Pos.compare_cont Eq my mz) eqn:E2; try discriminate;
      (rewrite (pos_lt_trans_cont mx my mz E1); [reflexivity|congruence]).
Qed.

End Order.

Lemma ltb_leb_trans (x y z : float) :
  (x <? y) = true -> (y <=? z) = true -> (x <? z) = true.
Proof.
  rewrite !FloatAxioms.ltb_spec, FloatAxioms.leb_spec.
  apply Order.SFltb_leb_trans.
Qed.

Lemma ltb_irrefl (x : float) : (x <? x) = false.
Proof.
  rewrite FloatAxioms.ltb_spec. unfold SFltb.
  now destruct (Order.SFcompare_refl (Prim2SF x)) as [-> | ->].
Qed.

(** [x != x] holds of a NaN only. *)
Lemma nan_spec (x : float) : (x =? x) = false <-> Prim2SF x = S754_nan.
Proof.
  rewrite FloatAxioms.eqb_spec. unfold SFeqb. split.
  - intros E. destruct (Order.SFcompare_refl (Prim2SF x)) as [H|H];
      rewrite H in E; [|discriminate].
    destruct (Prim2SF x) as [s|s| |s m e]; try discriminate; reflexivity.
  - now intros ->.
Qed.

Lemma ltb_nan_r (x y : float) : (y =? y) = false -> (x <? y) = false.
Proof.
  intros E. apply nan_spec in E. rewrite FloatAxioms.ltb_spec, E.
  unfold SFltb. now destruct (Prim2SF x).
Qed.

Lemma ltb_nan_l (x y : float) : (x =? x) = false -> (x <? y) = false.
Proof.
  intros E. apply nan_spec in E. now rewrite FloatAxioms.ltb_spec, E.
Qed.

(** A NaN operand makes the result of an operation a NaN. *)
Lemma mul_nan_l (x y : float) : (x =? x) = false -> (x * y =? x * y) = false.
Proof. rewrite !nan_spec, mul_spec. now intros ->. Qed.

Lemma mul_nan_r (x y : float) : (y =? y) = false -> (x * y =? x * y) = false.
Proof. rewrite !nan_spec, mul_spec. intros ->. now destruct (Prim2SF x). Qed.

Lemma add_nan_l (x y : float) : (x =? x) = false -> (x + y =? x + y) = false.
Proof. rewrite !nan_spec, add_spec. now intros ->. Qed.

Lemma add_nan_r (x y : float) : (y =? y) = false -> (x + y =? x + y) = false.
Proof. rewrite !nan_spec, add_spec. intros ->. now destruct (Prim2SF x). Qed.

Lemma sub_nan_l (x y : float) : (x =? x) = false -> (x - y =? x - y) = false.
Proof. rewrite !nan_spec, sub_spec. now intros ->. Qed.

Lemma sub_nan_r (x y : float) : (y =? y) = false -> (x - y =? x - y) = false.
Proof. rewrite !nan_spec, sub_spec. intros ->. now destruct (Prim2SF x). Qed.

Lemma div_nan_l (x y : float) : (x =? x) = false -> (x / y =? x / y) = false.
Proof. rewrite !nan_spec, div_spec. now intros ->. Qed.

Lemma sqrt_nan (x : float) : (x =? x) = false -> (sqrt x =? sqrt x) = false.
Proof. rewrite !nan_spec, sqrt_spec. now intros ->. Qed.

(** The offset is a NaN as soon as one of the two differences is. *)
Lemma radius_of_nan (d_ra d_dec : float) :
  (d_ra =? d_ra) = false \/ (d_dec =? d_dec) = false ->
  (radius_of d_ra d_dec =? radius_of d_ra d_dec) = false.
Proof.
  intros Hn. unfold radius_of.
  apply div_nan_l, mul_nan_l, sqrt_nan.
  destruct Hn as [Hn|Hn].
  - now apply add_nan_l, mul_nan_l.
  - now apply add_nan_r, mul_nan_l.
Qed.

Lemma wrap_d_ra_nan (fuel : nat) (d : float) :
  (d =? d) = false -> wrap_d_ra fuel d = Some d.
Proof.
  intros Hn. destruct fuel; cbn [wrap_d_ra]; now rewrite (ltb_nan_r PI d Hn).
Qed.

Section Requests.
Context `{SatCode}.

(** ** The frame on entry to an iteration *)

Lemma entry_fields (fuel i : nat) (inp : Inputs.t) (t : tle_t) (f : frame) :
  entry fuel i inp t = Some f ->
  request_of (inputs f) = request_of (inputs (enter inp t)) /\
  (i = 0%nat -> tle f = t) /\
  (tle_const -> tle f = t).
Proof.
  destruct i as [|i]; simpl.
  - intros [= <-]. now repeat split.
  - intros E.
    destruct (epoch_body_spec _ _ _ _ E) as (ra & dec & r & _ & Q & T & _).
    split; [assumption|]. split; [discriminate|].
    intros Hk. rewrite T. now apply apparent_tle_const.
Qed.

Lemma request_of_enter (a b : Inputs.t) (t u : tle_t) :
  Inputs.lat a = Inputs.lat b -> Inputs.lon a = Inputs.lon b ->
  Inputs.ht_in_meters a = Inputs.ht_in_meters b ->
  Inputs.target_ra a = Inputs.target_ra b ->
  Inputs.target_dec a = Inputs.target_dec b ->
  forall f g,
    request_of (inputs f) = request_of (inputs (enter a t)) ->
    request_of (inputs g) = request_of (inputs (enter b u)) ->
    Inputs.lat (inputs f) = Inputs.lat (inputs g) /\
    Inputs.lon (inputs f) = Inputs.lon (inputs g) /\
    Inputs.ht_in_meters (inputs f) = Inputs.ht_in_meters (inputs g) /\
    Inputs.target_ra (inputs f) = Inputs.target_ra (inputs g) /\
    Inputs.target_dec (inputs f) = Inputs.target_dec (inputs g) /\
    Inputs.jd (inputs f) = Inputs.jd a /\
    Inputs.jd (inputs g) = Inputs.jd b /\
    Inputs.search_radius (inputs f) = Inputs.search_radius a /\
    Inputs.search_radius (inputs g) = Inputs.search_radius b.
Proof.
  intros Hlat Hlon Hht Hra Hdec f g Qf Qg.
  unfold request_of, enter in Qf, Qg. simpl in Qf, Qg.
  injection Qf as -> -> -> -> -> -> ->.
  injection Qg as -> -> -> -> -> -> ->.
  rewrite Hlat, Hlon, Hht, Hra, Hdec. now repeat split.
Qed.

(** The views of two runs whose requests agree on the site and the
    target, at epochs that agree, from the same element set. *)
Lemma views_agree (n m i j : nat) (a b : Inputs.t) (t : tle_t)
    (f g : frame) (v w : float * float * float) :
  Inputs.lat a = Inputs.lat b -> Inputs.lon a = Inputs.lon b ->
  Inputs.ht_in_meters a = Inputs.ht_in_meters b ->
  Inputs.target_ra a = Inputs.target_ra b ->
  Inputs.target_dec a = Inputs.target_dec b ->
  get2 (Inputs.jd a) i = get2 (Inputs.jd b) j ->
  entry n i a t = Some f -> entry m j b t = Some g ->
  tle f = t -> tle g = t ->
  epoch_view n i f = Some v -> epoch_view m j g = Some w -> v = w.
Proof.
  intros Hlat Hlon Hht Hra Hdec Hjd Ef Eg Tf Tg Vf Vg.
  destruct (entry_fields _ _ _ _ _ Ef) as (Qf & _).
  destruct (entry_fields _ _ _ _ _ Eg) as (Qg & _).
  destruct (request_of_enter a b t t Hlat Hlon Hht Hra Hdec f g Qf Qg)
    as (E1 & E2 & E3 & E4 & E5 & E6 & E7 & _).
  apply (epoch_view_ext n m i j f g v w); try assumption; try congruence.
Qed.

(** ** A slot is a function of its own epoch *)

(** The pair reported for an epoch depends on the site, the target, the
    search radius, the element set and that epoch only.  For the first
    slot this holds whatever the library does; for the second it holds
    when the routines leave the element set alone.  So two runs that
    differ in the other epoch only report the same pair for the epoch
    they share, in whatever slot each has it, and a run on two equal
    epochs reports the same pair twice. *)
Theorem slot_depends_on_its_epoch (n m : nat) (a b : Inputs.t) (t : tle_t)
    (out out' : Outputs.t) :
  Inputs.lat a = Inputs.lat b -> Inputs.lon a = Inputs.lon b ->
  Inputs.ht_in_meters a = Inputs.ht_in_meters b ->
  Inputs.search_radius a = Inputs.search_radius b ->
  Inputs.target_ra a = Inputs.target_ra b ->
  Inputs.target_dec a = Inputs.target_dec b ->
  calc_sat n a t = Some out -> calc_sat m b t = Some out' ->
  (get2 (Inputs.jd a) 0 = get2 (Inputs.jd b) 0 ->
   Outputs.slot out 0 = Outputs.slot out' 0) /\
  (tle_const ->
   forall i j, (i < 2)%nat -> (j < 2)%nat ->
     get2 (Inputs.jd a) i = get2 (Inputs.jd b) j ->
     Outputs.slot out i = Outputs.slot out' j).
Proof.
  intros Hlat Hlon Hht Hsr Hra Hdec Ca Cb.
  assert (Hs : forall i j, (i < 2)%nat -> (j < 2)%nat ->
             (i = 0%nat /\ j = 0%nat) \/ tle_const ->
             get2 (Inputs.jd a) i = get2 (Inputs.jd b) j ->
             Outputs.slot out i = Outputs.slot out' j).
  { intros i j Hi Hj Hk Hjd.
    destruct (slot_of_result _ _ _ _ i Ca Hi)
      as (f & ra & dec & r & Ef & Vf & ->).
    destruct (slot_of_result _ _ _ _ j Cb Hj)
      as (g & ra' & dec' & r' & Eg & Vg & ->).
    destruct (entry_fields _ _ _ _ _ Ef) as (_ & Tf0 & Tfk).
    destruct (entry_fields _ _ _ _ _ Eg) as (_ & Tg0 & Tgk).
    assert (Tf : tle f = t) by (destruct Hk as [[? ?]|?]; auto).
    assert (Tg : tle g = t) by (destruct Hk as [[? ?]|?]; auto).
    pose proof (views_agree _ _ _ _ _ _ _ _ _ _ _
                  Hlat Hlon Hht Hra Hdec Hjd Ef Eg Tf Tg Vf Vg) as E.
    injection E as <- <- <-. now rewrite Hsr. }
  split.
  - intros Hjd. apply (Hs 0%nat 0%nat); [lia|lia|now left|assumption].
  - intros Hk i j Hi Hj Hjd. apply (Hs i j); [assumption|assumption|now right|assumption].
Qed.

(** ** The search radius *)

(** A run with another search radius computes the same offsets. *)
Lemma calc_sat_other_radius (fuel : nat) (inp : Inputs.t) (t : tle_t)
    (r' : float) (out : Outputs.t) :
  calc_sat fuel inp t = Some out ->
  exists out',
    calc_sat fuel (Inputs.with_search_radius inp r') t = Some out' /\
    forall i, (i < 2)%nat ->
      exists ra dec radius,
        Outputs.slot out i =
          (if radius <? Inputs.search_radius inp
           then (matched_ra ra, matched_dec dec) else (0, 0)) /\
        Outputs.slot out' i =
          (if radius <? r'
           then (matched_ra ra, matched_dec dec) else (0, 0)).
Proof.
  intros Hc. pose proof Hc as Hc0. unfold calc_sat, calc_sat_frame in Hc0.
  destruct (epoch_body fuel 0 (enter inp t)) as [f1|] eqn:E0; [|discriminate].
  simpl in Hc0.
  destruct (epoch_body fuel 1 f1) as [f2|] eqn:E1; [|discriminate].
  destruct (epoch_body_spec _ _ _ _ E0) as (ra0 & dec0 & r0 & V0 & Q0 & T0 & _).
  destruct (epoch_body_spec _ _ _ _ E1) as (ra1 & dec1 & r1 & V1 & _).
  set (inp' := Inputs.with_search_radius inp r').
  assert (V0' : epoch_view fuel 0 (enter inp' t) = Some (ra0, dec0, r0)).
  { rewrite <- V0. apply epoch_view_eq; reflexivity. }
  destruct (epoch_body_total _ _ _ _ V0') as [f1' E0'].
  destruct (epoch_body_spec _ _ _ _ E0') as (x & y & z & _ & Q0' & T0' & _).
  destruct (request_of_enter inp inp' t t eq_refl eq_refl eq_refl eq_refl eq_refl
              f1 f1' Q0 Q0') as (F1 & F2 & F3 & F4 & F5 & F6 & F7 & _).
  assert (T1 : tle f1 = tle f1').
  { rewrite T0, T0'. apply (apparent_ext 0 0 (enter inp t) (enter inp' t));
      reflexivity. }
  assert (V1' : epoch_view fuel 1 f1' = Some (ra1, dec1, r1)).
  { rewrite <- V1. symmetry. apply epoch_view_eq; try assumption.
    now rewrite F6, F7. }
  destruct (epoch_body_total _ _ _ _ V1') as [f2' E1'].
  assert (Hc' : calc_sat fuel inp' t = Some (outputs f2')).
  { unfold calc_sat, calc_sat_frame. rewrite E0'. simpl. now rewrite E1'. }
  exists (outputs f2'). split; [exact Hc'|].
  intros i Hi.
  destruct (slot_of_result _ _ _ _ i Hc Hi) as (f & ra & dec & r & Ef & Vf & Sf).
  destruct (slot_of_result _ _ _ _ i Hc' Hi)
    as (g & ra' & dec' & r'' & Eg & Vg & Sg).
  exists ra, dec, r. split; [exact Sf|].
  destruct i as [|[|i]]; [| |lia]; simpl in Ef, Eg.
  - injection Ef as <-. injection Eg as <-.
    rewrite V0 in Vf. rewrite V0' in Vg. injection Vf as <- <- <-.
    injection Vg as <- <- <-. exact Sg.
  - rewrite E0 in Ef. rewrite E0' in Eg. injection Ef as <-. injection Eg as <-.
    rewrite V1 in Vf. rewrite V1' in Vg. injection Vf as <- <- <-.
    injection Vg as <- <- <-. exact Sg.
Qed.

(** Enlarging the search radius never changes or removes a reported
    position: the run with the larger radius returns with the same
    fuel, and each of its slots holds what the slot held before unless
    that was the pair (0, 0) of an epoch without a match. *)
Theorem wider_radius_keeps_matches (fuel : nat) (inp : Inputs.t) (t : tle_t)
    (r' : float) (out : Outputs.t) :
  (Inputs.search_radius inp <=? r') = true ->
  calc_sat fuel inp t = Some out ->
  exists out',
    calc_sat fuel (Inputs.with_search_radius inp r') t = Some out' /\
    forall i, (i < 2)%nat ->
      Outputs.slot out i = (0, 0) \/
      Outputs.slot out' i = Outputs.slot out i.
Proof.
  intros Hle Hc.
  destruct (calc_sat_other_radius fuel inp t r' out Hc) as (out' & Hc' & Hs).
  exists out'. split; [exact Hc'|]. intros i Hi.
  destruct (Hs i Hi) as (ra & dec & r & -> & ->).
  destruct (r <? Inputs.search_radius inp) eqn:E; [right|now left].
  now rewrite (ltb_leb_trans _ _ _ E Hle).
Qed.

(** The test [radius < inputs.search_radius] is strict: an epoch whose
    offset equals the search radius is not matched, and its slot keeps
    the pair (0, 0). *)
Theorem offset_equal_to_radius_is_no_match (fuel : nat) (inp : Inputs.t)
    (t : tle_t) (out : Outputs.t) (i : nat) (f : frame)
    (ra dec radius : float) :
  calc_sat fuel inp t = Some out -> (i < 2)%nat ->
  entry fuel i inp t = Some f ->
  epoch_view fuel i f = Some (ra, dec, radius) ->
  radius = Inputs.search_radius inp ->
  Outputs.slot out i = (0, 0).
Proof.
  intros Hc Hi Ef Vf Hr.
  destruct (slot_of_result _ _ _ _ i Hc Hi) as (g & ra' & dec' & r' & Eg & Vg & ->).
  rewrite Ef in Eg. injection Eg as <-. rewrite Vf in Vg.
  injection Vg as <- <- <-. now rewrite Hr, ltb_irrefl.
Qed.

(** ** A NaN in the request *)

Lemma epoch_view_radius_nan (fuel i : nat) (f : frame) (ra dec radius : float) :
  epoch_view fuel i f = Some (ra, dec, radius) ->
  (Inputs.target_dec (inputs f) =? Inputs.target_dec (inputs f)) = false ->
  (radius =? radius) = false.
Proof.
  intros Hv Hn.
  destruct (epoch_view_offset _ _ _ _ _ _ Hv) as (g & d_ra & Ha & _ & ->).
  destruct (apparent_keeps i f) as [Q _]. rewrite Ha in Q. simpl in Q.
  unfold request_of in Q. injection Q as _ _ _ _ _ _ Hd.
  apply radius_of_nan. right. apply sub_nan_r. now rewrite Hd.
Qed.

Lemma epoch_body_nan_target_ra (fuel i : nat) (f : frame) :
  (Inputs.target_ra (inputs f) =? Inputs.target_ra (inputs f)) = false ->
  exists f', epoch_body fuel i f = Some f' /\ outputs f' = outputs f /\
             request_of (inputs f') = request_of (inputs f).
Proof.
  intros Hn.
  destruct (apparent_keeps i f) as [Q O].
  unfold epoch_body, offset_deg.
  destruct (apparent i f) as [g [[ra dec] dist]]. simpl in Q, O.
  assert (Hg : (Inputs.target_ra (inputs g) =? Inputs.target_ra (inputs g)) = false).
  { unfold request_of in Q. injection Q as _ _ _ _ _ Hra _. now rewrite Hra. }
  assert (Hd : (ra - Inputs.target_ra (inputs g) + PI * 4
                =? ra - Inputs.target_ra (inputs g) + PI * 4) = false)
    by now apply add_nan_l, sub_nan_r.
  rewrite (wrap_d_ra_nan fuel _ Hd). simpl.
  unfold record_match. cbn [inputs].
  rewrite ltb_nan_l by (apply radius_of_nan; now left).
  eexists. split; [reflexivity|]. simpl. split; [exact O|].
  rewrite <- Q. unfold request_of. now destruct (inputs g).
Qed.

(** A NaN in the request never gives a match.  With a target right
    ascension that is a NaN, [calc_sat] returns the pair (0, 0) for
    both epochs without entering a loop, whatever the library returns;
    with a target declination or a search radius that is a NaN, what
    [calc_sat] returns is the pair (0, 0) for both epochs. *)
Theorem nan_request_never_matches (fuel : nat) (inp : Inputs.t) (t : tle_t) :
  ((Inputs.target_ra inp =? Inputs.target_ra inp) = false ->
   calc_sat fuel inp t = Some Outputs.default) /\
  ((Inputs.target_dec inp =? Inputs.target_dec inp) = false \/
   (Inputs.search_radius inp =? Inputs.search_radius inp) = false ->
   forall out, calc_sat fuel inp t = Some out -> out = Outputs.default).
Proof.
  split.
  - intros Hn.
    assert (H0 : (Inputs.target_ra (inputs (enter inp t))
                  =? Inputs.target_ra (inputs (enter inp t))) = false)
      by (simpl; now apply mul_nan_l).
    destruct (epoch_body_nan_target_ra fuel 0 _ H0) as (f1 & E0 & O0 & Q0).
    assert (H1 : (Inputs.target_ra (inputs f1)
                  =? Inputs.target_ra (inputs f1)) = false).
    { unfold request_of in Q0. injection Q0 as _ _ _ _ _ Hra _.
      now rewrite Hra. }
    destruct (epoch_body_nan_target_ra fuel 1 _ H1) as (f2 & E1 & O1 & _).
    unfold calc_sat, calc_sat_frame. rewrite E0. simpl. rewrite E1. simpl.
    now rewrite O1, O0.
  - intros Hn out Hc.
    assert (Hs : forall i, (i < 2)%nat -> Outputs.slot out i = (0, 0)).
    { intros i Hi.
      destruct (slot_of_result _ _ _ _ i Hc Hi)
        as (f & ra & dec & r & Ef & Vf & ->).
      destruct Hn as [Hn|Hn].
      - destruct (entry_fields _ _ _ _ _ Ef) as (Q & _).
        rewrite ltb_nan_l; [reflexivity|].
        apply (epoch_view_radius_nan _ _ _ _ _ _ Vf).
        unfold request_of in Q. injection Q as _ _ _ _ _ _ Hd.
        rewrite Hd. simpl. now apply mul_nan_l.
      - now rewrite ltb_nan_r. }
    pose proof (Hs 0%nat ltac:(lia)) as S0.
    pose proof (Hs 1%nat ltac:(lia)) as S1.
    destruct out as [[a0 a1] [d0 d1]]. unfold Outputs.slot in S0, S1.
    simpl in S0, S1. injection S0 as -> ->. injection S1 as -> ->. reflexivity.
Qed.

(** ** The pair (0, 0) *)

(** A matched epoch whose apparent position is right ascension 0 and
    declination 0 stores the pair (0, 0), which is also what the slot of
    an epoch without a match holds. *)
Theorem match_at_origin_stores_zero_pair (fuel : nat) (inp : Inputs.t)
    (t : tle_t) (out : Outputs.t) (i : nat) (f : frame) (radius : float) :
  calc_sat fuel inp t = Some out -> (i < 2)%nat ->
  entry fuel i inp t = Some f ->
  epoch_view fuel i f = Some (0, 0, radius) ->
  (radius <? Inputs.search_radius inp) = true ->
  Outputs.slot out i = (0, 0).
Proof.
  intros Hc Hi Ef Vf Hm.
  destruct (slot_of_result _ _ _ _ i Hc Hi) as (g & ra' & dec' & r' & Eg & Vg & ->).
  rewrite Ef in Eg. injection Eg as <-. rewrite Vf in Vg.
  injection Vg as <- <- <-. rewrite Hm.
  vm_compute. reflexivity.
Qed.

End Requests.

(** ** The wrap loop keeps a difference that is at least [-PI] there *)

Module HalfTurn.
Import F64.
#[local] Open Scope Z_scope.

(** One subtraction of [PI + PI] from a number above [PI] and not above
    2^56 does not go below [-PI]. *)
Lemma SFsub_2pi_ge (m : positive) (e : Z) :
  is_double_mag (Zpos m) e ->
  -51 < e \/ (e = -51 /\ 7074237752028440 < Zpos m) ->
  e <= 3 \/ (e = 4 /\ Zpos m = 2 ^ 52) ->
  SFleb (S754_finite true 7074237752028440 (-51))
        (SFsub prec emax (S754_finite false m e)
                         (S754_finite false 7074237752028440 (-50))) = true.
Proof.
  intros (Hm & He & Hnorm) Hlo Hhi.
  assert (Hm52 : 2 ^ 52 <= Zpos m) by lia.
  unfold SFsub. cbv zeta. rewrite Round.binary_normalize_eq.
  destruct (Round.shl_align_spec m e (Z.min e (-50))) as [_ Ex].
  destruct (Round.shl_align_spec 7074237752028440 (-50) (Z.min e (-50))) as [_ Ec].
  unfold cond_Zopp.
  set (ax := fst (shl_align m e (Z.min e (-50)))) in *.
  set (ac := fst (shl_align 7074237752028440 (-50) (Z.min e (-50)))) in *.
  replace (Z.min e (Z.min e (-50))) with (Z.min e (-50)) in Ex by lia.
  replace (Z.min (-50) (Z.min e (-50))) with (Z.min e (-50)) in Ec by lia.
  set (ez := Z.min e (-50)) in *.
  assert (Hez : ez = -51 \/ ez = -50) by lia.
  destruct (Zpos ax - Zpos ac) as [|q|q] eqn:EM.
  - reflexivity.
  - (* a positive difference rounds to a number that is not negative *)
    assert (Hr : mag_le (binary_round prec emax false q ez) false (2 ^ 53 - 1) 971).
    { apply Round.round_le with (b := -1074); try lia.
      - unfold is_double_mag. lia.
      - assert (Hq : Zpos q < Zpos ax) by lia.
        assert (Hp : 2 ^ (e - ez) <= 2 ^ 55) by (apply Z.pow_le_mono_r; lia).
        assert (Hp0 : 0 < 2 ^ (e - ez)) by (apply Z.pow_pos_nonneg; lia).
        assert (Hax : Zpos ax <= 2 ^ 53 * 2 ^ 55).
        { rewrite Ex. apply Z.mul_le_mono_nonneg; lia. }
        destruct Hez as [Ez|Ez]; rewrite Ez;
          [change (2 ^ (-51 - -1074)) with (2 ^ 1023)
          |change (2 ^ (-50 - -1074)) with (2 ^ 1024)];
          change (2 ^ (971 - -1074)) with (2 ^ 2045); lia. }
    destruct Hr as [->|(m3 & e3 & -> & _)]; reflexivity.
  - (* a negative difference has a magnitude below PI *)
    apply Round.mag_le_geb_neg.
    apply Round.round_le with (b := -1074); try lia.
    + unfold is_double_mag. lia.
    + destruct Hez as [Ez|Ez]; rewrite Ez in *.
      * assert (e = -51) by lia. subst e.
        change (2 ^ (-51 - -51)) with 1 in Ex.
        change (2 ^ (-50 - -51)) with 2 in Ec. lia.
      * assert (Hp0 : 1 <= 2 ^ (e - -50))
          by (change 1 with (2 ^ 0); apply Z.pow_le_mono_r; lia).
        assert (Hax : 2 ^ 52 <= Zpos ax) by (rewrite Ex; nia).
        change (2 ^ (-50 - -50)) with 1 in Ec.
        change (2 ^ (-50 - -1074)) with (2 * 2 ^ 1023).
        change (2 ^ (-51 - -1074)) with (2 ^ 1023).
        assert (0 < 2 ^ 1023) by (apply Z.pow_pos_nonneg; lia).
        assert (Hq : 4 * Zpos q < 2 * 7074237752028440 + 1) by lia.
        nia.
Qed.

End HalfTurn.

Lemma sub_2pi_not_below (d : float) :
  (PI <? d) = true -> (- PI <=? d - (PI + PI)) = true.
Proof.
  intros Hlo. destruct (0x1p56 <? d) eqn:Hhi.
  - destruct (sub_2pi_absorbed d Hhi) as [_ ->].
    rewrite FloatAxioms.ltb_spec in Hlo. rewrite FloatAxioms.leb_spec.
    change (Prim2SF (- PI)) with (S754_finite true 7074237752028440 (-51)).
    rewrite PI_spec in Hlo.
    destruct (Prim2SF d) as [s|[|]| |[|] m e]; try discriminate; reflexivity.
  - destruct (Round.between_PI_and_2p56 d Hlo Hhi) as (m & e & E & Hd & He & Hhi').
    rewrite FloatAxioms.leb_spec, sub_spec, E.
    change (Prim2SF (- PI)) with (S754_finite true 7074237752028440 (-51)).
    change (Prim2SF (PI + PI)) with (S754_finite false 7074237752028440 (-50)).
    apply HalfTurn.SFsub_2pi_ge; [assumption| |assumption].
    rewrite FloatAxioms.ltb_spec, PI_spec, E in Hlo.
    apply Round.ltb_finite in Hlo. lia.
Qed.

Lemma wrap_d_ra_not_below (fuel : nat) :
  forall d r, wrap_d_ra fuel d = Some r ->
              (- PI <=? d) = true -> (- PI <=? r) = true.
Proof.
  induction fuel as [|fuel IH]; intros d r; cbn [wrap_d_ra];
    destruct (PI <? d) eqn:Hlo; try discriminate.
  - now intros [= <-].
  - intros Hw _. apply (IH _ _ Hw). now apply sub_2pi_not_below.
  - now intros [= <-].
Qed.

Lemma leb_not_nan (x y : float) : (x <=? y) = true -> (y =? y) = true.
Proof.
  rewrite FloatAxioms.leb_spec, FloatAxioms.eqb_spec. unfold SFleb, SFeqb.
  destruct (Order.SFcompare_refl (Prim2SF y)) as [E|E]; rewrite E; [|reflexivity].
  destruct (Prim2SF y) as [s|s| |s m e]; try discriminate E.
  now destruct (Prim2SF x).
Qed.

(** The wrapped difference in right ascension lies in [-PI, PI] when the
    difference lies at or above [-PI] on entry to the loop, which is
    when the apparent right ascension is not more than five half turns
    below the target. *)
Theorem wrap_within_half_turn `{SatCode} (fuel i : nat) (f : frame)
    (ra dec radius : float) :
  epoch_view fuel i f = Some (ra, dec, radius) ->
  (- PI <=? ra - Inputs.target_ra (inputs f) + PI * 4) = true ->
  exists d_ra,
    Spec.wraps (ra - Inputs.target_ra (inputs f) + PI * 4) d_ra /\
    (- PI <=? d_ra) = true /\ (d_ra <=? PI) = true /\
    radius = radius_of d_ra (dec - Inputs.target_dec (inputs f)).
Proof.
  intros Hv Hlo.
  destruct (epoch_view_offset _ _ _ _ _ _ Hv) as (g & d_ra & Ha & Hw & ->).
  destruct (apparent_keeps i f) as [Q _]. rewrite Ha in Q. simpl in Q.
  unfold request_of in Q. injection Q as _ _ _ _ _ Hra Hdec.
  rewrite Hra in Hw. rewrite Hdec.
  exists d_ra. split; [now apply (wrap_d_ra_wraps fuel)|].
  pose proof (wrap_d_ra_not_below _ _ _ Hw Hlo) as Hge.
  split; [assumption|]. split; [|reflexivity].
  apply Sign.ltb_false_leb.
  - now apply (wrap_d_ra_exit fuel _ _ Hw).
  - reflexivity.
  - now apply (leb_not_nan (- PI)).
Qed.

(** ** [calc_sat] returns for angles of ordinary size *)

Module Bounded.
Import F64.
#[local] Open Scope Z_scope.

Lemma at_most_pow2_mono (k k' : Z) (x : spec_float) :
  k <= k' -> at_most_pow2 k x -> at_most_pow2 k' x.
Proof. destruct x as [s|s| |s m e]; simpl; try tauto. lia. Qed.

Lemma at_most_pow2_opp (k : Z) (x : spec_float) :
  at_most_pow2 k x -> at_most_pow2 k (SFopp x).
Proof. now destruct x. Qed.

(** The magnitude of a number that is at most [2^k], as an integer
    multiple of the least positive double. *)
Lemma at_most_pow2_value (k : Z) (s : bool) (m : positive) (e : Z) :
  is_double_mag (Zpos m) e -> at_most_pow2 k (S754_finite s m e) ->
  Zpos m * 2 ^ (e - -1074) <= 2 ^ 52 * 2 ^ (k - 52 - -1074).
Proof.
  intros (Hm & He & _) Hk. simpl in Hk.
  apply Round.lex_value_le; lia.
Qed.

Lemma aligned_value (m : positive) (e e' : Z) :
  -1074 <= Z.min e e' ->
  Zpos (fst (shl_align m e (Z.min e e'))) * 2 ^ (Z.min e e' - -1074)
  = Zpos m * 2 ^ (e - -1074).
Proof.
  intros Hz. destruct (Round.shl_align_spec m e (Z.min e e')) as [_ ->].
  replace (Z.min e (Z.min e e')) with (Z.min e e') by lia.
  rewrite <- Z.mul_assoc, <- Z.pow_add_r by lia. do 2 f_equal. lia.
Qed.

(** Rounding a sum of two magnitudes that are at most [2^k] each. *)
Lemma normalize_at_most (M ez k A B E P : Z) :
  -1022 <= k <= 1022 -> -1074 <= ez ->
  E = 2 ^ (ez - -1074) -> P = 2 ^ (k - 52 - -1074) ->
  0 <= A -> 0 <= B -> Z.abs M <= A + B ->
  A * E <= 2 ^ 52 * P -> B * E <= 2 ^ 52 * P ->
  at_most_pow2 (k + 1) (binary_normalize prec emax M ez false).
Proof.
  intros Hk Hez HE HP HA HB HM HAE HBE.
  assert (HE0 : 0 < E) by (subst E; apply Z.pow_pos_nonneg; lia).
  assert (HP0 : 0 < P) by (subst P; apply Z.pow_pos_nonneg; lia).
  assert (HP' : 2 ^ (k - 51 - -1074) = 2 * P).
  { subst P. rewrite <- Z.pow_succ_r by lia. f_equal. lia. }
  assert (HME : Z.abs M * E <= 2 ^ 52 * (2 * P)) by nia.
  rewrite Round.binary_normalize_eq.
  assert (Hd : is_double_mag (2 ^ 52) (k - 51)) by (unfold is_double_mag; lia).
  assert (Hr : forall s p, Zpos p = Z.abs M ->
             at_most_pow2 (k + 1) (binary_round prec emax s p ez)).
  { intros s p Hp.
    assert (Hle : mag_le (binary_round prec emax s p ez) s (2 ^ 52) (k - 51)).
    { apply Round.round_le with (b := -1074); [exact Hd|lia|lia|].
      rewrite HP', <- HE, Hp. lia. }
    destruct Hle as [->|(m3 & e3 & -> & Hlex)]; simpl; [exact I|].
    replace (k + 1 - 52) with (k - 51) by lia. exact Hlex. }
  destruct M as [|p|p]; [exact I|apply Hr|apply Hr]; reflexivity.
Qed.

Lemma cond_Zopp_abs (s : bool) (z : Z) : Z.abs (cond_Zopp s z) = Z.abs z.
Proof. destruct s; simpl; [apply Z.abs_opp|reflexivity]. Qed.

Lemma SFadd_at_most (k : Z) (x y : spec_float) :
  -1022 <= k <= 1022 ->
  valid_binary x = true -> valid_binary y = true ->
  at_most_pow2 k x -> at_most_pow2 k y ->
  at_most_pow2 (k + 1) (SFadd prec emax x y).
Proof.
  intros Hk Vx Vy Hx Hy.
  destruct x as [sx|sx| |sx mx ex], y as [sy|sy| |sy my ey];
    try exact I; try contradiction;
    try (apply at_most_pow2_mono with k; [lia|assumption]).
  - simpl. now destruct sx, sy.
  - pose proof (Round.valid_finite _ _ _ Vx) as Dx.
    pose proof (Round.valid_finite _ _ _ Vy) as Dy.
    pose proof (at_most_pow2_value _ _ _ _ Dx Hx) as Bx.
    pose proof (at_most_pow2_value _ _ _ _ Dy Hy) as By.
    destruct Dx as (_ & Ex & _), Dy as (_ & Ey & _).
    unfold SFadd. cbv zeta.
    rewrite <- (aligned_value mx ex ey) in Bx by lia.
    rewrite <- (aligned_value my ey ex) in By by lia.
    rewrite (Z.min_comm ey ex) in By.
    apply (normalize_at_most _ (Z.min ex ey) k
             (Zpos (fst (shl_align mx ex (Z.min ex ey))))
             (Zpos (fst (shl_align my ey (Z.min ex ey))))
             (2 ^ (Z.min ex ey - -1074)) (2 ^ (k - 52 - -1074)) Hk);
      [lia|reflexivity|reflexivity|lia|lia| |exact Bx|exact By].
    eapply Z.le_trans; [apply Z.abs_triangle|].
    rewrite !cond_Zopp_abs. cbn [Z.abs]. apply Z.le_refl.
Qed.

Lemma SFsub_at_most (k : Z) (x y : spec_float) :
  -1022 <= k <= 1022 ->
  valid_binary x = true -> valid_binary y = true ->
  at_most_pow2 k x -> at_most_pow2 k y ->
  at_most_pow2 (k + 1) (SFsub prec emax x y).
Proof.
  intros Hk Vx Vy Hx Hy.
  destruct x as [sx|sx| |sx mx ex], y as [sy|sy| |sy my ey];
    try exact I; try contradiction;
    try (apply at_most_pow2_mono with k; [lia|assumption]).
  - simpl. now destruct sx, sy.
  - pose proof (Round.valid_finite _ _ _ Vx) as Dx.
    pose proof (Round.valid_finite _ _ _ Vy) as Dy.
    pose proof (at_most_pow2_value _ _ _ _ Dx Hx) as Bx.
    pose proof (at_most_pow2_value _ _ _ _ Dy Hy) as By.
    destruct Dx as (_ & Ex & _), Dy as (_ & Ey & _).
    unfold SFsub. cbv zeta.
    rewrite <- (aligned_value mx ex ey) in Bx by lia.
    rewrite <- (aligned_value my ey ex) in By by lia.
    rewrite (Z.min_comm ey ex) in By.
    apply (normalize_at_most _ (Z.min ex ey) k
             (Zpos (fst (shl_align mx ex (Z.min ex ey))))
             (Zpos (fst (shl_align my ey (Z.min ex ey))))
             (2 ^ (Z.min ex ey - -1074)) (2 ^ (k - 52 - -1074)) Hk);
      [lia|reflexivity|reflexivity|lia|lia| |exact Bx|exact By].
    unfold Z.sub at 1.
    eapply Z.le_trans; [apply Z.abs_triangle|].
    rewrite Z.abs_opp, !cond_Zopp_abs. cbn [Z.abs]. apply Z.le_refl.
Qed.

(** A number between [-2^k] and [2^k]. *)
Lemma between_at_most (k : Z) (x : spec_float) :
  SFleb (S754_finite true 4503599627370496 (k - 52)) x = true ->
  SFleb x (S754_finite false 4503599627370496 (k - 52)) = true ->
  at_most_pow2 k x.
Proof.
  intros Hlo Hhi. destruct x as [s|s| |s m e]; try exact I.
  - now destruct s.
  - destruct s; simpl.
    + apply leb_finite_neg in Hlo.
      change (Zpos 4503599627370496) with (2 ^ 52) in Hlo. lia.
    + apply Round.leb_finite in Hhi.
      change (Zpos 4503599627370496) with (2 ^ 52) in Hhi. lia.
Qed.

(** A number that is at most [2^55] is not above [2^56]. *)
Lemma at_most_not_above (x : spec_float) :
  at_most_pow2 55 x -> SFltb (S754_finite false 4503599627370496 4) x = false.
Proof.
  destruct x as [s|s| |s m e]; try reflexivity; try contradiction.
  intros Hx. destruct s; [reflexivity|]. simpl in Hx.
  destruct (SFltb _ _) eqn:E; [|reflexivity].
  apply Round.ltb_finite in E.
  change (Zpos 4503599627370496) with (2 ^ 52) in E. lia.
Qed.

End Bounded.

Lemma to_radians_at_most (x : float) :
  (- 0x1p58 <=? x) = true -> (x <=? 0x1p58) = true ->
  F64.at_most_pow2 53 (Prim2SF (x * (PI / 180))).
Proof.
  rewrite !FloatAxioms.leb_spec, mul_spec.
  change (Prim2SF (- 0x1p58)) with (S754_finite true 4503599627370496 (58 - 52)).
  change (Prim2SF 0x1p58) with (S754_finite false 4503599627370496 (58 - 52)).
  change (Prim2SF (PI / 180)) with (S754_finite false 5030569068109113 (-58)).
  intros Hlo Hhi. pose proof (Bounded.between_at_most 58 _ Hlo Hhi) as Hx.
  pose proof (Prim2SF_valid x) as Vx.
  destruct (Prim2SF x) as [s|s| |s m e]; try exact I; try contradiction.
  pose proof (Round.valid_finite _ _ _ Vx) as Dx. simpl in Hx.
  assert (Hq : F64.mag_le (SF64mul (S754_finite s m e)
                             (S754_finite false 5030569068109113 (-58)))
                 s (2 ^ 52) 1).
  { apply (Degrees.SFmul_mag_le s m 5030569068109113 e (-58) (2 ^ 52) 6 (2 ^ 52) 1);
      try assumption; unfold F64.is_double_mag; lia. }
  destruct Hq as [->|(m3 & e3 & -> & Hlex)]; [exact I|]. simpl. lia.
Qed.

Lemma d_ra_entry_not_above (ra tra : float) :
  (- 0x1p53 <=? ra) = true -> (ra <=? 0x1p53) = true ->
  F64.at_most_pow2 53 (Prim2SF tra) ->
  (0x1p56 <? ra - tra + PI * 4) = false.
Proof.
  rewrite !FloatAxioms.leb_spec, FloatAxioms.ltb_spec, add_spec, sub_spec.
  change (Prim2SF (- 0x1p53)) with (S754_finite true 4503599627370496 (53 - 52)).
  change (Prim2SF 0x1p53) with (S754_finite false 4503599627370496 (53 - 52)).
  change (Prim2SF 0x1p56) with (S754_finite false 4503599627370496 4).
  intros Hlo Hhi Ht. pose proof (Bounded.between_at_most 53 _ Hlo Hhi) as Hr.
  apply Bounded.at_most_not_above.
  assert (Hs : F64.at_most_pow2 54 (Prim2SF (ra - tra))).
  { rewrite sub_spec.
    apply (Bounded.SFsub_at_most 53); try apply Prim2SF_valid; try assumption. lia. }
  rewrite sub_spec in Hs.
  apply (Bounded.SFadd_at_most 54); try assumption; try lia.
  - rewrite <- sub_spec. apply Prim2SF_valid.
  - apply Prim2SF_valid.
  - change (Prim2SF (PI * 4)) with (S754_finite false 7074237752028440 (-49)).
    simpl. lia.
Qed.

Section OrdinaryAngles.
Context `{SatCode}.

Lemma d_ra_entry_apparent_ra (i : nat) (f : frame) :
  d_ra_entry i f = apparent_ra i f - Inputs.target_ra (inputs f) + PI * 4.
Proof.
  destruct (apparent_keeps i f) as [Q _].
  unfold d_ra_entry, apparent_ra.
  destruct (apparent i f) as [g [[ra dec] dist]]. simpl in Q.
  unfold request_of in Q. injection Q as _ _ _ _ _ Hra _. now rewrite Hra.
Qed.

Lemma apparent_ra_ext (i : nat) (f g : frame) :
  request_of (inputs f) = request_of (inputs g) -> tle f = tle g ->
  apparent_ra i f = apparent_ra i g.
Proof.
  intros Hreq Htle. pose proof Hreq as Hreq'. unfold request_of in Hreq'.
  injection Hreq' as Hlat Hlon Hht Hjd Hsr Hra Hdec.
  assert (Hjd' : get2 (Inputs.jd (inputs f)) i = get2 (Inputs.jd (inputs g)) i)
    by now rewrite Hjd.
  destruct (apparent_ext i i f g Hlat Hlon Hht Hjd' Htle) as [E _].
  unfold apparent_ra.
  destruct (apparent i f) as [f1 [[ra dec] dist]].
  destruct (apparent i g) as [g1 [[ra' dec'] dist']].
  simpl in E. now injection E as -> -> ->.
Qed.

(** [run_ra] is the apparent right ascension that iteration [i] of the
    run computes. *)
Lemma run_ra_entry (fuel i : nat) (inp : Inputs.t) (t : tle_t) (f : frame) :
  (i < 2)%nat -> entry fuel i inp t = Some f ->
  apparent_ra i f = run_ra inp t i.
Proof.
  intros Hi. destruct i as [|[|i]]; [| |lia]; simpl.
  - now intros [= <-].
  - intros E.
    destruct (epoch_body_spec _ _ _ _ E) as (_ & _ & _ & _ & Q & T & _).
    destruct (apparent_keeps 0 (enter inp t)) as [Q' _].
    apply apparent_ra_ext; congruence.
Qed.

Lemma d_ra_entry_run (inp : Inputs.t) (t : tle_t) :
  d_ra_entry 0 (enter inp t)
  = run_ra inp t 0 - Inputs.target_ra inp * (PI / 180) + PI * 4 /\
  d_ra_entry 1 (fst (apparent 0 (enter inp t)))
  = run_ra inp t 1 - Inputs.target_ra inp * (PI / 180) + PI * 4.
Proof.
  destruct (apparent_keeps 0 (enter inp t)) as [Q _].
  unfold request_of in Q. injection Q as _ _ _ _ _ Hra _.
  rewrite !d_ra_entry_apparent_ra, Hra. now split.
Qed.

(** [calc_sat] returns for every target right ascension between -2^58
    and 2^58 degrees, when the right ascension that the transforms
    return lies between -2^53 and 2^53 radians at the two epochs of
    the run. *)
Theorem calc_sat_returns_on_ordinary_angles (inp : Inputs.t) (t : tle_t) :
  (forall i, (i < 2)%nat ->
     (- 0x1p53 <=? run_ra inp t i) = true /\
     (run_ra inp t i <=? 0x1p53) = true) ->
  (- 0x1p58 <=? Inputs.target_ra inp) = true ->
  (Inputs.target_ra inp <=? 0x1p58) = true ->
  exists fuel out, calc_sat fuel inp t = Some out.
Proof.
  intros Hrun Hlo Hhi. apply calc_sat_returns.
  pose proof (to_radians_at_most _ Hlo Hhi) as Ht.
  destruct (d_ra_entry_run inp t) as [E0 E1].
  destruct (Hrun 0%nat ltac:(lia)) as [L0 U0].
  destruct (Hrun 1%nat ltac:(lia)) as [L1 U1].
  split; [rewrite E0|rewrite E1]; now apply d_ra_entry_not_above.
Qed.

End OrdinaryAngles.

(** ** The lines written to standard output *)

Section Printed.
Context `{SatCode}.

(** Leaving out the printed lines gives [epoch_body]. *)
Lemma epoch_body_io_frame (fuel i : nat) (f : frame) :
  fst <$> epoch_body_io fuel i f = epoch_body fuel i f.
Proof.
  unfold epoch_body_io, epoch_body, apparent, offset_deg, record_match.
  destruct (earth_lat_alt_to_parallax _ _) as [rho_cos_phi rho_sin_phi].
  destruct (select_ephemeris _) as [is_deep tle1].
  destruct (propagate _ _ _) as [[status pos] tle2].
  destruct (get_satellite_ra_dec_delta _ _) as [[ra dec] dist].
  destruct (epoch_of_date_to_j2000 _ _ _) as [ra' dec'].
  cbn [inputs tle outputs].
  destruct (wrap_d_ra fuel _) as [d_ra|]; [|reflexivity].
  cbn [mbind option_bind inputs tle outputs].
  change (Inputs.search_radius (Inputs.with_header_line_shown ?a 1))
    with (Inputs.search_radius a).
  destruct (_ <? _); reflexivity.
Qed.

(** An iteration prints fourteen lines, and a fifteenth when the epoch
    is matched; one of them is the header. *)
Lemma epoch_body_io_lines (fuel i : nat) (f f' : frame) (out : list printed) :
  epoch_body_io fuel i f = Some (f', out) ->
  exists ra dec radius,
    epoch_view fuel i f = Some (ra, dec, radius) /\
    length out
    = (14 + if (radius <? Inputs.search_radius (inputs f))%float
            then 1 else 0)%nat /\
    length (List.filter is_row out)
    = (1 + if (radius <? Inputs.search_radius (inputs f))%float
           then 1 else 0)%nat /\
    length (List.filter is_header out) = 1%nat.
Proof.
  unfold epoch_body_io, epoch_view, apparent, offset_deg.
  destruct (earth_lat_alt_to_parallax _ _) as [rho_cos_phi rho_sin_phi].
  destruct (select_ephemeris _) as [is_deep tle1].
  destruct (propagate _ _ _) as [[status pos] tle2].
  destruct (get_satellite_ra_dec_delta _ _) as [[ra dec] dist].
  destruct (epoch_of_date_to_j2000 _ _ _) as [ra' dec'].
  cbn [inputs tle outputs].
  destruct (wrap_d_ra fuel _) as [d_ra|]; [|discriminate].
  cbn [mbind option_bind].
  change (Inputs.search_radius (Inputs.with_header_line_shown ?a 1))
    with (Inputs.search_radius a).
  change (Inputs.search_radius (Inputs.with_rho ?a ?c ?s))
    with (Inputs.search_radius a).
  change (Inputs.target_dec (Inputs.with_rho ?a ?c ?s))
    with (Inputs.target_dec a).
  intros E. eexists _, _, _. split; [reflexivity|].
  destruct (_ <? _); injection E as _ <-; repeat split; reflexivity.
Qed.

(** [calc_sat] writes thirty lines to standard output and one more for
    each matched epoch; the header line is among them twice, once for
    each epoch, whatever [header_line_shown] held on entry: the
    [printf] of the header that this field guards is never reached.  A
    matched epoch has its row printed twice.  The value returned with
    the lines is the one [calc_sat] returns. *)
Theorem calc_sat_prints_header_once_per_epoch (fuel : nat) (inp : Inputs.t)
    (t : tle_t) (out : Outputs.t) (lines : list printed) :
  calc_sat_io fuel inp t = Some (out, lines) ->
  calc_sat fuel inp t = Some out /\
  length (List.filter is_header lines) = 2%nat /\
  exists f1 v0 v1,
    entry fuel 1 inp t = Some f1 /\
    epoch_view fuel 0 (enter inp t) = Some v0 /\
    epoch_view fuel 1 f1 = Some v1 /\
    let matches :=
      ((if (snd v0 <? Inputs.search_radius inp)%float then 1 else 0)
       + (if (snd v1 <? Inputs.search_radius inp)%float then 1 else 0))%nat in
    length lines = (30 + matches)%nat /\
    length (List.filter is_row lines) = (2 + matches)%nat.
Proof.
  unfold calc_sat_io. intros Hc.
  destruct (epoch_body_io fuel 0 (enter inp t)) as [[f1 out0]|] eqn:E0;
    [|discriminate].
  cbn [mbind option_bind] in Hc.
  destruct (epoch_body_io fuel 1 f1) as [[f2 out1]|] eqn:E1; [|discriminate].
  cbn [mbind option_bind] in Hc. injection Hc as <- <-.
  pose proof (epoch_body_io_frame fuel 0 (enter inp t)) as B0.
  pose proof (epoch_body_io_frame fuel 1 f1) as B1.
  rewrite E0 in B0. rewrite E1 in B1. simpl in B0, B1.
  destruct (epoch_body_io_lines _ _ _ _ _ E0)
    as (ra0 & dec0 & r0 & V0 & L0 & R0 & H0).
  destruct (epoch_body_io_lines _ _ _ _ _ E1)
    as (ra1 & dec1 & r1 & V1 & L1 & R1 & H1).
  assert (S1 : Inputs.search_radius (inputs f1) = Inputs.search_radius inp).
  { symmetry in B0.
    destruct (epoch_body_spec _ _ _ _ B0) as (_ & _ & _ & _ & Q & _).
    now rewrite (request_of_search_radius _ _ Q). }
  rewrite S1 in L1, R1.
  change (Inputs.search_radius (inputs (enter inp t)))
    with (Inputs.search_radius inp) in L0, R0.
  split.
  - unfold calc_sat, calc_sat_frame. rewrite <- B0. simpl. now rewrite <- B1.
  - split.
    + cbn [app List.filter is_header]. change (String.eqb _ header_format) with false.
      cbn iota. rewrite List.filter_app, length_app, H0, H1. reflexivity.
    + exists f1, (ra0, dec0, r0), (ra1, dec1, r1).
      split; [simpl; now rewrite <- B0|]. split; [exact V0|]. split; [exact V1|].
      cbn [snd]. split.
      * cbn [app length]. rewrite length_app, L0, L1. lia.
      * cbn [app List.filter is_row]. change (String.eqb _ row_format) with false.
        cbn iota. rewrite List.filter_app, length_app, R0, R1. lia.
Qed.

End Printed.

(** ** Five rounds of the loop suffice for angles in the usual range *)

Module Rounds.
Import F64.
#[local] Open Scope Z_scope.

(** Subtracting [PI + PI] from a number that is at most [my * 2^ey]
    gives at most the double [p' * 2^ey'], when that double is not
    below the exact difference of the bound and [PI + PI]. *)
Lemma SFsub_2pi_le (m : positive) (e my ey : Z) (p' : positive) (ey' : Z) :
  is_double_mag (Zpos m) e -> -51 <= e ->
  2 ^ 52 <= my -> is_double_mag (Zpos p') ey' ->
  e < ey \/ (e = ey /\ Zpos m <= my) ->
  2 * (my * 2 ^ (ey - -1074) - 7074237752028440 * 2 ^ 1024)
    < (2 * Zpos p' + 1) * 2 ^ (ey' - -1074) ->
  SFleb (SFsub prec emax (S754_finite false m e)
                         (S754_finite false 7074237752028440 (-50)))
        (S754_finite false p' ey') = true.
Proof.
  intros Hd He Hmy Hd' Hlex Hnum.
  pose proof Hd as (Hm & Hee & Hnorm).
  assert (Hv : Zpos m * 2 ^ (e - -1074) <= my * 2 ^ (ey - -1074))
    by (apply Round.lex_value_le; lia).
  pose proof (Bounded.aligned_value m e (-50) ltac:(lia)) as Ax.
  pose proof (Bounded.aligned_value 7074237752028440 (-50) e ltac:(lia)) as Ac.
  rewrite (Z.min_comm (-50) e) in Ac.
  change (2 ^ (-50 - -1074)) with (2 ^ 1024) in Ac.
  destruct (Round.shl_align_spec 7074237752028440 (-50) (Z.min e (-50))) as [_ Ec].
  replace (Z.min (-50) (Z.min e (-50))) with (Z.min e (-50)) in Ec by lia.
  unfold SFsub. cbv zeta. rewrite Round.binary_normalize_eq.
  unfold cond_Zopp.
  set (ax := fst (shl_align m e (Z.min e (-50)))) in *.
  set (ac := fst (shl_align 7074237752028440 (-50) (Z.min e (-50)))) in *.
  set (ez := Z.min e (-50)) in *.
  assert (Hez : ez = -51 \/ ez = -50) by lia.
  set (E := 2 ^ (ez - -1074)) in *.
  assert (HE : 0 < E) by (apply Z.pow_pos_nonneg; lia).
  destruct (Zpos ax - Zpos ac) as [|q|q] eqn:EM.
  - reflexivity.
  - apply Round.mag_le_leb.
    apply Round.round_le with (b := -1074); [assumption|lia|lia|].
    fold E.
    assert (Hq : Zpos q * E = Zpos ax * E - Zpos ac * E).
    { rewrite <- Z.mul_sub_distr_r. f_equal. lia. }
    lia.
  - assert (Hr : mag_le (binary_round prec emax true q ez) true (2 ^ 53 - 1) 971).
    { assert (Hq : Zpos q * E < 7074237752028440 * 2 ^ 1024).
      { rewrite <- Ac. apply Z.mul_lt_mono_pos_r; lia. }
      apply Round.round_le with (b := -1074); [unfold is_double_mag; lia|lia|lia|].
      fold E. change (2 ^ (971 - -1074)) with (2 ^ 2045). lia. }
    destruct Hr as [->|(m3 & e3 & -> & _)]; reflexivity.
Qed.

(** A number between [-p * 2^e] and [p * 2^e]. *)
Lemma between_mag (p : positive) (e : Z) (x : spec_float) :
  SFleb (S754_finite true p e) x = true ->
  SFleb x (S754_finite false p e) = true ->
  match x with
  | S754_zero _ => True
  | S754_finite _ m ex => ex < e \/ (ex = e /\ Zpos m <= Zpos p)
  | _ => False
  end.
Proof.
  intros Hlo Hhi. destruct x as [s|s| |s m ex]; try exact I.
  - now destruct s.
  - discriminate.
  - destruct s; [now apply leb_finite_neg in Hlo|now apply Round.leb_finite in Hhi].
Qed.

End Rounds.

Lemma sub_2pi_le (d B B' : float) (p : positive) (e : Z) (p' : positive) (e' : Z) :
  Prim2SF B = S754_finite false p e ->
  Prim2SF B' = S754_finite false p' e' ->
  (2 ^ 52 <= Zpos p)%Z ->
  (2 * (Zpos p * 2 ^ (e - -1074) - 7074237752028440 * 2 ^ 1024)
     < (2 * Zpos p' + 1) * 2 ^ (e' - -1074))%Z ->
  (PI <? d) = true -> (d <=? B) = true -> (d - (PI + PI) <=? B') = true.
Proof.
  intros EB EB' Hp Hnum Hlo Hle.
  pose proof (Prim2SF_valid B') as VB'. rewrite EB' in VB'.
  pose proof (Prim2SF_valid d) as Vd.
  rewrite FloatAxioms.ltb_spec, PI_spec in Hlo.
  rewrite FloatAxioms.leb_spec, EB in Hle.
  rewrite FloatAxioms.leb_spec, sub_spec, EB'.
  change (Prim2SF (PI + PI)) with (S754_finite false 7074237752028440 (-50)).
  destruct (Prim2SF d) as [s|[|]| |[|] m ed]; try discriminate.
  apply Round.ltb_finite in Hlo. apply Round.leb_finite in Hle.
  apply (Rounds.SFsub_2pi_le m ed (Zpos p) e p' e');
    try assumption; try lia; now apply Round.valid_finite with false.
Qed.

Lemma wrap_round (k : nat) (B B' : float) (p : positive) (e : Z)
    (p' : positive) (e' : Z) :
  Prim2SF B = S754_finite false p e ->
  Prim2SF B' = S754_finite false p' e' ->
  (2 ^ 52 <= Zpos p)%Z ->
  (2 * (Zpos p * 2 ^ (e - -1074) - 7074237752028440 * 2 ^ 1024)
     < (2 * Zpos p' + 1) * 2 ^ (e' - -1074))%Z ->
  (forall d, (d <=? B') = true -> exists r, wrap_d_ra k d = Some r) ->
  forall d, (d <=? B) = true -> exists r, wrap_d_ra (S k) d = Some r.
Proof.
  intros EB EB' Hp Hnum IH d Hle. cbn [wrap_d_ra].
  destruct (PI <? d) eqn:Hlo; [|eauto].
  apply IH. now apply (sub_2pi_le d B B' p e p' e').
Qed.

(** From 32 or less the loop is left after five rounds at most:
    the value is then at most 26, 20, 14, 8 and 2 in turn. *)
Lemma wrap_d_ra_five_rounds (d : float) :
  (d <=? 32) = true -> exists r, wrap_d_ra 5 d = Some r.
Proof.
  revert d.
  apply (wrap_round 4 32 26 4503599627370496 (-47) 7318349394477056 (-48));
    try reflexivity; try lia.
  apply (wrap_round 3 26 20 7318349394477056 (-48) 5629499534213120 (-48));
    try reflexivity; try lia.
  apply (wrap_round 2 20 14 5629499534213120 (-48) 7881299347898368 (-49));
    try reflexivity; try lia.
  apply (wrap_round 1 14 8 7881299347898368 (-49) 4503599627370496 (-49));
    try reflexivity; try lia.
  apply (wrap_round 0 8 2 4503599627370496 (-49) 4503599627370496 (-51));
    try reflexivity; try lia.
  intros d Hle. cbn [wrap_d_ra].
  destruct (PI <? d) eqn:Hlo; [|eauto].
  pose proof (ltb_leb_trans _ _ _ Hlo Hle) as Habs. discriminate Habs.
Qed.

Lemma at_most_32_five_rounds (d : float) :
  F64.at_most_pow2 5 (Prim2SF d) -> exists r, wrap_d_ra 5 d = Some r.
Proof.
  intros Hd. destruct (d =? d) eqn:Hn.
  - apply wrap_d_ra_five_rounds. rewrite FloatAxioms.leb_spec.
    change (Prim2SF 32) with (S754_finite false 4503599627370496 (-47)).
    destruct (Prim2SF d) as [s|s| |s m e] eqn:E; try contradiction.
    + reflexivity.
    + apply (proj2 (nan_spec d)) in E. congruence.
    + destruct s; [reflexivity|]. apply Round.mag_le_leb. right.
      exists m, e. split; [reflexivity|]. simpl in Hd.
      change (Zpos 4503599627370496) with (2 ^ 52)%Z. lia.
  - exists d. now apply wrap_d_ra_nan.
Qed.

Lemma to_radians_at_most_8 (x : float) :
  (- 360 <=? x) = true -> (x <=? 360) = true ->
  F64.at_most_pow2 3 (Prim2SF (x * (PI / 180))).
Proof.
  rewrite !FloatAxioms.leb_spec, mul_spec.
  change (Prim2SF (- 360)) with (S754_finite true 6333186975989760 (-44)).
  change (Prim2SF 360) with (S754_finite false 6333186975989760 (-44)).
  change (Prim2SF (PI / 180)) with (S754_finite false 5030569068109113 (-58)).
  intros Hlo Hhi. pose proof (Rounds.between_mag _ _ _ Hlo Hhi) as Hx.
  pose proof (Prim2SF_valid x) as Vx.
  destruct (Prim2SF x) as [s|s| |s m e]; try exact I; try contradiction.
  pose proof (Round.valid_finite _ _ _ Vx) as Dx.
  assert (Hq : F64.mag_le (SF64mul (S754_finite s m e)
                             (S754_finite false 5030569068109113 (-58)))
                 s (2 ^ 52) (-49)).
  { apply (Degrees.SFmul_mag_le s m 5030569068109113 e (-58)
             6333186975989760 (-44) (2 ^ 52) (-49));
      try assumption; unfold F64.is_double_mag; lia. }
  destruct Hq as [->|(m3 & e3 & -> & Hlex)]; [exact I|]. simpl. lia.
Qed.

Lemma d_ra_entry_at_most_32 (ra tra : float) :
  (- 8 <=? ra) = true -> (ra <=? 8) = true ->
  F64.at_most_pow2 3 (Prim2SF tra) ->
  F64.at_most_pow2 5 (Prim2SF (ra - tra + PI * 4)).
Proof.
  rewrite !FloatAxioms.leb_spec, add_spec.
  change (Prim2SF (- 8)) with (S754_finite true 4503599627370496 (3 - 52)).
  change (Prim2SF 8) with (S754_finite false 4503599627370496 (3 - 52)).
  intros Hlo Hhi Ht. pose proof (Bounded.between_at_most 3 _ Hlo Hhi) as Hr.
  assert (Hs : F64.at_most_pow2 4 (Prim2SF (ra - tra))).
  { rewrite sub_spec.
    apply (Bounded.SFsub_at_most 3); try apply Prim2SF_valid; try assumption. lia. }
  apply (Bounded.SFadd_at_most 4); try assumption; try lia.
  - apply Prim2SF_valid.
  - apply Prim2SF_valid.
  - change (Prim2SF (PI * 4)) with (S754_finite false 7074237752028440 (-49)).
    simpl. lia.
Qed.

Section UsualRange.
Context `{SatCode}.

Lemma epoch_body_enough_fuel (n i : nat) (f : frame) (r : float) :
  wrap_d_ra n (d_ra_entry i f) = Some r ->
  exists f', epoch_body n i f = Some f'.
Proof.
  unfold epoch_body, offset_deg, d_ra_entry.
  destruct (apparent i f) as [g [[ra dec] dist]]. intros ->. simpl. eauto.
Qed.

(** With a target right ascension between -360 and 360 degrees and an
    apparent right ascension between -8 and 8 radians at the two epochs
    of the run, each [while] loop of [calc_sat] is left after five
    rounds at most, and [calc_sat] returns. *)
Theorem calc_sat_returns_within_five_rounds (inp : Inputs.t) (t : tle_t) :
  (forall i, (i < 2)%nat ->
     (- 8 <=? run_ra inp t i) = true /\ (run_ra inp t i <=? 8) = true) ->
  (- 360 <=? Inputs.target_ra inp) = true ->
  (Inputs.target_ra inp <=? 360) = true ->
  exists out, calc_sat 5 inp t = Some out.
Proof.
  intros Hrun Hlo Hhi.
  pose proof (to_radians_at_most_8 _ Hlo Hhi) as Ht.
  destruct (d_ra_entry_run inp t) as [D0 D1].
  destruct (Hrun 0%nat ltac:(lia)) as [L0 U0].
  destruct (Hrun 1%nat ltac:(lia)) as [L1 U1].
  destruct (at_most_32_five_rounds (d_ra_entry 0 (enter inp t))) as [r0 W0].
  { rewrite D0. now apply d_ra_entry_at_most_32. }
  destruct (epoch_body_enough_fuel 5 0 _ r0 W0) as [f1 E0].
  destruct (epoch_body_spec _ _ _ _ E0) as (_ & _ & _ & _ & Q & T & _).
  destruct (apparent_keeps 0 (enter inp t)) as [Q' _].
  destruct (at_most_32_five_rounds (d_ra_entry 1 f1)) as [r1 W1].
  { rewrite (d_ra_entry_ext 1 f1 (fst (apparent 0 (enter inp t)))) by congruence.
    rewrite D1. now apply d_ra_entry_at_most_32. }
  destruct (epoch_body_enough_fuel 5 1 _ r1 W1) as [f2 E1].
  exists (outputs f2). unfold calc_sat, calc_sat_frame.
  rewrite E0. simpl. now rewrite E1.
Qed.

End UsualRange.

(** ** A match needs a finite apparent position *)

Module Finite.
Import F64.
#[local] Open Scope Z_scope.

Lemma SFadd_finite (x y : spec_float) :
  finite_sf (SFadd prec emax x y) -> finite_sf x /\ finite_sf y.
Proof.
  destruct x as [sx|sx| |sx mx ex], y as [sy|sy| |sy my ey]; simpl;
    try tauto; destruct sx, sy; simpl; tauto.
Qed.

Lemma SFsub_finite (x y : spec_float) :
  finite_sf (SFsub prec emax x y) -> finite_sf x /\ finite_sf y.
Proof.
  destruct x as [sx|sx| |sx mx ex], y as [sy|sy| |sy my ey]; simpl;
    try tauto; destruct sx, sy; simpl; tauto.
Qed.

Lemma SFmul_finite_l (x y : spec_float) :
  finite_sf (SFmul prec emax x y) -> finite_sf x.
Proof.
  destruct x as [sx|sx| |sx mx ex], y as [sy|sy| |sy my ey]; simpl; tauto.
Qed.

Lemma SFdiv_finite_l (x : spec_float) (s : bool) (m : positive) (e : Z) :
  finite_sf (SFdiv prec emax x (S754_finite s m e)) -> finite_sf x.
Proof. destruct x as [sx|sx| |sx mx ex]; simpl; tauto. Qed.

Lemma SFsqrt_finite (x : spec_float) :
  finite_sf (SFsqrt prec emax x) -> finite_sf x.
Proof. destruct x as [sx|[|]| |sx mx ex]; simpl; tauto. Qed.

(** [x < y] makes [x] a number that is not the positive infinity. *)
Lemma SFltb_finite_l (x y : spec_float) :
  SFltb x y = true -> not_negative x -> finite_sf x.
Proof.
  destruct x as [sx|sx| |sx mx ex]; simpl; try tauto; try discriminate.
  intros Hlt ->. destruct y as [sy|[|]| |[|] my ey]; discriminate.
Qed.

Lemma finite_sf_spec (x : spec_float) :
  finite_sf x <->
  SFltb (S754_infinity true) x = true /\ SFltb x (S754_infinity false) = true.
Proof.
  destruct x as [s|[|]| |[|] m e]; simpl; unfold SFltb; simpl;
    intuition discriminate.
Qed.

(** Adding [PI * 10] to a finite number does not overflow. *)
Lemma SFadd_10pi_finite (s : bool) (m : positive) (e : Z) :
  is_double_mag (Zpos m) e ->
  finite_sf (SFadd prec emax (S754_finite s m e)
                             (S754_finite false 8842797190035550 (-48))).
Proof.
  intros Hd. pose proof Hd as (Hm & He & _).
  pose proof (Bounded.aligned_value m e (-48) ltac:(lia)) as Ax.
  pose proof (Bounded.aligned_value 8842797190035550 (-48) e ltac:(lia)) as Ac.
  rewrite (Z.min_comm (-48) e) in Ac.
  change (2 ^ (-48 - -1074)) with (2 ^ 1026) in Ac.
  unfold SFadd. cbv zeta. rewrite Round.binary_normalize_eq.
  set (ax := fst (shl_align m e (Z.min e (-48)))) in *.
  set (ac := fst (shl_align 8842797190035550 (-48) (Z.min e (-48)))) in *.
  set (ez := Z.min e (-48)) in *.
  set (E := 2 ^ (ez - -1074)) in *.
  assert (HE : 0 < E) by (apply Z.pow_pos_nonneg; lia).
  assert (Hv : Zpos m * 2 ^ (e - -1074) <= (2 ^ 53 - 1) * 2 ^ (971 - -1074))
    by (apply Round.lex_value_le; lia).
  change (2 ^ (971 - -1074)) with (2 ^ 2045) in Hv.
  assert (Hr : forall s' p, Zpos p <= Zpos ax + Zpos ac ->
             finite_sf (binary_round prec emax s' p ez)).
  { intros s' p Hp.
    assert (Hle : mag_le (binary_round prec emax s' p ez) s' (2 ^ 53 - 1) 971).
    { apply Round.round_le with (b := -1074);
        [unfold is_double_mag; lia|lia|lia|].
      fold E. change (2 ^ (971 - -1074)) with (2 ^ 2045).
      assert (Zpos p * E <= Zpos ax * E + Zpos ac * E)
        by (rewrite <- Z.mul_add_distr_r; apply Z.mul_le_mono_nonneg_r; lia).
      lia. }
    destruct Hle as [->|(m3 & e3 & -> & _)]; exact I. }
  destruct (cond_Zopp s (Zpos ax) + cond_Zopp false (Zpos ac)) as [|p|p] eqn:EM;
    [exact I|apply Hr|apply Hr]; destruct s; simpl in EM; lia.
Qed.

(** [fmod] by [PI + PI] of a finite number of either sign: a double of
    that sign, or a zero, of magnitude at most the double just below
    [PI + PI]. *)
Lemma SFfmod_2pi_signed (s : bool) (mv : positive) (ev : Z) :
  is_double_mag (Zpos mv) ev ->
  let r := SFfmod (S754_finite s mv ev)
                  (S754_finite false 7074237752028440 (-50)) in
  valid_binary r = true /\ mag_le r s 7074237752028439 (-50).
Proof.
  intros (Hm & He & _). unfold SFfmod. cbv zeta.
  destruct (Round.shl_align_spec mv ev (Z.min ev (-50))) as [_ Ex].
  destruct (Round.shl_align_spec 7074237752028440 (-50) (Z.min ev (-50))) as [_ Ey].
  replace (Z.min ev (Z.min ev (-50))) with (Z.min ev (-50)) in Ex by lia.
  replace (Z.min (-50) (Z.min ev (-50))) with (Z.min ev (-50)) in Ey by lia.
  set (ez := Z.min ev (-50)) in *.
  set (ax := Zpos (fst (shl_align mv ev ez))) in *.
  set (ay := Zpos (fst (shl_align 7074237752028440 (-50) ez))) in *.
  assert (Hay : 0 < ay) by (unfold ay; lia).
  assert (Hax : 0 <= ax) by (unfold ax; lia).
  pose proof (Z.mod_pos_bound ax ay Hay) as Hrem.
  pose proof (Z.mod_le ax ay Hax Hay) as Hle.
  destruct (ax mod ay) as [|r|r] eqn:Er; [split; [reflexivity|now left]| |lia].
  assert (Hez : ez = ev /\ ev <= -50 \/ ez = -50 /\ -50 < ev) by lia.
  assert (Hmax : is_double_mag 7074237752028439 (-50)) by (unfold is_double_mag; lia).
  destruct Hez as [[Ez Hev]|[Ez Hev]]; rewrite Ez in *.
  - rewrite Z.sub_diag, Z.pow_0_r, Z.mul_1_r in Ex.
    split.
    + apply Degrees.binary_round_small_valid; lia.
    + apply Round.round_le with (b := -1074); try assumption; try lia.
      change (-50 - -1074) with 1024.
      destruct (Z.eq_dec ev (-50)) as [->|Hne].
      * change (-50 - -50) with 0 in Ey. rewrite Z.pow_0_r, Z.mul_1_r in Ey.
        change (-50 - -1074) with 1024. lia.
      * assert (2 ^ (ev - -1074) <= 2 ^ 1023) by (apply Z.pow_le_mono_r; lia).
        assert (0 < 2 ^ (ev - -1074)) by (apply Z.pow_pos_nonneg; lia).
        assert (2 * Zpos r * 2 ^ (ev - -1074) < 2 ^ 54 * 2 ^ 1023) by nia.
        lia.
  - rewrite Z.sub_diag, Z.pow_0_r, Z.mul_1_r in Ey.
    split.
    + apply Degrees.binary_round_small_valid; lia.
    + apply Round.round_le with (b := -1074); try assumption; try lia.
Qed.

Lemma mag_le_gtb_neg (r : spec_float) (my : Z) (p : positive) (ey : Z) :
  mag_le r true my ey -> my < Zpos p -> SFltb (S754_finite true p ey) r = true.
Proof.
  intros [->|(m3 & e3 & -> & Hlex)] Hp; [reflexivity|].
  unfold SFltb. simpl.
  destruct (Z.compare_spec ey e3) as [Heq|Hlt|Hgt]; [|lia|reflexivity].
  subst. destruct Hlex as [?|[_ Hle]]; [lia|].
  assert (Hlt : (m3 < p)%positive) by lia.
  apply Pos.compare_gt_iff in Hlt.
  change (Pos.compare_cont Eq p m3) with (Pos.compare p m3). now rewrite Hlt.
Qed.

End Finite.

Lemma isfinite_spec (x : float) :
  isfinite x = true <-> F64.finite_sf (Prim2SF x).
Proof.
  unfold isfinite. rewrite andb_true_iff, !FloatAxioms.ltb_spec.
  change (Prim2SF neg_infinity) with (S754_infinity true).
  change (Prim2SF infinity) with (S754_infinity false).
  symmetry. apply Finite.finite_sf_spec.
Qed.

Lemma isfinite_add (x y : float) :
  isfinite (x + y) = true -> isfinite x = true /\ isfinite y = true.
Proof. rewrite !isfinite_spec, add_spec. apply Finite.SFadd_finite. Qed.

Lemma isfinite_sub (x y : float) :
  isfinite (x - y) = true -> isfinite x = true /\ isfinite y = true.
Proof. rewrite !isfinite_spec, sub_spec. apply Finite.SFsub_finite. Qed.

Lemma isfinite_mul_l (x y : float) :
  isfinite (x * y) = true -> isfinite x = true.
Proof. rewrite !isfinite_spec, mul_spec. apply Finite.SFmul_finite_l. Qed.

(** The offset is finite only if both differences are. *)
Lemma radius_of_finite (d_ra d_dec : float) :
  isfinite (radius_of d_ra d_dec) = true ->
  isfinite d_ra = true /\ isfinite d_dec = true.
Proof.
  unfold radius_of. rewrite (isfinite_spec (_ / _)), div_spec, PI_spec.
  intros Hf. apply Finite.SFdiv_finite_l in Hf.
  rewrite mul_spec in Hf. apply Finite.SFmul_finite_l in Hf.
  rewrite sqrt_spec in Hf. apply Finite.SFsqrt_finite in Hf.
  apply isfinite_spec, isfinite_add in Hf. destruct Hf as [Ha Hb].
  split; [exact (isfinite_mul_l _ _ Ha)|exact (isfinite_mul_l _ _ Hb)].
Qed.

(** An offset below a threshold is finite. *)
Lemma radius_of_below_finite (d_ra d_dec r : float) :
  (radius_of d_ra d_dec <? r) = true -> isfinite (radius_of d_ra d_dec) = true.
Proof.
  intros Hlt. apply isfinite_spec.
  rewrite FloatAxioms.ltb_spec in Hlt.
  apply (Finite.SFltb_finite_l _ _ Hlt), radius_of_not_negative.
Qed.

(** The loop leaves a finite value only if it was entered with one. *)
Lemma wraps_finite (d r : float) :
  Spec.wraps d r -> isfinite r = true -> isfinite d = true.
Proof.
  induction 1 as [d _|d d' _ _ IH]; [trivial|].
  intros Hf. now apply IH, isfinite_sub in Hf.
Qed.

Lemma view_below_finite `{SatCode} (fuel i : nat) (f : frame)
    (ra dec radius r : float) :
  epoch_view fuel i f = Some (ra, dec, radius) ->
  (radius <? r) = true ->
  isfinite ra = true /\ isfinite dec = true.
Proof.
  intros Hv Hm.
  destruct (epoch_view_offset _ _ _ _ _ _ Hv) as (g & d_ra & _ & Hw & ->).
  pose proof (radius_of_below_finite _ _ _ Hm) as Hf.
  apply radius_of_finite in Hf. destruct Hf as [Hra Hdec].
  apply wrap_d_ra_wraps in Hw.
  pose proof (wraps_finite _ _ Hw Hra) as H0.
  apply isfinite_add in H0. destruct H0 as [H0 _].
  apply isfinite_sub in H0. apply isfinite_sub in Hdec. tauto.
Qed.

(** An apparent right ascension of plus infinity sends the loop in
    above 2^56, whatever finite target it is compared with. *)
Lemma infinite_ra_above (tra : float) :
  isfinite tra = true -> (0x1p56 <? infinity - tra + PI * 4) = true.
Proof.
  rewrite isfinite_spec, FloatAxioms.ltb_spec, add_spec, sub_spec.
  change (Prim2SF infinity) with (S754_infinity false).
  now destruct (Prim2SF tra) as [s|s| |s m e].
Qed.

Lemma infinite_ra_never_returns `{SatCode} (inp : Inputs.t) (t : tle_t)
    (i : nat) :
  (i < 2)%nat -> run_ra inp t i = infinity ->
  isfinite (Inputs.target_ra inp * (PI / 180)) = true ->
  forall fuel, calc_sat fuel inp t = None.
Proof.
  intros Hi Hinf Ht fuel.
  destruct (calc_sat fuel inp t) as [out|] eqn:Hc; [exfalso|reflexivity].
  assert (Hb : wrap_bounded inp t) by (apply calc_sat_returns_iff; eauto).
  destruct Hb as [B0 B1]. destruct (d_ra_entry_run inp t) as [D0 D1].
  pose proof (infinite_ra_above _ Ht) as Habove.
  destruct i as [|[|i]]; [| |lia]; rewrite Hinf in *; congruence.
Qed.

(** A matched epoch has a finite apparent position.  When the library
    returns a NaN or an infinity as right ascension or as declination
    for an epoch, the slot of that epoch holds the pair (0, 0) in
    every result that [calc_sat] returns, whatever the search radius.
    When the apparent right ascension of an epoch of the run is plus
    infinity and the target right ascension is finite, [calc_sat] does
    not return: the loop of that epoch never ends. *)
Theorem match_needs_finite_position `{SatCode} (inp : Inputs.t) (t : tle_t) :
  (forall (fuel : nat) (out : Outputs.t) (i : nat) (f : frame)
          (ra dec radius : float),
     calc_sat fuel inp t = Some out -> (i < 2)%nat ->
     entry fuel i inp t = Some f ->
     epoch_view fuel i f = Some (ra, dec, radius) ->
     ((radius <? Inputs.search_radius inp) = true ->
      isfinite ra = true /\ isfinite dec = true) /\
     (isfinite ra = false \/ isfinite dec = false ->
      Outputs.slot out i = (0, 0))) /\
  (forall i, (i < 2)%nat -> run_ra inp t i = infinity ->
     isfinite (Inputs.target_ra inp * (PI / 180)) = true ->
     forall fuel, calc_sat fuel inp t = None).
Proof.
  split.
  - intros fuel out i f ra dec radius Hc Hi He Hv.
    assert (Hfin : (radius <? Inputs.search_radius inp) = true ->
                   isfinite ra = true /\ isfinite dec = true)
      by apply (view_below_finite _ _ _ _ _ _ _ Hv).
    split; [exact Hfin|]. intros Hbad.
    destruct (slot_of_result _ _ _ _ _ Hc Hi)
      as (f' & ra' & dec' & r' & He' & Hv' & ->).
    rewrite He in He'. injection He' as <-.
    rewrite Hv in Hv'. injection Hv' as <- <- <-.
    destruct (radius <? Inputs.search_radius inp); [|reflexivity].
    destruct (Hfin eq_refl) as [Ha Hb]. rewrite Ha, Hb in Hbad.
    destruct Hbad; discriminate.
  - intros i. apply infinite_ra_never_returns.
Qed.

(** ** The right ascension stored for a match, without a proviso *)

Lemma fmod_2pi_signed (v : float) :
  isfinite v = true ->
  exists s, (Prim2SF (fmod v (PI + PI)) = S754_zero s \/
             exists m e, Prim2SF (fmod v (PI + PI)) = S754_finite s m e /\
                         F64.is_double_mag (Zpos m) e /\
                         (e < -50 \/ (e = -50 /\ Zpos m <= 7074237752028439))%Z).
Proof.
  rewrite isfinite_spec. unfold fmod.
  change (Prim2SF (PI + PI)) with (S754_finite false 7074237752028440 (-50)).
  pose proof (Prim2SF_valid v) as Hv.
  destruct (Prim2SF v) as [s|s| |s m e]; try contradiction; intros _.
  - exists s. left. now rewrite Prim2SF_SF2Prim.
  - destruct (Finite.SFfmod_2pi_signed s m e (Round.valid_finite _ _ _ Hv))
      as [Hval Hle].
    exists s. rewrite Prim2SF_SF2Prim by exact Hval.
    destruct Hle as [E|(m3 & e3 & E & Hlex)]; [now left|right].
    exists m3, e3. split; [exact E|]. split; [|exact Hlex].
    rewrite E in Hval. exact (Round.valid_finite _ _ _ Hval).
Qed.

Lemma add_10pi_isfinite (ra : float) :
  isfinite ra = true -> isfinite (ra + PI * 10) = true.
Proof.
  rewrite !isfinite_spec, add_spec.
  change (Prim2SF (PI * 10)) with (S754_finite false 8842797190035550 (-48)).
  pose proof (Prim2SF_valid ra) as Hv.
  destruct (Prim2SF ra) as [s|s| |s m e]; try contradiction; intros _.
  - exact I.
  - apply Finite.SFadd_10pi_finite. exact (Round.valid_finite _ _ _ Hv).
Qed.

(** The right ascension stored for a finite apparent right ascension
    lies strictly between -360 and 360. *)
Lemma matched_ra_open_range (ra : float) :
  isfinite ra = true ->
  (-360 <? matched_ra ra) = true /\ (matched_ra ra <? 360) = true.
Proof.
  intros Hf. apply add_10pi_isfinite in Hf. unfold matched_ra.
  set (r := fmod (ra + PI * 10) (PI + PI)).
  destruct (fmod_2pi_signed _ Hf) as (s & Hr). fold r in Hr.
  rewrite !FloatAxioms.ltb_spec.
  change (Prim2SF (-360)) with (S754_finite true 6333186975989760 (-44)).
  change (Prim2SF 360) with (S754_finite false 6333186975989760 (-44)).
  destruct Hr as [E|(m & e & E & Hd & Hlex)].
  - rewrite div_spec, mul_spec, E. now destruct s.
  - assert (Hq : F64.mag_le (Prim2SF (r * 180 / PI)) s 6333186975989759 (-44)).
    { apply (Degrees.to_degrees_mag_le r s m e 7074237752028439 (-50)
               4974073419394996 (-42) 6333186975989759 (-44) E);
        try assumption; unfold F64.is_double_mag; try lia; reflexivity. }
    destruct s.
    + rewrite (Finite.mag_le_gtb_neg _ _ 6333186975989760 _ Hq) by lia.
      destruct Hq as [->|(m3 & e3 & -> & _)]; split; reflexivity.
    + rewrite (Round.mag_le_ltb _ _ 6333186975989760 _ Hq) by lia.
      destruct Hq as [->|(m3 & e3 & -> & _)]; split; reflexivity.
Qed.

(** The right ascension stored for a matched epoch is a number
    strictly between -360 and 360, whatever the library returned: it is
    never a NaN or an infinity. *)
Theorem matched_ra_is_within_a_turn `{SatCode} (fuel : nat) (inp : Inputs.t)
    (t : tle_t) (out : Outputs.t) (i : nat) (f : frame)
    (ra dec radius : float) :
  calc_sat fuel inp t = Some out -> (i < 2)%nat ->
  entry fuel i inp t = Some f ->
  epoch_view fuel i f = Some (ra, dec, radius) ->
  (radius <? Inputs.search_radius inp) = true ->
  (-360 <? fst (Outputs.slot out i)) = true /\
  (fst (Outputs.slot out i) <? 360) = true.
Proof.
  intros Hc Hi He Hv Hm.
  destruct (slot_of_result _ _ _ _ _ Hc Hi) as (f' & ra' & dec' & r' & He' & Hv' & Hs).
  rewrite He in He'. injection He' as <-.
  rewrite Hv in Hv'. injection Hv' as <- <- <-.
  rewrite Hm in Hs. rewrite Hs. cbn [fst].
  apply matched_ra_open_range.
  now destruct (view_below_finite _ _ _ _ _ _ _ Hv Hm).
Qed.

(** ** The right ascension stored below the margin of [PI * 10] *)

(** The right ascension stored for a finite apparent right ascension
    below [- PI * 10] is not above zero: [fmod] keeps the sign of
    [ra + PI * 10]. *)
Lemma matched_ra_not_positive (ra : float) :
  isfinite ra = true -> (ra + PI * 10 <? 0) = true ->
  (matched_ra ra <=? 0) = true.
Proof.
  intros Hf Hneg. apply add_10pi_isfinite in Hf. unfold matched_ra.
  set (v := ra + PI * 10) in *.
  rewrite isfinite_spec in Hf. rewrite FloatAxioms.ltb_spec in Hneg.
  change (Prim2SF 0) with (S754_zero false) in Hneg.
  pose proof (Prim2SF_valid v) as Hv.
  rewrite FloatAxioms.leb_spec, div_spec, mul_spec. unfold fmod.
  change (Prim2SF (PI + PI)) with (S754_finite false 7074237752028440 (-50)).
  change (Prim2SF 0) with (S754_zero false).
  destruct (Prim2SF v) as [s|s| |[|] m e]; try contradiction; try discriminate.
  destruct (Finite.SFfmod_2pi_signed true m e (Round.valid_finite _ _ _ Hv))
    as [Hval Hle].
  rewrite Prim2SF_SF2Prim by exact Hval.
  destruct Hle as [E|(m3 & e3 & E & Hlex)]; rewrite E in *; [reflexivity|].
  pose proof (Round.valid_finite _ _ _ Hval) as Hd.
  assert (Hq : F64.mag_le
                 (SF64div (SF64mul (S754_finite true m3 e3) (Prim2SF 180))
                          (Prim2SF PI)) true 6333186975989759 (-44)).
  { pose proof (Degrees.to_degrees_mag_le (SF2Prim (S754_finite true m3 e3))
                  true m3 e3 7074237752028439 (-50)
                  4974073419394996 (-42) 6333186975989759 (-44)) as Hdeg.
    rewrite div_spec, mul_spec, Prim2SF_SF2Prim in Hdeg by exact Hval.
    apply Hdeg; try assumption; unfold F64.is_double_mag; try lia; reflexivity. }
  destruct Hq as [->|(m4 & e4 & -> & _)]; reflexivity.
Qed.

(** C4.  Where the code leaves the range of the claim.  The reduction
    [fmod (ra + PI * 10) (PI + PI)] does not put the right ascension
    into the range from 0 to 2 PI when [ra] is below [- PI * 10]: for
    every matched epoch with such an apparent right ascension the
    value stored is not above zero, and it lies above -360.  With a
    library that returns -40 radians and a search radius that matches
    it, [calc_sat] stores -131.83118052329291, which is not in
    [0, 360). *)
Theorem matched_ra_below_zero :
  (forall (S : SatCode) (fuel : nat) (inp : Inputs.t) (t : tle_t)
          (out : Outputs.t) (i : nat) (f : frame) (ra dec radius : float),
     calc_sat fuel inp t = Some out -> (i < 2)%nat ->
     entry fuel i inp t = Some f ->
     epoch_view fuel i f = Some (ra, dec, radius) ->
     (radius <? Inputs.search_radius inp) = true ->
     (ra + PI * 10 <? 0) = true ->
     (fst (Outputs.slot out i) <=? 0) = true /\
     (-360 <? fst (Outputs.slot out i)) = true) /\
  (@calc_sat (toy (sky_fixed (-40) 0) 0 id) 3
      (Inputs.with_search_radius Inputs.default 4000) tle0
   = Some (Outputs.mk (-131.83118052329291, -131.83118052329291) (0, 0)) /\
   @epoch_view (toy (sky_fixed (-40) 0) 0 id) 3 0
      (enter (Inputs.with_search_radius Inputs.default 4000) tle0)
   = Some (-40, 0, 1662.1019440935149) /\
   (1662.1019440935149 <? 4000) = true /\
   (-40 + PI * 10 <? 0) = true /\
   Spec.ra_in_range (-131.83118052329291) = false).
Proof.
  split.
  - intros S fuel inp t out i f ra dec radius Hc Hi He Hv Hm Hneg.
    destruct (slot_of_result _ _ _ _ _ Hc Hi)
      as (f' & ra' & dec' & r' & He' & Hv' & Hs).
    rewrite He in He'. injection He' as <-.
    rewrite Hv in Hv'. injection Hv' as <- <- <-.
    rewrite Hm in Hs. rewrite Hs. cbn [fst].
    destruct (view_below_finite _ _ _ _ _ _ _ Hv Hm) as [Hf _].
    split; [now apply matched_ra_not_positive|].
    now apply matched_ra_open_range.
  - repeat split; vm_compute; reflexivity.
Qed.

(** * The further properties on examples *)

Lemma set_intl_desig_terminates_witness :
  exists t' d,
    Binding.set_intl_desig tle1 [50; 48; 50; 52; 45; 48; 48; 49; 65; 66]%Z
    = Binding.Returns t' /\
    Binding.get_intl_desig t' = Binding.Returns d /\
    d = take 8 (Binding.c_string [50; 48; 50; 52; 45; 48; 48; 49; 65; 66]%Z)
        ++ replicate
             (9 - length (take 8 (Binding.c_string
                                    [50; 48; 50; 52; 45; 48; 48; 49; 65; 66]%Z)))
             0%Z /\
    length d = 9%nat /\ d !! 8%nat = Some 0%Z /\
    t' = Binding.with_intl_desig tle1 d.
Proof.
  apply (set_intl_desig_terminates tle1 [50; 48; 50; 52; 45; 48; 48; 49; 65; 66]%Z).
  reflexivity.
Defined.

(** A designator of ten characters is cut to eight. *)
Lemma intl_desig_cut_to_eight :
  Binding.set_intl_desig tle1 [50; 48; 50; 52; 45; 48; 48; 49; 65; 66]%Z
  = Binding.Returns
      (Binding.with_intl_desig tle1 [50; 48; 50; 52; 45; 48; 48; 49; 0]%Z).
Proof. reflexivity. Qed.

Lemma intl_desig_round_trip_witness :
  exists t' d,
    Binding.set_intl_desig tle1 [57; 56; 48; 54; 55; 65]%Z = Binding.Returns t' /\
    Binding.get_intl_desig t' = Binding.Returns d /\
    Binding.c_string d = take 8 (Binding.c_string [57; 56; 48; 54; 55; 65]%Z) /\
    (Binding.c_string d = [57; 56; 48; 54; 55; 65]%Z <->
     (length [57; 56; 48; 54; 55; 65]%Z <= 8)%nat /\
     Forall (fun c => c <> 0%Z) [57; 56; 48; 54; 55; 65]%Z) /\
    Binding.set_intl_desig t' d = Binding.Returns t'.
Proof.
  apply (intl_desig_round_trip tle1 [57; 56; 48; 54; 55; 65]%Z). reflexivity.
Defined.

Lemma slot_depends_on_its_epoch_witness :
  Outputs.slot out0 0 = Outputs.slot (Spec.swap_slots out0) 1.
Proof.
  apply (proj2 (@slot_depends_on_its_epoch lib0 5 5 Inputs.default
                  (Spec.swap_epochs Inputs.default) tle0 out0
                  (Spec.swap_slots out0)
                  eq_refl eq_refl eq_refl eq_refl eq_refl eq_refl
                  ltac:(vm_compute; reflexivity) ltac:(vm_compute; reflexivity)));
    [repeat split|lia|lia|reflexivity].
Defined.

Lemma wider_radius_keeps_matches_witness :
  exists out',
    @calc_sat lib0 5 (Inputs.with_search_radius Inputs.default 50) tle0
    = Some out' /\
    forall i, (i < 2)%nat ->
      Outputs.slot out0 i = (0, 0) \/
      Outputs.slot out' i = Outputs.slot out0 i.
Proof.
  apply (@wider_radius_keeps_matches lib0 5 Inputs.default tle0 50 out0);
    vm_compute; reflexivity.
Defined.

(** With the radius widened to 50 degrees the second epoch matches
    too, and the first slot is as before. *)
Lemma wider_radius_example :
  @calc_sat lib0 5 (Inputs.with_search_radius Inputs.default 50) tle0
  = Some (Outputs.mk (90.999999999999829, 130.00000000000006)
                     (31, 29.999999999999996)).
Proof. vm_compute. reflexivity. Qed.

Lemma offset_equal_to_radius_is_no_match_witness :
  Outputs.slot Outputs.default 0 = (0, 0).
Proof.
  apply (@offset_equal_to_radius_is_no_match lib0 5
           (Inputs.with_search_radius Inputs.default 1.4142135623731242) tle0
           Outputs.default 0
           (enter (Inputs.with_search_radius Inputs.default 1.4142135623731242) tle0)
           1.5882496193148399 0.54105206811824214 1.4142135623731242);
    try (vm_compute; reflexivity). lia.
Defined.

Lemma nan_request_never_matches_witness :
  @calc_sat lib0 0 (Inputs.with_target Inputs.default nan 30) tle0
  = Some Outputs.default.
Proof.
  apply (proj1 (@nan_request_never_matches lib0 0
                  (Inputs.with_target Inputs.default nan 30) tle0)).
  reflexivity.
Defined.

Lemma match_at_origin_stores_zero_pair_witness :
  Outputs.slot Outputs.default 0 = (0, 0).
Proof.
  apply (@match_at_origin_stores_zero_pair (toy (sky_fixed 0 0) 0 id) 3
           (Inputs.with_target Inputs.default 1 1) tle0 Outputs.default 0
           (enter (Inputs.with_target Inputs.default 1 1) tle0)
           1.4142135623731231);
    try (vm_compute; reflexivity). lia.
Defined.

Lemma wrap_within_half_turn_witness :
  exists d_ra,
    Spec.wraps (1.5882496193148399 - 90 * (PI / 180) + PI * 4) d_ra /\
    (- PI <=? d_ra) = true /\ (d_ra <=? PI) = true /\
    1.4142135623731242 = radius_of d_ra (0.54105206811824214 - 30 * (PI / 180)).
Proof.
  apply (@wrap_within_half_turn lib0 5 0 (enter Inputs.default tle0)
           1.5882496193148399 0.54105206811824214 1.4142135623731242);
    vm_compute; reflexivity.
Defined.

Lemma calc_sat_returns_on_ordinary_angles_witness :
  exists fuel out,
    @calc_sat (toy (sky_fixed 1 0) 0 id) fuel Inputs.default tle0 = Some out.
Proof.
  apply (@calc_sat_returns_on_ordinary_angles (toy (sky_fixed 1 0) 0 id)
           Inputs.default tle0).
  - intros [|[|i]] Hi; [split; reflexivity|split; reflexivity|lia].
  - reflexivity.
  - reflexivity.
Defined.

Lemma calc_sat_prints_header_once_per_epoch_witness :
  @calc_sat lib0 5 Inputs.default tle0 = Some out0 /\
  length (List.filter is_header lines0) = 2%nat /\
  exists f1 v0 v1,
    @entry lib0 5 1 Inputs.default tle0 = Some f1 /\
    @epoch_view lib0 5 0 (enter Inputs.default tle0) = Some v0 /\
    @epoch_view lib0 5 1 f1 = Some v1 /\
    let matches :=
      ((if (snd v0 <? Inputs.search_radius Inputs.default)%float then 1 else 0)
       + (if (snd v1 <? Inputs.search_radius Inputs.default)%float
          then 1 else 0))%nat in
    length lines0 = (30 + matches)%nat /\
    length (List.filter is_row lines0) = (2 + matches)%nat.
Proof.
  apply (@calc_sat_prints_header_once_per_epoch lib0 5 Inputs.default tle0
           out0 lines0).
  vm_compute. reflexivity.
Defined.

(** The run of the examples prints 31 lines: one epoch is matched. *)
Lemma lines0_length : length lines0 = 31%nat.
Proof. vm_compute. reflexivity. Qed.

Lemma calc_sat_returns_within_five_rounds_witness :
  exists out, @calc_sat (toy (sky_fixed 1 0) 0 id) 5 Inputs.default tle0 = Some out.
Proof.
  apply (@calc_sat_returns_within_five_rounds (toy (sky_fixed 1 0) 0 id)
           Inputs.default tle0).
  - intros [|[|i]] Hi; [split; reflexivity|split; reflexivity|lia].
  - reflexivity.
  - reflexivity.
Defined.

(** Both epochs are matched here, one degree from the target in each
    coordinate, and the result is the one of a run without a match. *)
Lemma matched_at_origin_example :
  @epoch_view (toy (sky_fixed 0 0) 0 id) 3 0
     (enter (Inputs.with_target Inputs.default 1 1) tle0)
  = Some (0, 0, 1.4142135623731231) /\
  (1.4142135623731231 <? Inputs.search_radius Inputs.default) = true /\
  @calc_sat (toy (sky_fixed 0 0) 0 id) 3
     (Inputs.with_target Inputs.default 1 1) tle0
  = Some Outputs.default.
Proof. repeat split; vm_compute; reflexivity. Qed.

Lemma match_needs_finite_position_witness :
  isfinite 1.5882496193148399 = true /\ isfinite 0.54105206811824214 = true.
Proof.
  apply (proj1 (proj1 (@match_needs_finite_position lib0 Inputs.default tle0)
                  5%nat out0 0%nat (enter Inputs.default tle0)
                  1.5882496193148399 0.54105206811824214 1.4142135623731242
                  ltac:(vm_compute; reflexivity) ltac:(lia)
                  ltac:(vm_compute; reflexivity) ltac:(vm_compute; reflexivity))).
  vm_compute. reflexivity.
Defined.

(** A library that returns plus infinity as right ascension: [calc_sat]
    does not return. *)
Lemma infinite_ra_example (fuel : nat) :
  @calc_sat (toy (sky_fixed infinity 0) 0 id) fuel Inputs.default tle0 = None.
Proof.
  apply (@infinite_ra_never_returns (toy (sky_fixed infinity 0) 0 id)
           Inputs.default tle0 0%nat); [lia|reflexivity|reflexivity].
Qed.

(** A library that returns a NaN as right ascension: no epoch matches. *)
Lemma nan_position_example :
  @epoch_view (toy (sky_fixed nan 0) 0 id) 0 0 (enter Inputs.default tle0)
  = Some (nan, 0, nan) /\
  @calc_sat (toy (sky_fixed nan 0) 0 id) 0 Inputs.default tle0
  = Some Outputs.default.
Proof. split; vm_compute; reflexivity. Qed.

Lemma matched_ra_is_within_a_turn_witness :
  (-360 <? fst (Outputs.slot
                  (Outputs.mk (-131.83118052329291, -131.83118052329291) (0, 0))
                  0)) = true /\
  (fst (Outputs.slot
          (Outputs.mk (-131.83118052329291, -131.83118052329291) (0, 0)) 0)
   <? 360) = true.
Proof.
  apply (@matched_ra_is_within_a_turn (toy (sky_fixed (-40) 0) 0 id) 3
           (Inputs.with_search_radius Inputs.default 4000) tle0
           (Outputs.mk (-131.83118052329291, -131.83118052329291) (0, 0))
           0 (enter (Inputs.with_search_radius Inputs.default 4000) tle0)
           (-40) 0 1662.1019440935149);
    try (vm_compute; reflexivity). lia.
Defined.
